(** * Tic-tac-toe: decision engine and tournament orchestrator

    A shallow embedding of [src/systems/AdvancedAI.ts] (module [AI]) and of
    the tournament system (module [Tournament]), with the properties of the
    specification stated and proved over the embedded code. *)

From stdpp Require Import gmap strings list fin_maps.
From Stdlib Require Import ZArith QArith Lia.

Open Scope Z_scope.

(** ** JavaScript numbers that occur as scores

    Scores are integers, except for the two sentinels [-Infinity] and
    [Infinity] with which the search loops start. *)

Inductive num : Type :=
  | NegInf : num
  | Fin (z : Z) : num
  | PosInf : num.

#[global] Instance num_eq_dec : EqDecision num.
Proof. solve_decision. Defined.

(** [a <= b] on numbers. *)
Definition nle (a b : num) : bool :=
  match a, b with
  | NegInf, _ => true
  | _, PosInf => true
  | Fin x, Fin y => bool_decide (x ≤ y)
  | _, _ => false
  end.

(** [a > b] on numbers. *)
Definition ngt (a b : num) : bool := negb (nle a b).

(** [Math.max(a, b)] and [Math.min(a, b)]. *)
Definition nmax (a b : num) : num := if nle a b then b else a.
Definition nmin (a b : num) : num := if nle a b then a else b.

(** [a + b] where [b] is a finite integer. *)
Definition nadd (a : num) (k : Z) : num :=
  match a with
  | Fin x => Fin (x + k)
  | other => other
  end.

(** ** Outcomes of a call: a value, a thrown [Error], or fuel exhausted
    (the model's stand-in for a recursion that has not returned yet). *)

Inductive outcome (A : Type) : Type :=
  | Ok (a : A)
  | Throw (msg : string)
  | OutOfFuel.
Arguments Ok {A} a.
Arguments Throw {A} msg.
Arguments OutOfFuel {A}.

(** ** [for (const x of xs) { ... }] with [break]

    The loop body maps the loop state and the element to the next state
    ([Continue]), to the state at a [break] ([Break]), or to [None] when a
    call inside the body ran out of fuel. *)

Inductive ctl (S : Type) : Type :=
  | Continue (s : S)
  | Break (s : S).
Arguments Continue {S} s.
Arguments Break {S} s.

Fixpoint for_of {A S : Type} (xs : list A) (body : S → A → option (ctl S))
    (s : S) : option S :=
  match xs with
  | [] => Some s
  | x :: xs' =>
      match body s x with
      | None => None
      | Some (Continue s') => for_of xs' body s'
      | Some (Break s') => Some s'
      end
  end.

Module AI.

(** ** Data model of [AdvancedAI.ts] *)

Inductive Player : Type := X | O.

#[global] Instance Player_eq_dec : EqDecision Player.
Proof. solve_decision. Defined.

(** [Player | null]: [None] is [null]. *)
Abbreviation Cell := (option Player).

(** [(Player | null)[][]] *)
Abbreviation BoardState := (list (list Cell)).

Record Position : Type := mkPosition { row : nat; col : nat }.

#[global] Instance Position_eq_dec : EqDecision Position.
Proof. solve_decision. Defined.

(** [position] is [None] when the JavaScript value is [undefined] (an array
    read out of range). *)
Record AIMove : Type := mkAIMove {
  position : option Position;
  score : num;
  confidence : Q;
  strategy : string
}.

Inductive Difficulty : Type := Easy | Medium | Hard | Expert | Impossible.

#[global] Instance Difficulty_eq_dec : EqDecision Difficulty.
Proof. solve_decision. Defined.

Record AdvancedAIPlayer : Type := mkAI {
  difficulty : Difficulty;
  player : Player;
  opponent : Player;
  moveHistory : list Position;
  patternMemory : gmap string Z
}.

(** [constructor(player, difficulty)] *)
Definition new (p : Player) (d : Difficulty) : AdvancedAIPlayer :=
  {| difficulty := d;
     player := p;
     opponent := if decide (p = X) then O else X;
     moveHistory := [];
     patternMemory := ∅ |}.

(** ** Utility functions *)

(** [board[r][c]]; [None] when the read is out of range. *)
Definition cellAt (board : BoardState) (r c : nat) : option Cell :=
  board !! r ≫= λ cells, cells !! c.

(** [board[r][c] === null] *)
Definition isNull (board : BoardState) (r c : nat) : bool :=
  bool_decide (cellAt board r c = Some None).

(** [board[r][c] === p] *)
Definition isMark (board : BoardState) (r c : nat) (p : Player) : bool :=
  bool_decide (cellAt board r c = Some (Some p)).

(** The two nested [for] loops over [0..2], row-major. *)
Definition getAvailableMoves (board : BoardState) : list Position :=
  r ← [0; 1; 2]%nat;
  c ← [0; 1; 2]%nat;
  if isNull board r c then [mkPosition r c] else [].

(** [board.map(row => [...row])] followed by the assignment
    [newBoard[row][col] = player].  The assignment is only ever made at
    positions inside the 3x3 grid; [alter] and [insert] leave the board
    alone elsewhere. *)
Definition makeMove (board : BoardState) (pos : Position) (p : Player)
    : BoardState :=
  alter (λ cells, <[col pos := Some p]> cells) (row pos) board.

Definition checkWin (board : BoardState) (p : Player) : bool :=
  existsb (λ r, isMark board r 0 p && isMark board r 1 p && isMark board r 2 p)
          [0; 1; 2]%nat
  || existsb (λ c, isMark board 0 c p && isMark board 1 c p && isMark board 2 c p)
             [0; 1; 2]%nat
  || (isMark board 0 0 p && isMark board 1 1 p && isMark board 2 2 p
      || isMark board 0 2 p && isMark board 1 1 p && isMark board 2 0 p).

Definition getWinner (board : BoardState) : option Player :=
  if checkWin board X then Some X
  else if checkWin board O then Some O
  else None.

(** [board.flat().every(cell => cell !== null)] *)
Definition isBoardFull (board : BoardState) : bool :=
  forallb (λ cell : Cell, bool_decide (cell ≠ None)) (concat board).

(** [board.flat().map(cell => cell || '_').join('')] *)
Definition cellToString (cell : Cell) : string :=
  match cell with
  | Some X => "X"
  | Some O => "O"
  | None => "_"
  end.

Definition boardToPattern (board : BoardState) : string :=
  String.concat "" (cellToString <$> concat board).

Definition getPositionalScore (pos : Position) : Z :=
  if bool_decide (row pos = 1%nat) && bool_decide (col pos = 1%nat) then 3
  else if (bool_decide (row pos = 0%nat) || bool_decide (row pos = 2%nat))
          && (bool_decide (col pos = 0%nat) || bool_decide (col pos = 2%nat))
  then 2
  else 1.

(** ** Search *)

(** [minimax(board, depth, isMaximizing)].  The recursion of the source is
    on the board; here it is on [fuel], and [None] means the fuel ran out. *)
Fixpoint minimax (fuel : nat) (ai : AdvancedAIPlayer) (board : BoardState)
    (depth : Z) (isMaximizing : bool) : option num :=
  match fuel with
  | 0%nat => None
  | S fuel' =>
      let winner := getWinner board in
      if decide (winner = Some (player ai)) then Some (Fin (10 - depth))
      else if decide (winner = Some (opponent ai)) then Some (Fin (depth - 10))
      else if isBoardFull board then Some (Fin 0)
      else
        let availableMoves := getAvailableMoves board in
        if isMaximizing then
          for_of availableMoves
            (λ bestScore move,
               let testBoard := makeMove board move (player ai) in
               score ← minimax fuel' ai testBoard (depth + 1) false;
               Some (Continue (nmax score bestScore)))
            NegInf
        else
          for_of availableMoves
            (λ bestScore move,
               let testBoard := makeMove board move (opponent ai) in
               score ← minimax fuel' ai testBoard (depth + 1) true;
               Some (Continue (nmin score bestScore)))
            PosInf
  end.

(** [minimaxAlphaBeta(board, depth, alpha, beta, isMaximizing)].  The loop
    state is the pair of the running evaluation and the bound the loop
    updates ([alpha] when maximizing, [beta] when minimizing). *)
Fixpoint minimaxAlphaBeta (fuel : nat) (ai : AdvancedAIPlayer)
    (board : BoardState) (depth : Z) (alpha beta : num)
    (isMaximizing : bool) : option num :=
  match fuel with
  | 0%nat => None
  | S fuel' =>
      let winner := getWinner board in
      if decide (winner = Some (player ai)) then Some (Fin (10 - depth))
      else if decide (winner = Some (opponent ai)) then Some (Fin (depth - 10))
      else if isBoardFull board then Some (Fin 0)
      else
        let availableMoves := getAvailableMoves board in
        if isMaximizing then
          fst <$> for_of availableMoves
            (λ st move,
               let '(maxEval, alpha) := st in
               let testBoard := makeMove board move (player ai) in
               evaluation ← minimaxAlphaBeta fuel' ai testBoard (depth + 1)
                               alpha beta false;
               let maxEval := nmax maxEval evaluation in
               let alpha := nmax alpha evaluation in
               if nle beta alpha then Some (Break (maxEval, alpha))
               else Some (Continue (maxEval, alpha)))
            (NegInf, alpha)
        else
          fst <$> for_of availableMoves
            (λ st move,
               let '(minEval, beta) := st in
               let testBoard := makeMove board move (opponent ai) in
               evaluation ← minimaxAlphaBeta fuel' ai testBoard (depth + 1)
                               alpha beta true;
               let minEval := nmin minEval evaluation in
               let beta := nmin beta evaluation in
               if nle beta alpha then Some (Break (minEval, beta))
               else Some (Continue (minEval, beta)))
            (PosInf, beta)
  end.

(** ** Pattern memory *)

(** [updatePatternMemory(board, move)]: the move is not used. *)
Definition updatePatternMemory (ai : AdvancedAIPlayer) (board : BoardState)
    (move : option Position) : AdvancedAIPlayer :=
  let pattern := boardToPattern board in
  let currentScore := default 0 (patternMemory ai !! pattern) in
  {| difficulty := difficulty ai;
     player := player ai;
     opponent := opponent ai;
     moveHistory := moveHistory ai;
     patternMemory := <[pattern := currentScore + 1]> (patternMemory ai) |}.

(** [getPatternMove(board)]; [None] is the [null] result.  The test
    [patternScore && patternScore > 5] fails for a missing entry and for 0. *)
Definition getPatternMove (ai : AdvancedAIPlayer) (board : BoardState)
    : option AIMove :=
  let boardPattern := boardToPattern board in
  match patternMemory ai !! boardPattern with
  | Some patternScore =>
      if bool_decide (patternScore ≠ 0) && bool_decide (5 < patternScore) then
        let availableMoves := getAvailableMoves board in
        let bestMove := availableMoves !! 0%nat in
        Some {| position := bestMove;
                score := Fin patternScore;
                confidence := 9 # 10;
                strategy := "Pattern Recognition" |}
      else None
  | None => None
  end.

(** ** The five tiers

    [rnd n] stands for [Math.floor(Math.random() * n)]; a call of
    [getBestMove] draws at most one random number. *)

Definition isCenterOrCorner (move : Position) : bool :=
  bool_decide (row move = 1%nat) && bool_decide (col move = 1%nat)
  || (bool_decide (row move = 0%nat) || bool_decide (row move = 2%nat))
     && (bool_decide (col move = 0%nat) || bool_decide (col move = 2%nat)).

Definition getRandomMove (rnd : nat → nat) (board : BoardState)
    (availableMoves : list Position) : AIMove :=
  let centerCornerMoves := filter (λ move, isCenterOrCorner move = true)
                                  availableMoves in
  let preferredMoves :=
    if bool_decide (0 < length centerCornerMoves)%nat then centerCornerMoves
    else availableMoves in
  let randomMove := preferredMoves !! rnd (length preferredMoves) in
  {| position := randomMove;
     score := Fin 0;
     confidence := 3 # 10;
     strategy := "Random with preference" |}.

(** The first element of [moves] whose trial board is won by [p]. *)
Definition findWinningMove (board : BoardState) (p : Player)
    (moves : list Position) : option Position :=
  List.find (λ move, checkWin (makeMove board move p) p) moves.

Definition getMediumMove (rnd : nat → nat) (ai : AdvancedAIPlayer)
    (board : BoardState) (availableMoves : list Position) : AIMove :=
  match findWinningMove board (player ai) availableMoves with
  | Some move =>
      {| position := Some move; score := Fin 100; confidence := 1;
         strategy := "Winning move" |}
  | None =>
  match findWinningMove board (opponent ai) availableMoves with
  | Some move =>
      {| position := Some move; score := Fin 50; confidence := 9 # 10;
         strategy := "Blocking move" |}
  | None =>
      if isNull board 1 1 then
        {| position := Some (mkPosition 1 1); score := Fin 10;
           confidence := 6 # 10; strategy := "Center preference" |}
      else
        let corners :=
          filter (λ pos, isNull board (row pos) (col pos) = true)
                 [mkPosition 0 0; mkPosition 0 2;
                  mkPosition 2 0; mkPosition 2 2] in
        if bool_decide (0 < length corners)%nat then
          let corner := corners !! rnd (length corners) in
          {| position := corner; score := Fin 5; confidence := 5 # 10;
             strategy := "Corner preference" |}
        else getRandomMove rnd board availableMoves
  end
  end.

(** The selection loop shared in shape by the three searching tiers: the
    state is [(bestMove, bestScore)] and [scoreOf] is the body's scoring of
    one move. *)
Definition selectBest (scoreOf : Position → option num)
    (availableMoves : list Position) : option (option Position * num) :=
  for_of availableMoves
    (λ st move,
       let '(bestMove, bestScore) := st in
       score ← scoreOf move;
       if ngt score bestScore then Some (Continue (Some move, score))
       else Some (Continue (bestMove, bestScore)))
    (availableMoves !! 0%nat, NegInf).

Definition getHardMove (fuel : nat) (ai : AdvancedAIPlayer)
    (board : BoardState) (availableMoves : list Position) : option AIMove :=
  '(bestMove, bestScore) ←
    selectBest (λ move,
                  let testBoard := makeMove board move (player ai) in
                  minimax fuel ai testBoard 0 false)
               availableMoves;
  Some {| position := bestMove; score := bestScore; confidence := 8 # 10;
          strategy := "Minimax" |}.

Definition getExpertMove (fuel : nat) (ai : AdvancedAIPlayer)
    (board : BoardState) (availableMoves : list Position)
    : option (AIMove * AdvancedAIPlayer) :=
  '(bestMove, bestScore) ←
    selectBest (λ move,
                  let testBoard := makeMove board move (player ai) in
                  minimaxAlphaBeta fuel ai testBoard 0 NegInf PosInf false)
               availableMoves;
  let ai' := updatePatternMemory ai board bestMove in
  Some ({| position := bestMove; score := bestScore; confidence := 95 # 100;
           strategy := "Alpha-Beta Pruning" |}, ai').

Definition getImpossibleMove (fuel : nat) (ai : AdvancedAIPlayer)
    (board : BoardState) (availableMoves : list Position)
    : option (AIMove * AdvancedAIPlayer) :=
  match getPatternMove ai board with
  | Some patternMove => Some (patternMove, ai)
  | None =>
      '(bestMove, bestScore) ←
        selectBest (λ move,
                      let testBoard := makeMove board move (player ai) in
                      score ← minimaxAlphaBeta fuel ai testBoard 0
                                NegInf PosInf false;
                      let positionalScore := getPositionalScore move in
                      Some (nadd score positionalScore))
                   availableMoves;
      let ai' := updatePatternMemory ai board bestMove in
      Some ({| position := bestMove; score := bestScore; confidence := 1;
               strategy := "Perfect Play + Patterns" |}, ai')
  end.

Definition lift {A : Type} (r : option A) : outcome A :=
  match r with
  | Some a => Ok a
  | None => OutOfFuel
  end.

(** [getBestMove(board)]: the move together with the engine after the call
    (only the pattern memory can have changed).  The [throw] happens before
    any change to the engine. *)
Definition getBestMove (fuel : nat) (rnd : nat → nat) (ai : AdvancedAIPlayer)
    (board : BoardState) : outcome (AIMove * AdvancedAIPlayer) :=
  let availableMoves := getAvailableMoves board in
  if bool_decide (length availableMoves = 0%nat) then
    Throw "No available moves"
  else
    match difficulty ai with
    | Easy => Ok (getRandomMove rnd board availableMoves, ai)
    | Medium => Ok (getMediumMove rnd ai board availableMoves, ai)
    | Hard => lift ((λ m, (m, ai)) <$> getHardMove fuel ai board availableMoves)
    | Expert => lift (getExpertMove fuel ai board availableMoves)
    | Impossible => lift (getImpossibleMove fuel ai board availableMoves)
    end.

(** Fuel that suffices for every search on a 3x3 board: at most nine cells
    are still empty, and each recursive call fills one. *)
Definition searchFuel : nat := 10.

Definition recordMove (ai : AdvancedAIPlayer) (pos : Position)
    : AdvancedAIPlayer :=
  {| difficulty := difficulty ai; player := player ai;
     opponent := opponent ai;
     moveHistory := moveHistory ai ++ [pos];
     patternMemory := patternMemory ai |}.

Definition reset (ai : AdvancedAIPlayer) : AdvancedAIPlayer :=
  {| difficulty := difficulty ai; player := player ai;
     opponent := opponent ai;
     moveHistory := [];
     patternMemory := patternMemory ai |}.

Definition setDifficulty (ai : AdvancedAIPlayer) (d : Difficulty)
    : AdvancedAIPlayer :=
  {| difficulty := d; player := player ai;
     opponent := opponent ai;
     moveHistory := moveHistory ai;
     patternMemory := patternMemory ai |}.

(** ** Boards *)

(** A board is a 3x3 grid. *)
Definition wf_board (board : BoardState) : Prop :=
  length board = 3%nat ∧ Forall (λ cells, length cells = 3%nat) board.

Definition emptyBoard : BoardState :=
  [[None; None; None]; [None; None; None]; [None; None; None]].

(** Number of [null] cells. *)
Definition countEmpty (board : BoardState) : nat :=
  sum_list ((λ cell : Cell, if cell is None then 1 else 0)%nat <$> concat board).

(** The engine as the constructor leaves it, up to the fields that the
    public methods change: the opponent is the other player. *)
Definition wf_ai (ai : AdvancedAIPlayer) : Prop :=
  opponent ai = (if decide (player ai = X) then O else X).

End AI.

Module Tournament.

(** ** Data model of the tournament system

    Objects that the code shares and mutates in place live in three stores
    of the system, and are named by references (natural numbers): the
    [stats] records, the player objects and the match objects.  A player
    object holds a reference to its [stats] object, a match holds
    references to its two players. *)

Inductive PlayerKind : Type := HumanPlayer | AIPlayer.

Record Stats : Type := mkStats {
  wins : Z;
  losses : Z;
  draws : Z;
  gamesPlayed : Z
}.

(** [actualScore]: 1, 0 or 0.5. *)
Inductive Actual : Type := ActualWin | ActualLoss | ActualDraw.

(** A rating is a number computed in floating point.  It is kept as the
    expression that the code evaluates: an integer literal, or
    [Math.round(own + 32 * (actual - 1 / (1 + Math.pow(10, (other - own) / 400))))]
    for [Rerated own other actual]. *)
Inductive Elo : Type :=
  | Rating (z : Z)
  | Rerated (own other : Elo) (actual : Actual).

Record TournamentPlayer : Type := mkTournamentPlayer {
  p_id : string;
  p_name : string;
  p_type : PlayerKind;
  p_difficulty : option AI.Difficulty;
  p_stats : nat;
  p_elo : Elo
}.

Inductive MatchResult : Type := Player1 | Player2 | Draw | Pending.

#[global] Instance MatchResult_eq_dec : EqDecision MatchResult.
Proof. solve_decision. Defined.

(** [player1] and [player2] are references to player objects; [None] is
    [null]. *)
Record Match : Type := mkMatch {
  m_id : string;
  m_player1 : option nat;
  m_player2 : option nat;
  m_result : MatchResult;
  m_roundNumber : Z;
  m_startTime : option nat;
  m_endTime : option nat;
  m_moves : list (AI.Player * AI.Position * nat)
}.

Inductive Format : Type :=
  SingleElimination | DoubleElimination | RoundRobin | Swiss.

#[global] Instance Format_eq_dec : EqDecision Format.
Proof. solve_decision. Defined.

Inductive Status : Type := Setup | InProgress | Completed.

#[global] Instance Status_eq_dec : EqDecision Status.
Proof. solve_decision. Defined.

(** [rounds] holds references to match objects; the grand final is an
    object that nothing else refers to and is kept by value. *)
Record TournamentBracket : Type := mkBracket {
  rounds : list (list nat);
  finals : option nat;
  grandFinals : option Match
}.

(** [winner] is a reference to a player object; [None] when the field is
    not set. *)
Record Tournament : Type := mkTournament {
  t_id : string;
  t_name : string;
  t_type : Format;
  t_status : Status;
  t_players : list nat;
  t_matches : list nat;
  t_bracket : TournamentBracket;
  t_currentRound : Z;
  t_totalRounds : Z;
  t_winner : option nat;
  t_startTime : option nat;
  t_endTime : option nat
}.

(** The system: its three private fields, the three object stores, and the
    number of [Math.random()] calls made so far. *)
Record TournamentSystem : Type := mkSystem {
  tournaments : gmap string Tournament;
  playerDatabase : gmap string nat;
  matchHistory : list nat;
  playerObjs : gmap nat TournamentPlayer;
  statsObjs : gmap nat Stats;
  matchObjs : gmap nat Match;
  randomCalls : nat
}.

(** The source of randomness: [randomId k] is the string
    [Math.random().toString(36).substring(2, 9)] of the [k]-th call, and
    [randomIndex k n] is [Math.floor(Math.random() * n)] of the [k]-th
    call. *)
Record Random : Type := mkRandom {
  randomId : nat → string;
  randomIndex : nat → nat → nat
}.

(** *** Updates of single fields *)

Definition setTournaments (s : TournamentSystem)
    (v : gmap string Tournament) : TournamentSystem :=
  mkSystem v (playerDatabase s) (matchHistory s) (playerObjs s) (statsObjs s)
           (matchObjs s) (randomCalls s).

Definition setPlayerDatabase (s : TournamentSystem) (v : gmap string nat)
    : TournamentSystem :=
  mkSystem (tournaments s) v (matchHistory s) (playerObjs s) (statsObjs s)
           (matchObjs s) (randomCalls s).

Definition setPlayerObjs (s : TournamentSystem)
    (v : gmap nat TournamentPlayer) : TournamentSystem :=
  mkSystem (tournaments s) (playerDatabase s) (matchHistory s) v (statsObjs s)
           (matchObjs s) (randomCalls s).

Definition setStatsObjs (s : TournamentSystem) (v : gmap nat Stats)
    : TournamentSystem :=
  mkSystem (tournaments s) (playerDatabase s) (matchHistory s) (playerObjs s) v
           (matchObjs s) (randomCalls s).

Definition setMatchObjs (s : TournamentSystem) (v : gmap nat Match)
    : TournamentSystem :=
  mkSystem (tournaments s) (playerDatabase s) (matchHistory s) (playerObjs s)
           (statsObjs s) v (randomCalls s).

Definition setRandomCalls (s : TournamentSystem) (v : nat)
    : TournamentSystem :=
  mkSystem (tournaments s) (playerDatabase s) (matchHistory s) (playerObjs s)
           (statsObjs s) (matchObjs s) v.

Definition setStatus (t : Tournament) (v : Status) : Tournament :=
  mkTournament (t_id t) (t_name t) (t_type t) v (t_players t) (t_matches t)
               (t_bracket t) (t_currentRound t) (t_totalRounds t) (t_winner t)
               (t_startTime t) (t_endTime t).

Definition setMatches (t : Tournament) (v : list nat) : Tournament :=
  mkTournament (t_id t) (t_name t) (t_type t) (t_status t) (t_players t) v
               (t_bracket t) (t_currentRound t) (t_totalRounds t) (t_winner t)
               (t_startTime t) (t_endTime t).

Definition setBracket (t : Tournament) (v : TournamentBracket) : Tournament :=
  mkTournament (t_id t) (t_name t) (t_type t) (t_status t) (t_players t)
               (t_matches t) v (t_currentRound t) (t_totalRounds t)
               (t_winner t) (t_startTime t) (t_endTime t).

Definition setCurrentRound (t : Tournament) (v : Z) : Tournament :=
  mkTournament (t_id t) (t_name t) (t_type t) (t_status t) (t_players t)
               (t_matches t) (t_bracket t) v (t_totalRounds t) (t_winner t)
               (t_startTime t) (t_endTime t).

Definition setWinner (t : Tournament) (v : option nat) : Tournament :=
  mkTournament (t_id t) (t_name t) (t_type t) (t_status t) (t_players t)
               (t_matches t) (t_bracket t) (t_currentRound t) (t_totalRounds t)
               v (t_startTime t) (t_endTime t).

Definition setStartTime (t : Tournament) (v : option nat) : Tournament :=
  mkTournament (t_id t) (t_name t) (t_type t) (t_status t) (t_players t)
               (t_matches t) (t_bracket t) (t_currentRound t) (t_totalRounds t)
               (t_winner t) v (t_endTime t).

Definition setEndTime (t : Tournament) (v : option nat) : Tournament :=
  mkTournament (t_id t) (t_name t) (t_type t) (t_status t) (t_players t)
               (t_matches t) (t_bracket t) (t_currentRound t) (t_totalRounds t)
               (t_winner t) (t_startTime t) v.

(** *** Allocation *)

(** A new object gets a reference that is not in use. *)
Definition allocStats (s : TournamentSystem) (st : Stats)
    : nat * TournamentSystem :=
  let ref := fresh (dom (statsObjs s)) in
  (ref, setStatsObjs s (<[ref := st]> (statsObjs s))).

Definition allocPlayer (s : TournamentSystem) (p : TournamentPlayer)
    : nat * TournamentSystem :=
  let ref := fresh (dom (playerObjs s)) in
  (ref, setPlayerObjs s (<[ref := p]> (playerObjs s))).

Definition allocMatch (s : TournamentSystem) (m : Match)
    : nat * TournamentSystem :=
  let ref := fresh (dom (matchObjs s)) in
  (ref, setMatchObjs s (<[ref := m]> (matchObjs s))).

(** [generateId()] *)
Definition generateId (rng : Random) (s : TournamentSystem)
    : string * TournamentSystem :=
  (randomId rng (randomCalls s), setRandomCalls s (S (randomCalls s))).

(** ** Construction *)

Definition difficultyName (d : AI.Difficulty) : string :=
  match d with
  | AI.Easy => "Easy"
  | AI.Medium => "Medium"
  | AI.Hard => "Hard"
  | AI.Expert => "Expert"
  | AI.Impossible => "Impossible"
  end.

(** [difficulty.toLowerCase()] *)
Definition difficultyLower (d : AI.Difficulty) : string :=
  match d with
  | AI.Easy => "easy"
  | AI.Medium => "medium"
  | AI.Hard => "hard"
  | AI.Expert => "expert"
  | AI.Impossible => "impossible"
  end.

(** One step of the [forEach] of [initializeAIPlayers]. *)
Definition initializeAIPlayer (s : TournamentSystem)
    (entry : nat * AI.Difficulty) : TournamentSystem :=
  let '(index, difficulty) := entry in
  let '(statsRef, s) := allocStats s (mkStats 0 0 0 0) in
  let player :=
    {| p_id := "ai_" +:+ difficultyLower difficulty;
       p_name := "AI " +:+ difficultyName difficulty;
       p_type := AIPlayer;
       p_difficulty := Some difficulty;
       p_stats := statsRef;
       p_elo := Rating (1200 + Z.of_nat index * 200) |} in
  let '(ref, s) := allocPlayer s player in
  setPlayerDatabase s (<[p_id player := ref]> (playerDatabase s)).

Definition initializeAIPlayers (s : TournamentSystem) : TournamentSystem :=
  foldl initializeAIPlayer s
    (imap (λ index difficulty, (index, difficulty))
          [AI.Easy; AI.Medium; AI.Hard; AI.Expert; AI.Impossible]).

(** [new TournamentSystem()] *)
Definition new : TournamentSystem :=
  initializeAIPlayers (mkSystem ∅ ∅ [] ∅ ∅ ∅ 0).

(** [addHumanPlayer(name)] *)
Definition addHumanPlayer (rng : Random) (s : TournamentSystem) (name : string)
    : nat * TournamentSystem :=
  let '(id, s) := generateId rng s in
  let '(statsRef, s) := allocStats s (mkStats 0 0 0 0) in
  let player :=
    {| p_id := id; p_name := name; p_type := HumanPlayer;
       p_difficulty := None; p_stats := statsRef; p_elo := Rating 1200 |} in
  let '(ref, s) := allocPlayer s player in
  (ref, setPlayerDatabase s (<[p_id player := ref]> (playerDatabase s))).

(** ** Brackets *)

(** [Math.ceil(Math.log2(playerCount))], for a count of at least one. *)
Definition ceilLog2 (playerCount : nat) : Z := Z.log2_up (Z.of_nat playerCount).

Definition calculateTotalRounds (type : Format) (playerCount : nat) : Z :=
  match type with
  | SingleElimination => ceilLog2 playerCount
  | DoubleElimination => ceilLog2 playerCount * 2
  | RoundRobin => 1
  | Swiss => ceilLog2 playerCount
  end.

Definition pendingMatch (id : string) (player1 player2 : option nat)
    (roundNumber : Z) : Match :=
  {| m_id := id; m_player1 := player1; m_player2 := player2;
     m_result := Pending; m_roundNumber := roundNumber;
     m_startTime := None; m_endTime := None; m_moves := [] |}.

(** Creates a match object and pushes it on [tournament.matches]. *)
Definition pushMatch (rng : Random) (s : TournamentSystem) (t : Tournament)
    (player1 player2 : option nat) (roundNumber : Z)
    : nat * Tournament * TournamentSystem :=
  let '(id, s) := generateId rng s in
  let '(ref, s) := allocMatch s (pendingMatch id player1 player2 roundNumber) in
  (ref, setMatches t (t_matches t ++ [ref]), s).

(** The loop [for (let i = 0; i < players.length; i += 2)] of the single
    elimination bracket: a match is created when both slots hold a
    player.  Returns the matches of the round. *)
Fixpoint pairSlots (rng : Random) (s : TournamentSystem) (t : Tournament)
    (players : list (option nat)) (roundNumber : Z)
    : list nat * Tournament * TournamentSystem :=
  match players with
  | Some player1 :: Some player2 :: rest =>
      let '(ref, t, s) :=
        pushMatch rng s t (Some player1) (Some player2) roundNumber in
      let '(roundMatches, t, s) := pairSlots rng s t rest roundNumber in
      (ref :: roundMatches, t, s)
  | _ :: _ :: rest => pairSlots rng s t rest roundNumber
  | _ => ([], t, s)
  end.

(** The loop [while (players.length > 1)]; [None] when the fuel runs out. *)
Fixpoint eliminationRounds (fuel : nat) (rng : Random) (s : TournamentSystem)
    (t : Tournament) (players : list (option nat)) (roundNumber : Z)
    : option (Tournament * TournamentSystem) :=
  if bool_decide (1 < length players)%nat then
    match fuel with
    | 0%nat => None
    | S fuel' =>
        let '(roundMatches, t, s) := pairSlots rng s t players roundNumber in
        let bracket := t_bracket t in
        let t := setBracket t (mkBracket (rounds bracket ++ [roundMatches])
                                         (finals bracket)
                                         (grandFinals bracket)) in
        let players := (λ _, None) <$> roundMatches in
        eliminationRounds fuel' rng s t players (roundNumber + 1)
    end
  else Some (t, s).

(** [Math.pow(2, Math.ceil(Math.log2(n)))] *)
Definition nextPowerOf2 (n : nat) : nat := Z.to_nat (2 ^ ceilLog2 n).

Definition generateSingleEliminationBracket (rng : Random)
    (s : TournamentSystem) (t : Tournament)
    : option (Tournament * TournamentSystem) :=
  let players : list (option nat) := Some <$> t_players t in
  let players :=
    players ++ replicate (nextPowerOf2 (length players) - length players) None in
  let bracket := t_bracket t in
  let t := setBracket t (mkBracket [] (finals bracket) (grandFinals bracket)) in
  eliminationRounds (length players) rng s t players 1.

Definition generateDoubleEliminationBracket (rng : Random)
    (s : TournamentSystem) (t : Tournament)
    : option (Tournament * TournamentSystem) :=
  '(t, s) ← generateSingleEliminationBracket rng s t;
  (* one identifier is drawn for each placeholder of the losers bracket;
     the placeholders themselves are dropped *)
  let s := foldl (λ s _, snd (generateId rng s)) s (concat (rounds (t_bracket t))) in
  let '(id, s) := generateId rng s in
  let bracket := t_bracket t in
  let t := setBracket t (mkBracket (rounds bracket) (finals bracket)
                                   (Some (pendingMatch id None None 999))) in
  Some (t, s).

(** The inner loop [for (let j = i + 1; ...)] for one [i]. *)
Fixpoint pairWithRest (rng : Random) (s : TournamentSystem) (t : Tournament)
    (player : nat) (rest : list nat) : Tournament * TournamentSystem :=
  match rest with
  | [] => (t, s)
  | other :: rest' =>
      let '(_, t, s) := pushMatch rng s t (Some player) (Some other) 1 in
      pairWithRest rng s t player rest'
  end.

Fixpoint allPairings (rng : Random) (s : TournamentSystem) (t : Tournament)
    (players : list nat) : Tournament * TournamentSystem :=
  match players with
  | [] => (t, s)
  | player :: rest =>
      let '(t, s) := pairWithRest rng s t player rest in
      allPairings rng s t rest
  end.

(** [bracket.rounds] becomes the one-element array holding the array
    [tournament.matches] itself; no later code path pushes on it for this
    format. *)
Definition generateRoundRobinBracket (rng : Random) (s : TournamentSystem)
    (t : Tournament) : Tournament * TournamentSystem :=
  let '(t, s) := allPairings rng s t (t_players t) in
  let bracket := t_bracket t in
  (setBracket t (mkBracket [t_matches t] (finals bracket) (grandFinals bracket)),
   s).

(** [[array[i], array[j]] = [array[j], array[i]]] *)
Definition swap {A : Type} (array : list A) (i j : nat) : list A :=
  match array !! i, array !! j with
  | Some x, Some y => <[j := x]> (<[i := y]> array)
  | _, _ => array
  end.

(** [shuffleArray]: [i] runs from [length - 1] down to 1. *)
Fixpoint shuffleFrom {A : Type} (rng : Random) (s : TournamentSystem)
    (array : list A) (i : nat) : list A * TournamentSystem :=
  match i with
  | 0%nat => (array, s)
  | S i' =>
      let j := randomIndex rng (randomCalls s) (i + 1) in
      let s := setRandomCalls s (S (randomCalls s)) in
      shuffleFrom rng s (swap array i j) i'
  end.

Definition shuffleArray {A : Type} (rng : Random) (s : TournamentSystem)
    (array : list A) : list A * TournamentSystem :=
  shuffleFrom rng s array (length array - 1).

(** The pairing loop of the Swiss bracket. *)
Fixpoint pairConsecutive (rng : Random) (s : TournamentSystem) (t : Tournament)
    (players : list nat) (roundNumber : Z)
    : list nat * Tournament * TournamentSystem :=
  match players with
  | player1 :: player2 :: rest =>
      let '(ref, t, s) :=
        pushMatch rng s t (Some player1) (Some player2) roundNumber in
      let '(roundMatches, t, s) := pairConsecutive rng s t rest roundNumber in
      (ref :: roundMatches, t, s)
  | _ => ([], t, s)
  end.

Definition generateSwissBracket (rng : Random) (s : TournamentSystem)
    (t : Tournament) : Tournament * TournamentSystem :=
  let '(players, s) := shuffleArray rng s (t_players t) in
  let '(firstRoundMatches, t, s) := pairConsecutive rng s t players 1 in
  let bracket := t_bracket t in
  (setBracket t (mkBracket [firstRoundMatches] (finals bracket)
                           (grandFinals bracket)),
   s).

Definition generateBracket (rng : Random) (s : TournamentSystem)
    (t : Tournament) : option (Tournament * TournamentSystem) :=
  match t_type t with
  | SingleElimination => generateSingleEliminationBracket rng s t
  | DoubleElimination => generateDoubleEliminationBracket rng s t
  | RoundRobin => Some (generateRoundRobinBracket rng s t)
  | Swiss => Some (generateSwissBracket rng s t)
  end.

(** ** Operations *)

(** [{ ...player }]: a new player object with the same field values; the
    [stats] field of the copy refers to the same [stats] object. *)
Definition clonePlayer (s : TournamentSystem) (player : TournamentPlayer)
    : nat * TournamentSystem :=
  allocPlayer s player.

(** The [map] over [playerIds] in [createTournament]; the error is the
    identifier that is not registered. *)
Fixpoint clonePlayers (s : TournamentSystem) (playerIds : list string)
    : string + list nat * TournamentSystem :=
  match playerIds with
  | [] => inr ([], s)
  | id :: rest =>
      match playerDatabase s !! id ≫= λ ref, playerObjs s !! ref with
      | None => inl id
      | Some player =>
          let '(ref, s) := clonePlayer s player in
          match clonePlayers s rest with
          | inl missing => inl missing
          | inr (refs, s) => inr (ref :: refs, s)
          end
      end
  end.

(** [createTournament(name, type, playerIds)].  A [throw] leaves the
    system as it was: the objects allocated before it are unreachable. *)
Definition createTournament (rng : Random) (s : TournamentSystem)
    (name : string) (type : Format) (playerIds : list string)
    : outcome (Tournament * TournamentSystem) :=
  if bool_decide (length playerIds < 2)%nat then
    Throw "Tournament requires at least 2 players"
  else
    match clonePlayers s playerIds with
    | inl missing => Throw ("Player " +:+ missing +:+ " not found")
    | inr (players, s) =>
        let '(id, s) := generateId rng s in
        let tournament :=
          {| t_id := id; t_name := name; t_type := type; t_status := Setup;
             t_players := players; t_matches := [];
             t_bracket := mkBracket [] None None;
             t_currentRound := 0;
             t_totalRounds := calculateTotalRounds type (length players);
             t_winner := None; t_startTime := None; t_endTime := None |} in
        match generateBracket rng s tournament with
        | None => OutOfFuel
        | Some (tournament, s) =>
            Ok (tournament,
                setTournaments s (<[t_id tournament := tournament]> (tournaments s)))
        end
    end.

(** [startTournament(tournamentId)]; [now] is the value of [new Date()]. *)
Definition startTournament (s : TournamentSystem) (tournamentId : string)
    (now : nat) : outcome (Tournament * TournamentSystem) :=
  match tournaments s !! tournamentId with
  | None => Throw "Tournament not found"
  | Some tournament =>
      let tournament := setStatus tournament InProgress in
      let tournament := setStartTime tournament (Some now) in
      let tournament := setCurrentRound tournament 1 in
      Ok (tournament,
          setTournaments s (<[tournamentId := tournament]> (tournaments s)))
  end.

(** The match objects of a tournament, each with its reference.  In a
    system built by the operations every reference of [tournament.matches]
    resolves; a reference that did not would be skipped here. *)
Definition matchesOf (s : TournamentSystem) (t : Tournament)
    : list (nat * Match) :=
  omap (λ ref, (λ m, (ref, m)) <$> matchObjs s !! ref) (t_matches t).

(** The inner function [updatePlayer] of [updatePlayerStats], on the
    player object at [ref]. *)
Definition updatePlayer (s : TournamentSystem) (ref : option nat)
    (won drew : bool) : TournamentSystem :=
  match ref ≫= λ r, playerObjs s !! r with
  | None => s
  | Some player =>
      match statsObjs s !! p_stats player with
      | None => s
      | Some st =>
          let st := mkStats (wins st) (losses st) (draws st)
                            (gamesPlayed st + 1) in
          let st :=
            if won then mkStats (wins st + 1) (losses st) (draws st)
                                (gamesPlayed st)
            else if drew then mkStats (wins st) (losses st) (draws st + 1)
                                      (gamesPlayed st)
            else mkStats (wins st) (losses st + 1) (draws st)
                         (gamesPlayed st) in
          setStatsObjs s (<[p_stats player := st]> (statsObjs s))
      end
  end.

Definition updatePlayerStats (s : TournamentSystem) (m : Match)
    : TournamentSystem :=
  match m_result m with
  | Player1 =>
      let s := updatePlayer s (m_player1 m) true false in
      updatePlayer s (m_player2 m) false false
  | Player2 =>
      let s := updatePlayer s (m_player1 m) false false in
      updatePlayer s (m_player2 m) true false
  | Draw =>
      let s := updatePlayer s (m_player1 m) false true in
      updatePlayer s (m_player2 m) false true
  | Pending => s
  end.

(** [player.elo = v] on the player object at [ref]. *)
Definition setElo (s : TournamentSystem) (ref : option nat) (v : Elo)
    : TournamentSystem :=
  match ref with
  | Some r =>
      match playerObjs s !! r with
      | Some player =>
          setPlayerObjs s
            (<[r := mkTournamentPlayer (p_id player) (p_name player)
                      (p_type player) (p_difficulty player) (p_stats player) v]>
               (playerObjs s))
      | None => s
      end
  | None => s
  end.

Definition updateELORatings (s : TournamentSystem) (m : Match)
    : TournamentSystem :=
  match m_result m with
  | Pending => s
  | result =>
      match m_player1 m ≫= λ r, playerObjs s !! r,
            m_player2 m ≫= λ r, playerObjs s !! r with
      | Some player1, Some player2 =>
          let player1Elo := p_elo player1 in
          let player2Elo := p_elo player2 in
          let '(actualScore1, actualScore2) :=
            match result with
            | Player1 => (ActualWin, ActualLoss)
            | Player2 => (ActualLoss, ActualWin)
            | _ => (ActualDraw, ActualDraw)
            end in
          let s := setElo s (m_player1 m)
                     (Rerated player1Elo player2Elo actualScore1) in
          setElo s (m_player2 m) (Rerated player2Elo player1Elo actualScore2)
      | _, _ => s
      end
  end.

Definition isPending (m : Match) : bool :=
  bool_decide (m_result m = Pending).

Definition inRound (roundNumber : Z) (m : Match) : bool :=
  bool_decide (m_roundNumber m = roundNumber).

Definition isTournamentComplete (s : TournamentSystem) (t : Tournament)
    : bool :=
  let finalRoundMatches :=
    List.filter (λ rm, inRound (t_totalRounds t) rm.2) (matchesOf s t) in
  if bool_decide (length finalRoundMatches = 0%nat) then false
  else forallb (λ rm, negb (isPending rm.2)) finalRoundMatches.

(** [completeTournament(tournament)] *)
Definition completeTournament (s : TournamentSystem) (t : Tournament)
    (now : nat) : Tournament :=
  let t := setStatus t Completed in
  let t := setEndTime t (Some now) in
  match t_type t with
  | SingleElimination =>
      let finalMatch :=
        List.find (λ rm, inRound (t_totalRounds t) rm.2 && negb (isPending rm.2))
                  (matchesOf s t) in
      match finalMatch with
      | Some (_, m) =>
          setWinner t (if decide (m_result m = Player1) then m_player1 m
                       else m_player2 m)
      | None => t
      end
  | _ => t
  end.

(** The loop that creates the matches of the next round. *)
Fixpoint pairWinners (rng : Random) (s : TournamentSystem) (t : Tournament)
    (winners : list (option nat)) : Tournament * TournamentSystem :=
  match winners with
  | winner1 :: winner2 :: rest =>
      let '(_, t, s) := pushMatch rng s t winner1 winner2 (t_currentRound t) in
      pairWinners rng s t rest
  | _ => (t, s)
  end.

Definition advanceSingleElimination (rng : Random) (s : TournamentSystem)
    (t : Tournament) : Tournament * TournamentSystem :=
  let currentRoundMatches :=
    List.filter (λ rm, inRound (t_currentRound t) rm.2 && negb (isPending rm.2))
                (matchesOf s t) in
  if bool_decide (length currentRoundMatches = 0%nat) then (t, s)
  else
    let allCurrentRoundMatches :=
      List.filter (λ rm, inRound (t_currentRound t) rm.2) (matchesOf s t) in
    if bool_decide (length currentRoundMatches < length allCurrentRoundMatches)%nat
    then (t, s)
    else if bool_decide (t_currentRound t < t_totalRounds t) then
      let t := setCurrentRound t (t_currentRound t + 1) in
      let winners :=
        (λ rm : nat * Match,
           match m_result rm.2 with
           | Player1 => m_player1 rm.2
           | Player2 => m_player2 rm.2
           | _ => m_player1 rm.2
           end) <$> currentRoundMatches in
      pairWinners rng s t winners
    else (t, s).

Definition advanceTournament (rng : Random) (s : TournamentSystem)
    (t : Tournament) : Tournament * TournamentSystem :=
  match t_type t with
  | SingleElimination => advanceSingleElimination rng s t
  | _ => (t, s)
  end.

(** [reportMatchResult(tournamentId, matchId, result)]; [now] is the value
    of [new Date()]. *)
Definition reportMatchResult (rng : Random) (s : TournamentSystem)
    (tournamentId matchId : string) (result : MatchResult) (now : nat)
    : outcome TournamentSystem :=
  match tournaments s !! tournamentId with
  | None => Throw "Tournament not found"
  | Some tournament =>
      match List.find (λ rm : nat * Match, bool_decide (m_id rm.2 = matchId))
                      (matchesOf s tournament) with
      | None => Throw "Match not found"
      | Some (ref, m) =>
          let m := mkMatch (m_id m) (m_player1 m) (m_player2 m) result
                           (m_roundNumber m) (m_startTime m) (Some now)
                           (m_moves m) in
          let s := setMatchObjs s (<[ref := m]> (matchObjs s)) in
          let s := updatePlayerStats s m in
          let s := updateELORatings s m in
          let '(tournament, s) :=
            if isTournamentComplete s tournament
            then (completeTournament s tournament now, s)
            else advanceTournament rng s tournament in
          Ok (setTournaments s (<[tournamentId := tournament]> (tournaments s)))
      end
  end.

(** [getNextMatches(tournamentId)] *)
Definition getNextMatches (s : TournamentSystem) (tournamentId : string)
    : outcome (list Match) :=
  match tournaments s !! tournamentId with
  | None => Throw "Tournament not found"
  | Some tournament =>
      Ok (snd <$> List.filter (λ rm, isPending rm.2) (matchesOf s tournament))
  end.

(** [getTournament(tournamentId)] *)
Definition getTournament (s : TournamentSystem) (tournamentId : string)
    : option Tournament :=
  tournaments s !! tournamentId.

End Tournament.

(** * Definitions used in the statements *)

Import AI.
Import Tournament.

(** ** The order on scores *)

Definition le_num (a b : num) : Prop :=
  match a, b with
  | NegInf, _ => True
  | _, PosInf => True
  | Fin x, Fin y => x ≤ y
  | _, _ => False
  end.

Definition lt_num (a b : num) : Prop := ¬ le_num b a.

(** ** Search loops over an abstract list of children

    [mm x] is the plain value of child [x] and [ab x alpha beta] its value
    as computed inside the window [(alpha, beta)]. *)

(** What a search inside the window [(alpha, beta)] promises about its
    result [w] with respect to the plain value [v]: exact inside the
    window, a bound on the right side outside of it. *)
Definition within (alpha beta v w : num) : Prop :=
  (le_num w alpha → le_num v w)
  ∧ (le_num beta w → le_num w v)
  ∧ (lt_num alpha w → lt_num w beta → le_num v w ∧ le_num w v).

Definition agrees {A : Type} (mm : A → option num)
    (ab : A → num → num → option num) (x : A) : Prop :=
  ∀ alpha beta, lt_num alpha beta →
    ∃ v w, mm x = Some v ∧ ab x alpha beta = Some w ∧ within alpha beta v w.

(** The bodies of the four loops of [minimax] and [minimaxAlphaBeta]. *)
Definition plain_max {A : Type} (mm : A → option num) (bestScore : num)
    (x : A) : option (ctl num) :=
  score ← mm x; Some (Continue (nmax score bestScore)).

Definition plain_min {A : Type} (mm : A → option num) (bestScore : num)
    (x : A) : option (ctl num) :=
  score ← mm x; Some (Continue (nmin score bestScore)).

Definition pruned_max {A : Type} (ab : A → num → num → option num)
    (beta : num) (st : num * num) (x : A) : option (ctl (num * num)) :=
  let '(maxEval, alpha) := st in
  evaluation ← ab x alpha beta;
  let maxEval := nmax maxEval evaluation in
  let alpha := nmax alpha evaluation in
  if nle beta alpha then Some (Break (maxEval, alpha))
  else Some (Continue (maxEval, alpha)).

Definition pruned_min {A : Type} (ab : A → num → num → option num)
    (alpha : num) (st : num * num) (x : A) : option (ctl (num * num)) :=
  let '(minEval, beta) := st in
  evaluation ← ab x alpha beta;
  let minEval := nmin minEval evaluation in
  let beta := nmin beta evaluation in
  if nle beta alpha then Some (Break (minEval, beta))
  else Some (Continue (minEval, beta)).

(** A finite score between [lo] and [hi]. *)
Definition bounded (lo hi : Z) (v : num) : Prop :=
  ∃ z, v = Fin z ∧ lo ≤ z ≤ hi.

(** The body of the selection loop. *)
Definition select_body (scoreOf : Position → option num)
    (st : option Position * num) (move : Position)
    : option (ctl (option Position * num)) :=
  let '(bestMove, bestScore) := st in
  score ← scoreOf move;
  if ngt score bestScore then Some (Continue (Some move, score))
  else Some (Continue (bestMove, bestScore)).

(** ** The scores of the candidate moves *)

Definition hardScore (ai : AdvancedAIPlayer) (board : BoardState)
    (move : Position) : option num :=
  minimax searchFuel ai (makeMove board move (player ai)) 0 false.

Definition expertScore (ai : AdvancedAIPlayer) (board : BoardState)
    (move : Position) : option num :=
  minimaxAlphaBeta searchFuel ai (makeMove board move (player ai)) 0
    NegInf PosInf false.

Definition impossibleScore (ai : AdvancedAIPlayer) (board : BoardState)
    (move : Position) : option num :=
  score ← expertScore ai board move;
  Some (nadd score (getPositionalScore move)).

(** The move completes a line for the engine's player. *)
Definition winning (ai : AdvancedAIPlayer) (board : BoardState)
    (move : Position) : bool :=
  checkWin (makeMove board move (player ai)) (player ai).

(** The move has a position, and it is one of the board's empty cells. *)
Definition legal (board : BoardState) (move : AIMove) : Prop :=
  ∃ pos, position move = Some pos ∧ pos ∈ getAvailableMoves board.

(** ** Sample data for the decision engine *)

(** X to move; the edge move (1,2) completes the right column. *)
Definition sampleBoard : BoardState :=
  [[None; Some O; Some X]; [None; None; None]; [None; Some O; Some X]].

(** A board on which X has already completed the top row. *)
Definition wonBoard : BoardState :=
  [[Some X; Some X; Some X]; [None; None; None]; [Some O; Some O; None]].

Definition firstIndex : nat → nat := λ _, 0%nat.

Definition reinforcedEngine : AdvancedAIPlayer :=
  {| difficulty := Impossible; player := X; opponent := O;
     moveHistory := [];
     patternMemory := {[ boardToPattern sampleBoard := 6 ]} |}.

(** [k] successive calls of [getBestMove] on the same board: the positions
    returned and the engine after the last call. *)
Fixpoint askRepeatedly (k : nat) (ai : AdvancedAIPlayer) (board : BoardState)
    : list (option Position) * AdvancedAIPlayer :=
  match k with
  | 0%nat => ([], ai)
  | S k' =>
      match getBestMove searchFuel firstIndex ai board with
      | Ok (move, ai') =>
          let '(rest, final) := askRepeatedly k' ai' board in
          (position move :: rest, final)
      | _ => ([], ai)
      end
  end.

(** ** Invariants and frames of the tournament system *)

(** Every match object has two players. *)
Definition matchInv (s : TournamentSystem) : Prop :=
  ∀ r m, matchObjs s !! r = Some m →
         is_Some (m_player1 m) ∧ is_Some (m_player2 m).

(** What the winner field may hold for a given format and status. *)
Definition winnerInv (t : Tournament) : Prop :=
  (is_Some (t_winner t) → t_type t = SingleElimination)
  ∧ (t_type t = SingleElimination → t_status t = Completed →
     is_Some (t_winner t)).

Definition systemInv (s : TournamentSystem) : Prop :=
  matchInv s ∧ ∀ id t, tournaments s !! id = Some t → winnerInv t.

(** [t'] differs from [t] at most in its matches, bracket and current
    round. *)
Definition sameCore (t t' : Tournament) : Prop :=
  t_id t' = t_id t ∧ t_type t' = t_type t ∧ t_status t' = t_status t
  ∧ t_winner t' = t_winner t ∧ t_totalRounds t' = t_totalRounds t.

(** A step that only creates match objects with two players. *)
Definition grows (s s' : TournamentSystem) : Prop :=
  tournaments s' = tournaments s
  ∧ playerDatabase s' = playerDatabase s
  ∧ playerObjs s' = playerObjs s
  ∧ statsObjs s' = statsObjs s
  ∧ (∀ r m, matchObjs s !! r = Some m → matchObjs s' !! r = Some m)
  ∧ (matchInv s → matchInv s').


(** The state after the match object has been written and the statistics
    and ratings have been updated. *)
Definition recorded (s : TournamentSystem) (ref : nat) (m : Match)
    (result : MatchResult) (now : nat) : TournamentSystem :=
  let m' := mkMatch (m_id m) (m_player1 m) (m_player2 m) result
                    (m_roundNumber m) (m_startTime m) (Some now) (m_moves m) in
  updateELORatings
    (updatePlayerStats (setMatchObjs s (<[ref := m']> (matchObjs s))) m') m'.

(** [updatePlayer] on the statistics [st]. *)
Definition bump (st : Stats) (won drew : bool) : Stats :=
  if won then mkStats (wins st + 1) (losses st) (draws st) (gamesPlayed st + 1)
  else if drew then mkStats (wins st) (losses st) (draws st + 1)
                            (gamesPlayed st + 1)
  else mkStats (wins st) (losses st + 1) (draws st) (gamesPlayed st + 1).

(** The registry resolves [id] to a player object with the fields of
    [player]. *)
Definition registered (s : TournamentSystem) (id : string)
    (player : TournamentPlayer) : Prop :=
  ∃ ref, playerDatabase s !! id = Some ref ∧ playerObjs s !! ref = Some player.

(** The systems that the public operations can produce. *)
Inductive reachable (rng : Random) : TournamentSystem → Prop :=
  | reachable_new : reachable rng Tournament.new
  | reachable_addHumanPlayer s name :
      reachable rng s → reachable rng (addHumanPlayer rng s name).2
  | reachable_createTournament s name type playerIds t s' :
      reachable rng s →
      createTournament rng s name type playerIds = Ok (t, s') →
      reachable rng s'
  | reachable_startTournament s tournamentId now t s' :
      reachable rng s →
      startTournament s tournamentId now = Ok (t, s') →
      reachable rng s'
  | reachable_reportMatchResult s tournamentId matchId result now s' :
      reachable rng s →
      reportMatchResult rng s tournamentId matchId result now = Ok s' →
      reachable rng s'.

(** The run of a single elimination between four players: creation,
    start, the two first-round matches reported as won by their first
    player, and the final reported as [final]. *)
Definition fourPlayerRun (rng : Random) (s : TournamentSystem)
    (name i1 i2 i3 i4 : string) (p1 p2 p3 p4 : TournamentPlayer)
    (now1 now2 now3 now4 : nat) (final : MatchResult) : Prop :=
  ∃ t s1 a b ma mb c1 c2 c3 c4,
    createTournament rng s name SingleElimination [i1; i2; i3; i4] = Ok (t, s1)
    ∧ t_totalRounds t = 2
    ∧ matchesOf s1 t = [(a, ma); (b, mb)]
    ∧ rounds (t_bracket t) = [[a; b]; []]
    ∧ m_roundNumber ma = 1 ∧ m_roundNumber mb = 1
    ∧ t_players t = [c1; c2; c3; c4]
    ∧ playerObjs s1 !! c1 = Some p1 ∧ playerObjs s1 !! c2 = Some p2
    ∧ playerObjs s1 !! c3 = Some p3 ∧ playerObjs s1 !! c4 = Some p4
    ∧ m_player1 ma = Some c1 ∧ m_player2 ma = Some c2
    ∧ m_player1 mb = Some c3 ∧ m_player2 mb = Some c4
    ∧ ∃ t' s2,
        startTournament s1 (t_id t) now1 = Ok (t', s2)
        ∧ ∃ s3 s4,
            reportMatchResult rng s2 (t_id t) (m_id ma) Player1 now2 = Ok s3
            ∧ reportMatchResult rng s3 (t_id t) (m_id mb) Player1 now3 = Ok s4
            ∧ ∃ t4 c mc,
                tournaments s4 !! t_id t = Some t4
                ∧ List.filter (λ rm, inRound 2 rm.2) (matchesOf s4 t4)
                  = [(c, mc)]
                ∧ m_player1 mc = m_player1 ma
                ∧ m_player2 mc = m_player1 mb
                ∧ m_result mc = Pending
                ∧ ∃ s5 t5,
                    reportMatchResult rng s4 (t_id t) (m_id mc) final now4
                    = Ok s5
                    ∧ tournaments s5 !! t_id t = Some t5
                    ∧ t_status t5 = Completed
                    ∧ t_winner t5
                      = (if decide (final = Player1) then m_player1 mc
                         else m_player2 mc).

(** ** Sample runs of the tournament system *)

Definition sampleRandom : Random :=
  mkRandom (λ k, nth k ["t4k2m9a"; "m7q1x0c"; "m2b8r5d"; "m9z3w6e"; "h5v0n1f"]
                       "zzzzzzz")
           (λ _ _, 0%nat).

(** The state component of an outcome, or [d] when there is none. *)
Definition stateOr {A : Type} (d : TournamentSystem)
    (r : outcome (A * TournamentSystem)) : TournamentSystem :=
  match r with
  | Ok (_, s) => s
  | _ => d
  end.

Definition afterReport (d : TournamentSystem) (r : outcome TournamentSystem)
    : TournamentSystem :=
  match r with
  | Ok s => s
  | _ => d
  end.

(** A round robin between two registered players, its only match reported
    once, then a second time. *)
Definition leagueCreated : TournamentSystem :=
  stateOr Tournament.new
    (createTournament sampleRandom Tournament.new "league" RoundRobin
       ["ai_easy"; "ai_medium"]).

Definition leagueReported : TournamentSystem :=
  afterReport leagueCreated
    (reportMatchResult sampleRandom leagueCreated "t4k2m9a" "m7q1x0c"
       Player1 1).


(** The objects of the league after its match has been reported once. *)
Definition leagueTournament : Tournament :=
  {| t_id := "t4k2m9a"; t_name := "league"; t_type := RoundRobin;
     t_status := Completed; t_players := [5; 6]%nat; t_matches := [0%nat];
     t_bracket := mkBracket [[0%nat]] None None;
     t_currentRound := 0; t_totalRounds := 1; t_winner := None;
     t_startTime := None; t_endTime := Some 1%nat |}.




(** A single elimination between two registered players, played to the
    end and then started once more. *)
Definition duelCreated : TournamentSystem :=
  stateOr Tournament.new
    (createTournament sampleRandom Tournament.new "duel" SingleElimination
       ["ai_hard"; "ai_expert"]).

Definition duelStarted : TournamentSystem :=
  stateOr duelCreated (startTournament duelCreated "t4k2m9a" 1).

Definition duelReported : TournamentSystem :=
  afterReport duelStarted
    (reportMatchResult sampleRandom duelStarted "t4k2m9a" "m7q1x0c" Player1 2).

Definition duelRestarted : TournamentSystem :=
  stateOr duelReported (startTournament duelReported "t4k2m9a" 3).

(** The tournament object of the duel after its match has been reported. *)
Definition duelTournament : Tournament :=
  {| t_id := "t4k2m9a"; t_name := "duel"; t_type := SingleElimination;
     t_status := Completed; t_players := [5; 6]%nat; t_matches := [0%nat];
     t_bracket := mkBracket [[0%nat]] None None;
     t_currentRound := 1; t_totalRounds := 1; t_winner := Some 5%nat;
     t_startTime := Some 1%nat; t_endTime := Some 2%nat |}.

(** A single elimination between four registered players whose first-round
    matches are reported without the tournament having been started. *)
Definition cupCreated : TournamentSystem :=
  stateOr Tournament.new
    (createTournament sampleRandom Tournament.new "cup" SingleElimination
       ["ai_easy"; "ai_medium"; "ai_hard"; "ai_expert"]).

Definition cupReportedOnce : TournamentSystem :=
  afterReport cupCreated
    (reportMatchResult sampleRandom cupCreated "t4k2m9a" "m7q1x0c" Player1 1).

Definition cupReportedTwice : TournamentSystem :=
  afterReport cupReportedOnce
    (reportMatchResult sampleRandom cupReportedOnce "t4k2m9a" "m2b8r5d"
       Player1 2).

(** The registry entries of the four players as the constructor leaves
    them. *)
Definition registryPlayer (index : nat) (difficulty : AI.Difficulty)
    : TournamentPlayer :=
  {| p_id := "ai_" +:+ difficultyLower difficulty;
     p_name := "AI " +:+ difficultyName difficulty;
     p_type := AIPlayer;
     p_difficulty := Some difficulty;
     p_stats := index;
     p_elo := Rating (1200 + Z.of_nat index * 200) |}.

(** * Further definitions used in the statements *)

(** ** Steps that create matches *)

(** The two players and the round of a match to be created. *)
Abbreviation MatchSpec := (option nat * option nat * Z)%type.

(** [t'] is [t] up to its matches and its bracket. *)
Definition sameEntry (t t' : Tournament) : Prop :=
  t_id t' = t_id t ∧ t_name t' = t_name t ∧ t_type t' = t_type t
  ∧ t_status t' = t_status t ∧ t_players t' = t_players t
  ∧ t_currentRound t' = t_currentRound t
  ∧ t_totalRounds t' = t_totalRounds t ∧ t_winner t' = t_winner t
  ∧ t_startTime t' = t_startTime t ∧ t_endTime t' = t_endTime t.

(** The system is as before up to new match objects and the random
    numbers drawn. *)
Definition sameButMatches (s s' : TournamentSystem) : Prop :=
  tournaments s' = tournaments s ∧ playerDatabase s' = playerDatabase s
  ∧ matchHistory s' = matchHistory s ∧ playerObjs s' = playerObjs s
  ∧ statsObjs s' = statsObjs s
  ∧ ∀ r m, matchObjs s !! r = Some m → matchObjs s' !! r = Some m.

(** [ref] is a match object created by the step from [s] to [s'], pending
    and as [spec] describes. *)
Definition created (s s' : TournamentSystem) (ref : nat) (spec : MatchSpec)
    : Prop :=
  matchObjs s !! ref = None
  ∧ ∃ id, matchObjs s' !! ref
          = Some (pendingMatch id spec.1.1 spec.1.2 spec.2).

(** The step from [(s, t)] to [(s', t')] has created the matches [refs],
    described by [specs], pushed them on the tournament's matches in this
    order, and changed nothing else but the bracket. *)
Definition pushed (s : TournamentSystem) (t : Tournament)
    (s' : TournamentSystem) (t' : Tournament) (refs : list nat)
    (specs : list MatchSpec) : Prop :=
  sameButMatches s s' ∧ sameEntry t t'
  ∧ t_matches t' = t_matches t ++ refs
  ∧ Forall2 (created s s') refs specs.

(** The matches that the pairing loop of the elimination bracket creates
    for the slots [players]. *)
Fixpoint slotSpecs (players : list (option nat)) (roundNumber : Z)
    : list MatchSpec :=
  match players with
  | Some player1 :: Some player2 :: rest =>
      (Some player1, Some player2, roundNumber) :: slotSpecs rest roundNumber
  | _ :: _ :: rest => slotSpecs rest roundNumber
  | _ => []
  end.

(** The first with the second, the third with the fourth, and so on; an
    odd element out is dropped. *)
Fixpoint consecutivePairs {A : Type} (l : list A) : list (A * A) :=
  match l with
  | x :: y :: rest => (x, y) :: consecutivePairs rest
  | _ => []
  end.

(** Every element with every later one. *)
Fixpoint allPairs {A : Type} (l : list A) : list (A * A) :=
  match l with
  | [] => []
  | x :: rest => ((λ y, (x, y)) <$> rest) ++ allPairs rest
  end.

(** A first-round match between two players. *)
Definition firstRound (pair : nat * nat) : MatchSpec :=
  (Some pair.1, Some pair.2, 1).

(** [m] is a pending first-round match between the two players of
    [pair]. *)
Definition pendingBetween (m : Match) (pair : nat * nat) : Prop :=
  m_player1 m = Some pair.1 ∧ m_player2 m = Some pair.2
  ∧ m_result m = Pending ∧ m_roundNumber m = 1.

(** The value of an outcome, or [d] when there is none. *)
Definition valueOr {A : Type} (d : A) (r : outcome A) : A :=
  match r with
  | Ok a => a
  | _ => d
  end.

(** Three registered players in a round robin, in a single elimination and
    in a Swiss tournament. *)
Definition trioIds : list string := ["ai_easy"; "ai_medium"; "ai_hard"].

Definition noTournament : Tournament :=
  mkTournament "" "" RoundRobin Setup [] [] (mkBracket [] None None) 0 0
               None None None.

Definition trioOf (type : Format) : Tournament * TournamentSystem :=
  valueOr (noTournament, Tournament.new)
    (createTournament sampleRandom Tournament.new "trio" type trioIds).

(** *** What [reportMatchResult] does to the system *)

(** [player] with the rating [v]. *)
Definition withElo (player : TournamentPlayer) (v : Elo) : TournamentPlayer :=
  mkTournamentPlayer (p_id player) (p_name player) (p_type player)
                     (p_difficulty player) (p_stats player) v.

(** Two player objects that differ at most in their rating. *)
Definition samePlayer (player player' : TournamentPlayer) : Prop :=
  p_id player' = p_id player ∧ p_name player' = p_name player
  ∧ p_type player' = p_type player
  ∧ p_difficulty player' = p_difficulty player
  ∧ p_stats player' = p_stats player.

(** The statistics add up. *)
Definition statsInv (st : Stats) : Prop :=
  0 ≤ wins st ∧ 0 ≤ losses st ∧ 0 ≤ draws st
  ∧ gamesPlayed st = wins st + losses st + draws st.

(** The matches that the loop over the winners creates. *)
Fixpoint winnerSpecs (winners : list (option nat)) (roundNumber : Z)
    : list MatchSpec :=
  match winners with
  | winner1 :: winner2 :: rest =>
      (winner1, winner2, roundNumber) :: winnerSpecs rest roundNumber
  | _ => []
  end.

(** [t'] is [t] up to its matches, its bracket and its current round. *)
Definition sameSetup (t t' : Tournament) : Prop :=
  t_id t' = t_id t ∧ t_name t' = t_name t ∧ t_type t' = t_type t
  ∧ t_status t' = t_status t ∧ t_players t' = t_players t
  ∧ t_totalRounds t' = t_totalRounds t ∧ t_winner t' = t_winner t
  ∧ t_startTime t' = t_startTime t ∧ t_endTime t' = t_endTime t.

(** *** Invariants of the registry and of the statistics *)

(** Every registered identifier resolves to a player object, and the
    [stats] field of that object to a statistics object. *)
Definition registryInv (s : TournamentSystem) : Prop :=
  ∀ id ref, playerDatabase s !! id = Some ref →
    ∃ player st, playerObjs s !! ref = Some player
                 ∧ statsObjs s !! p_stats player = Some st.

Definition coreInv (s : TournamentSystem) : Prop :=
  (∀ r st, statsObjs s !! r = Some st → statsInv st)
  ∧ registryInv s
  ∧ matchHistory s = [].

(** A board without an empty cell and without a completed line. *)
Definition fullBoard : BoardState :=
  [[Some X; Some O; Some X]; [Some X; Some O; Some O]; [Some O; Some X; Some X]].

(** How the winner and the status of a tournament go with its end time,
    the one field that records that the tournament has been completed. *)
Definition lifecycleInv (t : Tournament) : Prop :=
  (is_Some (t_winner t) ↔
   t_type t = SingleElimination ∧ is_Some (t_endTime t))
  ∧ (t_status t = Completed → is_Some (t_endTime t))
  ∧ (is_Some (t_endTime t) →
     t_status t = Completed ∨ t_status t = InProgress)
  ∧ (t_status t = InProgress → is_Some (t_startTime t)).

(** The tournament object of the duel after it has been started again. *)
Definition duelRestartedTournament : Tournament :=
  {| t_id := "t4k2m9a"; t_name := "duel"; t_type := SingleElimination;
     t_status := InProgress; t_players := [5; 6]%nat; t_matches := [0%nat];
     t_bracket := mkBracket [[0%nat]] None None;
     t_currentRound := 1; t_totalRounds := 1; t_winner := Some 5%nat;
     t_startTime := Some 3%nat; t_endTime := Some 2%nat |}.






(** The opponent's reply [reply] to the move [move] completes a line. *)
Definition loses (ai : AdvancedAIPlayer) (board : BoardState)
    (move reply : Position) : bool :=
  checkWin (makeMove (makeMove board move (player ai)) reply (opponent ai))
           (opponent ai).

(** A position in which X threatens to complete the top row; O to move. *)
Definition threatBoard : BoardState :=
  [[Some X; Some X; None]; [None; Some O; None]; [None; None; None]].

(** The four corners, in the order of the source. *)
Definition cornerCells : list Position :=
  [mkPosition 0 0; mkPosition 0 2; mkPosition 2 0; mkPosition 2 2].

(** A board on which neither side can complete a line at once. *)
Definition quietBoard : BoardState :=
  [[None; None; None]; [None; Some X; None]; [None; None; None]].

(** *** Boards and moves *)

(** The nine cells in row-major order. *)
Definition allCells : list Position :=
  [mkPosition 0 0; mkPosition 0 1; mkPosition 0 2;
   mkPosition 1 0; mkPosition 1 1; mkPosition 1 2;
   mkPosition 2 0; mkPosition 2 1; mkPosition 2 2].

(** The first identifier of [playerIds] that the registry does not know. *)
Definition firstUnknown (s : TournamentSystem) (playerIds : list string)
    : option string :=
  List.find (λ id, bool_decide (playerDatabase s !! id = None)) playerIds.

(** Every match of the tournament is a first-round match, the total
    number of rounds is the one computed for the format and the number of
    players, and the tournament is Completed only if that number is 1. *)
Definition firstRoundInv (s : TournamentSystem) (t : Tournament) : Prop :=
  (∀ ref, ref ∈ t_matches t →
          ∃ m, matchObjs s !! ref = Some m ∧ m_roundNumber m = 1)
  ∧ t_totalRounds t = calculateTotalRounds (t_type t) (length (t_players t))
  ∧ (t_status t = Completed → t_totalRounds t = 1).

(** ** [getPlayerAnalytics] *)

(** The win rate and the average rating of the opponents are computed in
    floating point; like the ratings they are kept as the expressions that
    the code evaluates: the literal [0], the quotient
    [wins / gamesPlayed], and
    [opponentELOs.reduce((a, b) => a + b, 0) / opponentELOs.length]. *)
Inductive WinRate : Type :=
  | NoGames
  | Quotient (wins gamesPlayed : Z).

Inductive AverageElo : Type :=
  | NoOpponents
  | MeanOf (opponentELOs : list Elo).

(** The object that [getPlayerAnalytics] returns; [a_player] is the
    reference to the player object of the registry, [a_recentMatches]
    holds references to match objects. *)
Record PlayerAnalytics : Type := mkPlayerAnalytics {
  a_player : nat;
  a_winRate : WinRate;
  a_averageOpponentELO : AverageElo;
  a_recentMatches : list nat;
  a_eloHistory : list (nat * Elo)
}.

(** A match of the history with its two player objects; [None] when a
    player is [null], where reading [player1.id] or [player2.elo] is a
    TypeError. *)
Definition historyEntry (s : TournamentSystem) (rm : nat * Match)
    : option (nat * TournamentPlayer * TournamentPlayer) :=
  match m_player1 rm.2 ≫= λ r, playerObjs s !! r,
        m_player2 rm.2 ≫= λ r, playerObjs s !! r with
  | Some player1, Some player2 => Some (rm.1, player1, player2)
  | _, _ => None
  end.

(** [array.slice(-n)] *)
Definition sliceLast {A : Type} (n : nat) (array : list A) : list A :=
  drop (length array - n) array.

(** [getPlayerAnalytics(playerId)].  A reference of the registry or of the
    history that does not resolve has no counterpart in the source: the
    former is treated like an unknown identifier, the latter is skipped. *)
Definition getPlayerAnalytics (s : TournamentSystem) (playerId : string)
    : outcome PlayerAnalytics :=
  match playerDatabase s !! playerId ≫= λ ref,
        playerObjs s !! ref ≫= λ player,
        statsObjs s !! p_stats player ≫= λ st, Some (ref, st) with
  | None => Throw "Player not found"
  | Some (ref, st) =>
      let history :=
        omap (λ r, (λ m, (r, m)) <$> matchObjs s !! r) (matchHistory s) in
      match mapM (historyEntry s) history with
      | None => Throw "TypeError"
      | Some entries =>
          let playerMatches :=
            List.filter
              (λ e : nat * TournamentPlayer * TournamentPlayer,
                 bool_decide (p_id e.1.2 = playerId)
                 || bool_decide (p_id e.2 = playerId)) entries in
          let winRate :=
            if bool_decide (0 < gamesPlayed st)
            then Quotient (wins st) (gamesPlayed st) else NoGames in
          let opponentELOs :=
            (λ e : nat * TournamentPlayer * TournamentPlayer,
               if bool_decide (p_id e.1.2 = playerId) then p_elo e.2
               else p_elo e.1.2) <$> playerMatches in
          let averageOpponentELO :=
            if bool_decide (0 < length opponentELOs)%nat
            then MeanOf opponentELOs else NoOpponents in
          Ok (mkPlayerAnalytics ref winRate averageOpponentELO
                (sliceLast 10 ((λ e, e.1.1) <$> playerMatches)) [])
      end
  end.

(** * Properties *)

(** ** The order on scores *)

Lemma nle_true (a b : num) : nle a b = true ↔ le_num a b.
Proof.
  destruct a, b; simpl; try tauto; try (split; [discriminate | tauto]).
  apply bool_decide_eq_true.
Qed.

Lemma nle_false (a b : num) : nle a b = false ↔ lt_num b a.
Proof.
  unfold lt_num. rewrite <- nle_true. destruct (nle a b); split; congruence.
Qed.

(** Case analysis on every score in sight, then linear arithmetic. *)
Ltac num_finish :=
  unfold nmax, nmin, ngt in *; simpl in *;
  repeat (case_bool_decide; simpl in * );
  first [ done | tauto | lia | f_equal; lia ].

Ltac num_split :=
  simpl in *;
  first [ done
        | lazymatch goal with
          | x : num |- _ => destruct x; num_split
          | _ => num_finish
          end ].

Ltac num_solve := unfold lt_num, nmax, nmin, ngt in *; num_split.

Lemma le_num_refl (a : num) : le_num a a.
Proof. num_solve. Qed.

Lemma le_num_trans (a b c : num) : le_num a b → le_num b c → le_num a c.
Proof. intros. num_solve. Qed.

Lemma le_num_antisym (a b : num) : le_num a b → le_num b a → a = b.
Proof.
  destruct a, b; simpl; try tauto. intros. f_equal. lia.
Qed.

Lemma nmax_le_l (a b : num) : le_num a (nmax a b).
Proof. num_solve. Qed.

Lemma nmax_le_r (a b : num) : le_num b (nmax a b).
Proof. num_solve. Qed.

Lemma nmin_le_l (a b : num) : le_num (nmin a b) a.
Proof. num_solve. Qed.

Lemma nmin_le_r (a b : num) : le_num (nmin a b) b.
Proof. num_solve. Qed.

Lemma nmax_assoc (a b c : num) : nmax (nmax a b) c = nmax a (nmax b c).
Proof. num_solve. Qed.

Lemma nmin_assoc (a b c : num) : nmin (nmin a b) c = nmin a (nmin b c).
Proof. num_solve. Qed.

Lemma nmax_mono (a b c d : num) :
  le_num a d → le_num c b → le_num (nmax a c) (nmax b d).
Proof. intros. num_solve. Qed.

Lemma nmin_mono (a b c d : num) :
  le_num a d → le_num c b → le_num (nmin a c) (nmin b d).
Proof. intros. num_solve. Qed.

Lemma nmax_absorb (a b : num) : le_num a b → nmax a b = b.
Proof. intros. num_solve. Qed.

Lemma nmin_absorb (a b : num) : le_num b a → nmin a b = b.
Proof. intros. num_solve. Qed.

Lemma lt_le_num (a b : num) : lt_num a b → le_num a b.
Proof. intros. num_solve. Qed.

Lemma le_lt_num_trans (a b c : num) : le_num a b → lt_num b c → lt_num a c.
Proof. intros. num_solve. Qed.

Lemma lt_le_num_trans (a b c : num) : lt_num a b → le_num b c → lt_num a c.
Proof. intros. num_solve. Qed.

Lemma nmax_lt (a b c : num) : lt_num (nmax a b) c → lt_num a c ∧ lt_num b c.
Proof. intros. split; num_solve. Qed.

Lemma nmin_gt (a b c : num) : lt_num c (nmin a b) → lt_num c a ∧ lt_num c b.
Proof. intros. split; num_solve. Qed.

Lemma nmax_ge_cut (a e beta : num) :
  lt_num a beta → le_num beta (nmax a e) → le_num beta e.
Proof. intros. num_solve. Qed.

Lemma nmin_le_cut (b e alpha : num) :
  lt_num alpha b → le_num (nmin b e) alpha → le_num e alpha.
Proof. intros. num_solve. Qed.

(** ** Pruning over an abstract list of children *)

Section Pruning.
Context {A : Type}.
Variable mm : A → option num.
Variable ab : A → num → num → option num.

Lemma plain_max_some (xs : list A) :
  Forall (agrees mm ab) xs →
  ∀ best, ∃ v, for_of xs (plain_max mm) best = Some v ∧ le_num best v.
Proof.
  induction 1 as [|x xs Hx _ IH]; intros best; simpl.
  - exists best. split; [done | apply le_num_refl].
  - destruct (Hx NegInf PosInf) as (vx & w & Hm & _); [cbv; tauto|].
    unfold plain_max at 1. rewrite Hm. simpl.
    destruct (IH (nmax vx best)) as (v & Hv & Hle).
    exists v. split; [done|].
    eapply le_num_trans; [apply nmax_le_r | exact Hle].
Qed.

Lemma plain_min_some (xs : list A) :
  Forall (agrees mm ab) xs →
  ∀ best, ∃ v, for_of xs (plain_min mm) best = Some v ∧ le_num v best.
Proof.
  induction 1 as [|x xs Hx _ IH]; intros best; simpl.
  - exists best. split; [done | apply le_num_refl].
  - destruct (Hx NegInf PosInf) as (vx & w & Hm & _); [cbv; tauto|].
    unfold plain_min at 1. rewrite Hm. simpl.
    destruct (IH (nmin vx best)) as (v & Hv & Hle).
    exists v. split; [done|].
    eapply le_num_trans; [exact Hle | apply nmin_le_r].
Qed.

(** A result inside the window is exact; one at or below the lower bound
    bounds the plain value from above. *)
Lemma within_upper (a beta vc e : num) :
  within a beta vc e → lt_num e beta →
  le_num vc e ∧ (lt_num a e → le_num e vc).
Proof. unfold within. intros. split; num_solve. Qed.

Lemma within_lower (alpha b vc e : num) :
  within alpha b vc e → lt_num alpha e →
  le_num e vc ∧ (lt_num e b → le_num vc e).
Proof. unfold within. intros. split; num_solve. Qed.

Lemma within_cut_high (alpha a beta e v : num) :
  le_num alpha a → lt_num a beta → le_num beta e → le_num e v →
  within alpha beta v e.
Proof. unfold within. intros. num_solve. Qed.

Lemma within_cut_low (alpha b beta e v : num) :
  le_num b beta → lt_num alpha b → le_num e alpha → le_num v e →
  within alpha beta v e.
Proof. unfold within. intros. num_solve. Qed.

Lemma max_step_exact (alpha m e vb vc : num) :
  (lt_num alpha m → le_num m vb) →
  (lt_num (nmax alpha m) e → le_num e vc) →
  lt_num alpha (nmax m e) → le_num (nmax m e) (nmax vc vb).
Proof. intros. num_solve. Qed.

Lemma min_step_exact (beta m e vb vc : num) :
  (lt_num m beta → le_num vb m) →
  (lt_num e (nmin beta m) → le_num vc e) →
  lt_num (nmin m e) beta → le_num (nmin vc vb) (nmin m e).
Proof. intros. num_solve. Qed.

Lemma max_done (alpha beta m vb : num) :
  lt_num (nmax alpha m) beta → le_num vb m →
  (lt_num alpha m → le_num m vb) → within alpha beta vb m.
Proof. unfold within. intros. num_solve. Qed.

Lemma min_done (alpha beta m vb : num) :
  lt_num alpha (nmin beta m) → le_num m vb →
  (lt_num m beta → le_num vb m) → within alpha beta vb m.
Proof. unfold within. intros. num_solve. Qed.

(** The maximizing loop.  [m] is [maxEval], [a] the running [alpha] and
    [vb] the running [bestScore] of the plain loop. *)
Lemma pruned_max_within (xs : list A) (alpha beta : num) :
  Forall (agrees mm ab) xs →
  ∀ m a vb,
    lt_num a beta →
    a = nmax alpha m →
    le_num vb m →
    (lt_num alpha m → le_num m vb) →
    ∃ v w a',
      for_of xs (plain_max mm) vb = Some v
      ∧ for_of xs (pruned_max ab beta) (m, a) = Some (w, a')
      ∧ within alpha beta v w.
Proof.
  induction 1 as [|x xs Hx Hxs IH]; intros m a vb Hab Ha H1 H2.
  - exists vb, m, a. subst a.
    split; [done|]. split; [done|]. by apply max_done.
  - destruct (Hx a beta Hab) as (vc & e & Hm & He & Hw).
    simpl. unfold plain_max at 1, pruned_max at 1.
    rewrite Hm, He. simpl.
    destruct (nle beta (nmax a e)) eqn:Hbrk.
    + destruct (plain_max_some xs Hxs (nmax vc vb)) as (v & Hv & Hle).
      exists v, (nmax m e), (nmax a e).
      split; [done|]. split; [done|].
      apply nle_true in Hbrk.
      pose proof (nmax_ge_cut _ _ _ Hab Hbrk) as Hbe.
      assert (le_num m a) as Hma by (subst a; apply nmax_le_r).
      rewrite nmax_absorb.
      2:{ eapply le_num_trans; [exact Hma|].
          eapply le_num_trans; [apply lt_le_num, Hab | exact Hbe]. }
      apply within_cut_high with (a := a); try done.
      * subst a. apply nmax_le_l.
      * destruct Hw as (_ & Hhi & _).
        eapply le_num_trans; [apply (Hhi Hbe)|].
        eapply le_num_trans; [apply nmax_le_l | exact Hle].
    + apply nle_false in Hbrk.
      destruct (nmax_lt _ _ _ Hbrk) as [_ Heb].
      destruct (within_upper _ _ _ _ Hw Heb) as [Hce Hec].
      apply (IH (nmax m e) (nmax a e) (nmax vc vb)).
      * exact Hbrk.
      * subst a. apply nmax_assoc.
      * by apply nmax_mono.
      * subst a. by apply max_step_exact.
Qed.

(** The minimizing loop, symmetrically: [b] is the running [beta]. *)
Lemma pruned_min_within (xs : list A) (alpha beta : num) :
  Forall (agrees mm ab) xs →
  ∀ m b vb,
    lt_num alpha b →
    b = nmin beta m →
    le_num m vb →
    (lt_num m beta → le_num vb m) →
    ∃ v w b',
      for_of xs (plain_min mm) vb = Some v
      ∧ for_of xs (pruned_min ab alpha) (m, b) = Some (w, b')
      ∧ within alpha beta v w.
Proof.
  induction 1 as [|x xs Hx Hxs IH]; intros m b vb Hab Hb H1 H2.
  - exists vb, m, b. subst b.
    split; [done|]. split; [done|]. by apply min_done.
  - destruct (Hx alpha b Hab) as (vc & e & Hm & He & Hw).
    simpl. unfold plain_min at 1, pruned_min at 1.
    rewrite Hm, He. simpl.
    destruct (nle (nmin b e) alpha) eqn:Hbrk.
    + destruct (plain_min_some xs Hxs (nmin vc vb)) as (v & Hv & Hle).
      exists v, (nmin m e), (nmin b e).
      split; [done|]. split; [done|].
      apply nle_true in Hbrk.
      pose proof (nmin_le_cut _ _ _ Hab Hbrk) as Hea.
      assert (le_num b m) as Hbm by (subst b; apply nmin_le_r).
      rewrite nmin_absorb.
      2:{ eapply le_num_trans; [exact Hea|].
          eapply le_num_trans; [apply lt_le_num, Hab | exact Hbm]. }
      apply within_cut_low with (b := b); try done.
      * subst b. apply nmin_le_l.
      * destruct Hw as (Hlo & _ & _).
        eapply le_num_trans; [exact Hle|].
        eapply le_num_trans; [apply nmin_le_l | apply (Hlo Hea)].
    + apply nle_false in Hbrk.
      destruct (nmin_gt _ _ _ Hbrk) as [_ Hae].
      destruct (within_lower _ _ _ _ Hw Hae) as [Hec Hce].
      apply (IH (nmin m e) (nmin b e) (nmin vc vb)).
      * exact Hbrk.
      * subst b. apply nmin_assoc.
      * by apply nmin_mono.
      * subst b. by apply min_step_exact.
Qed.

End Pruning.

(** ** Boards and moves *)

Lemma wf_board_inv (board : BoardState) :
  wf_board board →
  ∃ c00 c01 c02 c10 c11 c12 c20 c21 c22 : Cell,
    board = [[c00; c01; c02]; [c10; c11; c12]; [c20; c21; c22]].
Proof.
  intros [Hlen Hrows].
  destruct board as [|r0 [|r1 [|r2 [|]]]]; simplify_eq/=.
  apply Forall_cons in Hrows as [H0 Hrows].
  apply Forall_cons in Hrows as [H1 Hrows].
  apply Forall_cons in Hrows as [H2 _].
  destruct r0 as [|? [|? [|? [|]]]]; simplify_eq/=.
  destruct r1 as [|? [|? [|? [|]]]]; simplify_eq/=.
  destruct r2 as [|? [|? [|? [|]]]]; simplify_eq/=.
  by repeat eexists.
Qed.

Lemma wf_board_grid (c00 c01 c02 c10 c11 c12 c20 c21 c22 : Cell) :
  wf_board [[c00; c01; c02]; [c10; c11; c12]; [c20; c21; c22]].
Proof. split; [done|]. by repeat constructor. Qed.

(** Replace a well-formed board by its nine cells. *)
Ltac grid board H :=
  let c00 := fresh "c00" in let c01 := fresh "c01" in let c02 := fresh "c02" in
  let c10 := fresh "c10" in let c11 := fresh "c11" in let c12 := fresh "c12" in
  let c20 := fresh "c20" in let c21 := fresh "c21" in let c22 := fresh "c22" in
  let E := fresh "E" in
  destruct (wf_board_inv board H)
    as (c00 & c01 & c02 & c10 & c11 & c12 & c20 & c21 & c22 & E);
  subst board.

Lemma elem_of_if_singleton {A : Type} (c : bool) (x y : A) :
  x ∈ (if c then [y] else []) ↔ c = true ∧ x = y.
Proof.
  destruct c.
  - rewrite list_elem_of_singleton. tauto.
  - rewrite elem_of_nil. split; [tauto | intros [? _]; discriminate].
Qed.

Lemma elem_of_getAvailableMoves (board : BoardState) (move : Position) :
  move ∈ getAvailableMoves board ↔
  (row move < 3)%nat ∧ (col move < 3)%nat
  ∧ isNull board (row move) (col move) = true.
Proof.
  unfold getAvailableMoves. simpl.
  rewrite !elem_of_app, !elem_of_if_singleton, elem_of_nil.
  destruct move as [r c]; simpl. split.
  - intros Hin.
    repeat match goal with
           | Hor : _ ∨ _ |- _ => destruct Hor as [Hor|Hor]
           end; try done;
      destruct Hin as [Hn Heq]; simplify_eq;
      (split; [lia | split; [lia | done]]).
  - intros (Hr & Hc & Hn).
    destruct r as [|[|[|r]]]; try lia;
      destruct c as [|[|[|c]]]; try lia; tauto.
Qed.

Lemma makeMove_wf (board : BoardState) (move : Position) (p : Player) :
  wf_board board → wf_board (makeMove board move p).
Proof.
  intros H. grid board H. destruct move as [r c].
  destruct r as [|[|[|r]]]; destruct c as [|[|[|c]]];
    apply wf_board_grid.
Qed.

Lemma countEmpty_makeMove (board : BoardState) (move : Position) (p : Player) :
  wf_board board → move ∈ getAvailableMoves board →
  S (countEmpty (makeMove board move p)) = countEmpty board.
Proof.
  intros H Hin. apply elem_of_getAvailableMoves in Hin as (Hr & Hc & Hn).
  grid board H. destruct move as [r c]. simpl in *.
  destruct r as [|[|[|r]]]; try lia;
    destruct c as [|[|[|c]]]; try lia;
    apply bool_decide_eq_true in Hn; cbv in Hn; simplify_eq;
    unfold countEmpty; simpl; lia.
Qed.

Lemma countEmpty_le (board : BoardState) :
  wf_board board → (countEmpty board ≤ 9)%nat.
Proof.
  intros H. grid board H. unfold countEmpty. simpl.
  repeat case_match; lia.
Qed.

(** ** Pruning preserves the score *)

Lemma minimax_unfold (fuel : nat) (ai : AdvancedAIPlayer) (board : BoardState)
    (depth : Z) (isMaximizing : bool) :
  minimax (S fuel) ai board depth isMaximizing =
  if decide (getWinner board = Some (player ai)) then Some (Fin (10 - depth))
  else if decide (getWinner board = Some (opponent ai))
       then Some (Fin (depth - 10))
  else if isBoardFull board then Some (Fin 0)
  else if isMaximizing then
    for_of (getAvailableMoves board)
      (plain_max (λ move, minimax fuel ai (makeMove board move (player ai))
                            (depth + 1) false))
      NegInf
  else
    for_of (getAvailableMoves board)
      (plain_min (λ move, minimax fuel ai (makeMove board move (opponent ai))
                            (depth + 1) true))
      PosInf.
Proof. reflexivity. Qed.

Lemma minimaxAlphaBeta_unfold (fuel : nat) (ai : AdvancedAIPlayer)
    (board : BoardState) (depth : Z) (alpha beta : num) (isMaximizing : bool) :
  minimaxAlphaBeta (S fuel) ai board depth alpha beta isMaximizing =
  if decide (getWinner board = Some (player ai)) then Some (Fin (10 - depth))
  else if decide (getWinner board = Some (opponent ai))
       then Some (Fin (depth - 10))
  else if isBoardFull board then Some (Fin 0)
  else if isMaximizing then
    fst <$> for_of (getAvailableMoves board)
      (pruned_max (λ move a b, minimaxAlphaBeta fuel ai
                                 (makeMove board move (player ai))
                                 (depth + 1) a b false)
                  beta)
      (NegInf, alpha)
  else
    fst <$> for_of (getAvailableMoves board)
      (pruned_min (λ move a b, minimaxAlphaBeta fuel ai
                                 (makeMove board move (opponent ai))
                                 (depth + 1) a b true)
                  alpha)
      (PosInf, beta).
Proof. reflexivity. Qed.

Lemma within_refl (alpha beta v : num) : within alpha beta v v.
Proof. unfold within. auto using le_num_refl. Qed.

Lemma within_full (v w : num) : within NegInf PosInf v w → v = w.
Proof.
  unfold within. intros (Hlo & Hhi & Hin).
  destruct w as [|z|].
  - apply le_num_antisym; [apply Hlo; exact I | exact I].
  - destruct Hin as [H1 H2]; [cbv; tauto | cbv; tauto |].
    by apply le_num_antisym.
  - apply le_num_antisym; [destruct v; exact I | apply Hhi; exact I].
Qed.

(** With fuel above the number of empty cells both searches return, and
    the pruned one stays within its window of the plain one. *)
Lemma search_agrees (fuel : nat) (ai : AdvancedAIPlayer) :
  ∀ (board : BoardState) (depth : Z) (isMaximizing : bool),
    wf_board board → (countEmpty board < fuel)%nat →
    agrees (λ _ : unit, minimax fuel ai board depth isMaximizing)
           (λ _ a b, minimaxAlphaBeta fuel ai board depth a b isMaximizing)
           ().
Proof.
  induction fuel as [|fuel IH]; intros board depth isMaximizing Hwf Hfuel;
    [lia|].
  intros alpha beta Hab.
  rewrite minimax_unfold, minimaxAlphaBeta_unfold.
  repeat case_decide; try (eexists _, _; split; [done|]; split; [done|];
                           apply within_refl).
  destruct (isBoardFull board);
    [eexists _, _; split; [done|]; split; [done|]; apply within_refl|].
  assert (∀ p isMax,
    Forall (agrees
              (λ move, minimax fuel ai (makeMove board move p)
                         (depth + 1) isMax)
              (λ move a b, minimaxAlphaBeta fuel ai (makeMove board move p)
                             (depth + 1) a b isMax))
           (getAvailableMoves board)) as Hchildren.
  { intros p isMax. apply Forall_forall. intros move Hin.
    apply (IH (makeMove board move p) (depth + 1) isMax).
    - by apply makeMove_wf.
    - pose proof (countEmpty_makeMove board move p Hwf Hin). lia. }
  destruct isMaximizing.
  - destruct (pruned_max_within _ _ _ alpha beta (Hchildren (player ai) false)
                NegInf alpha NegInf) as (v & w & a' & Hv & Hw & Hin);
      [done | by destruct alpha | done | by destruct alpha |].
    exists v, w. rewrite Hv, Hw. done.
  - destruct (pruned_min_within _ _ _ alpha beta (Hchildren (opponent ai) true)
                PosInf beta PosInf) as (v & w & b' & Hv & Hw & Hin);
      [done | by destruct beta | by destruct beta | by destruct beta |].
    exists v, w. rewrite Hv, Hw. done.
Qed.

(** With the full window the pruned search returns the plain score. *)
Lemma minimax_alphabeta_same_score_aux (ai : AdvancedAIPlayer)
    (board : BoardState) (depth : Z) (isMaximizing : bool) :
  wf_board board →
  ∃ v : num,
    minimax searchFuel ai board depth isMaximizing = Some v
    ∧ minimaxAlphaBeta searchFuel ai board depth NegInf PosInf isMaximizing
      = Some v.
Proof.
  intros Hwf.
  destruct (search_agrees searchFuel ai board depth isMaximizing Hwf)
    with (alpha := NegInf) (beta := PosInf) as (v & w & Hv & Hw & Hin).
  - pose proof (countEmpty_le board Hwf). unfold searchFuel. lia.
  - cbv; tauto.
  - exists v. apply within_full in Hin. by subst w.
Qed.

(** ** Full boards, marks and lines *)

Lemma not_full_moves (board : BoardState) :
  wf_board board → isBoardFull board = false → getAvailableMoves board ≠ [].
Proof.
  intros H. grid board H.
  destruct c00 as [?|]; [|done]. destruct c01 as [?|]; [|done].
  destruct c02 as [?|]; [|done]. destruct c10 as [?|]; [|done].
  destruct c11 as [?|]; [|done]. destruct c12 as [?|]; [|done].
  destruct c20 as [?|]; [|done]. destruct c21 as [?|]; [|done].
  destruct c22 as [?|]; [|done]. done.
Qed.

Lemma full_no_moves (board : BoardState) :
  wf_board board → isBoardFull board = true → getAvailableMoves board = [].
Proof.
  intros H. grid board H.
  destruct c00 as [?|]; [|done]. destruct c01 as [?|]; [|done].
  destruct c02 as [?|]; [|done]. destruct c10 as [?|]; [|done].
  destruct c11 as [?|]; [|done]. destruct c12 as [?|]; [|done].
  destruct c20 as [?|]; [|done]. destruct c21 as [?|]; [|done].
  destruct c22 as [?|]; [|done]. done.
Qed.

(** A move by [p] adds no mark of the other player. *)
Lemma isMark_makeMove_other (board : BoardState) (move : Position)
    (p q : Player) (r c : nat) :
  p ≠ q → isMark (makeMove board move p) r c q = true →
  isMark board r c q = true.
Proof.
  intros Hpq. unfold isMark, cellAt, makeMove.
  rewrite !bool_decide_eq_true. destruct move as [mr mc]. simpl.
  destruct (decide (mr = r)) as [->|Hr].
  - rewrite list_lookup_alter_eq. destruct (board !! r) as [cells|]; [|done].
    simpl. destruct (decide (mc = c)) as [->|Hc].
    + intros Hc. apply list_lookup_insert_Some in Hc.
      destruct Hc as [(_ & Heq & _)|(? & _)]; [congruence | done].
    + by rewrite list_lookup_insert_ne.
  - by rewrite list_lookup_alter_ne.
Qed.

(** A move by [p] keeps every mark already on the board. *)
Lemma isMark_makeMove_keep (board : BoardState) (move : Position)
    (p q : Player) (r c : nat) :
  isNull board (row move) (col move) = true →
  isMark board r c q = true → isMark (makeMove board move p) r c q = true.
Proof.
  unfold isNull, isMark, cellAt, makeMove.
  rewrite !bool_decide_eq_true. destruct move as [mr mc]. simpl.
  destruct (decide (mr = r)) as [->|Hr].
  - rewrite list_lookup_alter_eq. destruct (board !! r) as [cells|]; [|done].
    simpl. destruct (decide (mc = c)) as [->|Hc].
    + congruence.
    + by rewrite list_lookup_insert_ne.
  - by rewrite list_lookup_alter_ne.
Qed.

Lemma checkWin_mono (board board' : BoardState) (q : Player) :
  (∀ r c, isMark board r c q = true → isMark board' r c q = true) →
  checkWin board q = true → checkWin board' q = true.
Proof.
  intros Hm. unfold checkWin. simpl.
  rewrite !orb_true_iff, !andb_true_iff.
  intros H.
  repeat match goal with
         | Hor : _ ∨ _ |- _ => destruct Hor as [Hor|Hor]
         end; try done;
    repeat match goal with
           | Hand : _ ∧ _ |- _ => destruct Hand
           end; auto 15.
Qed.

Lemma checkWin_makeMove_other (board : BoardState) (move : Position)
    (p q : Player) :
  p ≠ q → checkWin (makeMove board move p) q = true →
  checkWin board q = true.
Proof.
  intros Hpq. apply checkWin_mono. intros r c.
  by apply isMark_makeMove_other.
Qed.

Lemma checkWin_makeMove_keep (board : BoardState) (move : Position)
    (p q : Player) :
  move ∈ getAvailableMoves board → checkWin board q = true →
  checkWin (makeMove board move p) q = true.
Proof.
  intros Hin. apply elem_of_getAvailableMoves in Hin as (_ & _ & Hn).
  apply checkWin_mono. intros r c. by apply isMark_makeMove_keep.
Qed.

(** ** Bounds on the scores *)

Section PlainBounds.
Context {A : Type}.
Variable mm : A → option num.
Variables lo hi : Z.

Lemma plain_max_bounded (xs : list A) :
  (∀ x, x ∈ xs → ∃ v, mm x = Some v ∧ bounded lo hi v) →
  ∀ best, best = NegInf ∨ bounded lo hi best →
    ∃ v, for_of xs (plain_max mm) best = Some v
         ∧ (bounded lo hi v ∨ (xs = [] ∧ v = NegInf)).
Proof.
  induction xs as [|x xs IH]; intros Hxs best Hbest; simpl.
  - exists best. split; [done|]. destruct Hbest; auto.
  - destruct (Hxs x) as (vx & Hm & zx & -> & Hzx); [by left|].
    unfold plain_max at 1. rewrite Hm. simpl.
    destruct (IH (λ y Hy, Hxs y (list_elem_of_further _ _ _ Hy))
                 (nmax (Fin zx) best))
      as (v & Hv & [Hb|[-> ->]]).
    + right. destruct Hbest as [->|(zb & -> & Hzb)].
      * by exists zx.
      * unfold nmax. simpl. case_bool_decide; [by exists zb | by exists zx].
    + exists v. auto.
    + simpl in Hv. exists (nmax (Fin zx) best). split; [done|]. left.
      destruct Hbest as [->|(zb & -> & Hzb)].
      * by exists zx.
      * unfold nmax. simpl. case_bool_decide; [by exists zb | by exists zx].
Qed.

Lemma plain_min_bounded (xs : list A) :
  (∀ x, x ∈ xs → ∃ v, mm x = Some v ∧ bounded lo hi v) →
  ∀ best, best = PosInf ∨ bounded lo hi best →
    ∃ v, for_of xs (plain_min mm) best = Some v
         ∧ (bounded lo hi v ∨ (xs = [] ∧ v = PosInf)).
Proof.
  induction xs as [|x xs IH]; intros Hxs best Hbest; simpl.
  - exists best. split; [done|]. destruct Hbest; auto.
  - destruct (Hxs x) as (vx & Hm & zx & -> & Hzx); [by left|].
    unfold plain_min at 1. rewrite Hm. simpl.
    destruct (IH (λ y Hy, Hxs y (list_elem_of_further _ _ _ Hy))
                 (nmin (Fin zx) best))
      as (v & Hv & [Hb|[-> ->]]).
    + right. destruct Hbest as [->|(zb & -> & Hzb)].
      * by exists zx.
      * unfold nmin. simpl. case_bool_decide; [by exists zx | by exists zb].
    + exists v. auto.
    + simpl in Hv. exists (nmin (Fin zx) best). split; [done|]. left.
      destruct Hbest as [->|(zb & -> & Hzb)].
      * by exists zx.
      * unfold nmin. simpl. case_bool_decide; [by exists zx | by exists zb].
Qed.

End PlainBounds.

Lemma bounded_weaken (lo hi lo' hi' : Z) (v : num) :
  lo' ≤ lo → hi ≤ hi' → bounded lo hi v → bounded lo' hi' v.
Proof. intros ? ? (z & -> & ?). exists z. split; [done | lia]. Qed.

(** At depth [d] with at most [10 - d] empty cells the score is a finite
    number between [d - 10] and [10 - d]. *)
Lemma minimax_bounds (fuel : nat) (ai : AdvancedAIPlayer) :
  ∀ (board : BoardState) (depth : Z) (isMaximizing : bool),
    wf_board board → (countEmpty board < fuel)%nat →
    0 ≤ depth → depth + Z.of_nat (countEmpty board) ≤ 10 →
    ∃ v, minimax fuel ai board depth isMaximizing = Some v
         ∧ bounded (depth - 10) (10 - depth) v.
Proof.
  induction fuel as [|fuel IH]; intros board depth isMaximizing Hwf Hfuel Hd Hc;
    [lia|].
  rewrite minimax_unfold.
  repeat case_decide;
    try (eexists; split; [done|]; eexists; split; [done|]; lia).
  destruct (isBoardFull board) eqn:Hfull;
    [eexists; split; [done|]; eexists; split; [done|]; lia|].
  pose proof (not_full_moves board Hwf Hfull) as Hne.
  assert (∀ p isMax move, move ∈ getAvailableMoves board →
            ∃ v, minimax fuel ai (makeMove board move p) (depth + 1) isMax
                 = Some v ∧ bounded (depth - 10) (10 - depth) v) as Hchildren.
  { intros p isMax move Hin.
    pose proof (countEmpty_makeMove board move p Hwf Hin).
    destruct (IH (makeMove board move p) (depth + 1) isMax)
      as (v & Hv & Hb); [by apply makeMove_wf | lia | lia | lia |].
    exists v. split; [done|]. eapply bounded_weaken; [| |exact Hb]; lia. }
  destruct isMaximizing.
  - destruct (plain_max_bounded _ (depth - 10) (10 - depth) _
                (Hchildren (player ai) false) NegInf) as (v & Hv & [Hb|[? _]]);
      [by left | | done].
    by exists v.
  - destruct (plain_min_bounded _ (depth - 10) (10 - depth) _
                (Hchildren (opponent ai) true) PosInf) as (v & Hv & [Hb|[? _]]);
      [by left | | done].
    by exists v.
Qed.

(** ** The selection loop *)

Section Selection.
Variable scoreOf : Position → option num.

Lemma selectBest_unfold (xs : list Position) :
  selectBest scoreOf xs = for_of xs (select_body scoreOf) (xs !! 0%nat, NegInf).
Proof. reflexivity. Qed.

(** The loop ends with the largest score seen and a move that has it;
    when no score exceeds the initial one, the initial pair is kept. *)
Lemma select_loop (xs : list Position) :
  (∀ x, x ∈ xs → is_Some (scoreOf x)) →
  ∀ bm bs, ∃ bm' bs',
    for_of xs (select_body scoreOf) (bm, bs) = Some (bm', bs')
    ∧ le_num bs bs'
    ∧ (∀ x s, x ∈ xs → scoreOf x = Some s → le_num s bs')
    ∧ ((bm' = bm ∧ bs' = bs)
       ∨ (∃ x, x ∈ xs ∧ bm' = Some x ∧ scoreOf x = Some bs'
               ∧ lt_num bs bs')).
Proof.
  induction xs as [|x xs IH]; intros Hxs bm bs; simpl.
  - exists bm, bs. split; [done|]. split; [apply le_num_refl|].
    split; [|by left]. intros ? ? Hin. by apply elem_of_nil in Hin.
  - destruct (Hxs x) as [s Hs]; [by left|].
    rewrite Hs. simpl.
    assert (∀ y, y ∈ xs → is_Some (scoreOf y)) as Hxs'
      by (intros y Hy; apply Hxs; by right).
    unfold ngt. destruct (nle s bs) eqn:Hcmp; simpl.
    + apply nle_true in Hcmp.
      destruct (IH Hxs' bm bs) as (bm' & bs' & Hrun & Hle & Hall & Hsel).
      exists bm', bs'. split; [done|]. split; [done|]. split.
      * intros y sy Hy Hsy. apply elem_of_cons in Hy as [->|Hy].
        -- simplify_eq. by eapply le_num_trans.
        -- by eapply Hall.
      * destruct Hsel as [?|(y & Hy & ? & ? & ?)]; [by left|].
        right. exists y. split; [by right | done].
    + apply nle_false in Hcmp.
      destruct (IH Hxs' (Some x) s) as (bm' & bs' & Hrun & Hle & Hall & Hsel).
      exists bm', bs'. split; [done|].
      assert (lt_num bs bs') as Hlt
        by (eapply lt_le_num_trans; [exact Hcmp | exact Hle]).
      split; [by apply lt_le_num|]. split.
      * intros y sy Hy Hsy. apply elem_of_cons in Hy as [->|Hy].
        -- by simplify_eq.
        -- by eapply Hall.
      * right. destruct Hsel as [[-> ->]|(y & Hy & ? & ? & ?)].
        -- exists x. split; [by left | done].
        -- exists y. split; [by right | done].
Qed.

(** The selected move is always one of the candidates. *)
Lemma selectBest_elem (xs : list Position) :
  xs ≠ [] → (∀ x, x ∈ xs → is_Some (scoreOf x)) →
  ∃ bm bs, selectBest scoreOf xs = Some (Some bm, bs) ∧ bm ∈ xs.
Proof.
  intros Hne Hxs. rewrite selectBest_unfold.
  destruct (select_loop xs Hxs (xs !! 0%nat) NegInf)
    as (bm' & bs' & Hrun & _ & _ & Hsel).
  destruct xs as [|x0 xs]; [done|].
  destruct Hsel as [[-> ->]|(y & Hy & -> & _)].
  - exists x0, NegInf. split; [done | by left].
  - by exists y, bs'.
Qed.

(** With finite scores, the selected move carries the maximum. *)
Lemma selectBest_max (xs : list Position) :
  xs ≠ [] → (∀ x, x ∈ xs → ∃ z, scoreOf x = Some (Fin z)) →
  ∃ bm z, selectBest scoreOf xs = Some (Some bm, Fin z)
          ∧ bm ∈ xs ∧ scoreOf bm = Some (Fin z)
          ∧ ∀ x z', x ∈ xs → scoreOf x = Some (Fin z') → z' ≤ z.
Proof.
  intros Hne Hxs. rewrite selectBest_unfold.
  assert (∀ x, x ∈ xs → is_Some (scoreOf x)) as Hsome
    by (intros x Hx; destruct (Hxs x Hx) as [z Hz]; by eexists).
  destruct (select_loop xs Hsome (xs !! 0%nat) NegInf)
    as (bm' & bs' & Hrun & _ & Hall & Hsel).
  destruct xs as [|x0 xs]; [done|].
  destruct (Hxs x0) as [z0 Hz0]; [by left|].
  pose proof (Hall x0 _ (list_elem_of_here _ _) Hz0) as Hge.
  destruct Hsel as [[_ ->]|(y & Hy & -> & Hsy & _)]; [done|].
  destruct (Hxs y Hy) as [z Hz]. rewrite Hz in Hsy. simplify_eq.
  exists y, z. split; [done|]. split; [done|]. split; [done|].
  intros x z' Hx Hsx. exact (Hall x _ Hx Hsx).
Qed.

End Selection.

(** ** Every tier returns a legal move *)

(** The score of a first move: both searches return the same finite
    number. *)
Lemma first_ply_score (ai : AdvancedAIPlayer) (board : BoardState)
    (move : Position) (p : Player) :
  wf_board board → move ∈ getAvailableMoves board →
  ∃ z, minimax searchFuel ai (makeMove board move p) 0 false = Some (Fin z)
       ∧ minimaxAlphaBeta searchFuel ai (makeMove board move p) 0
           NegInf PosInf false = Some (Fin z)
       ∧ -10 ≤ z ≤ 10.
Proof.
  intros Hwf Hin.
  pose proof (makeMove_wf board move p Hwf) as Hwf'.
  pose proof (countEmpty_makeMove board move p Hwf Hin) as Hcount.
  pose proof (countEmpty_le board Hwf) as Hle.
  destruct (minimax_bounds searchFuel ai (makeMove board move p) 0 false)
    as (v & Hv & z & -> & Hz); [done | unfold searchFuel; lia | lia | lia |].
  destruct (minimax_alphabeta_same_score_aux ai (makeMove board move p) 0 false
              Hwf') as (w & Hw & Hab).
  exists z. rewrite Hv in Hw. simplify_eq. split; [done|]. split; [done | lia].
Qed.

Lemma getRandomMove_legal (rnd : nat → nat) (board : BoardState) :
  (∀ n, (0 < n)%nat → (rnd n < n)%nat) →
  getAvailableMoves board ≠ [] →
  legal board (getRandomMove rnd board (getAvailableMoves board)).
Proof.
  intros Hrnd Hne. unfold legal, getRandomMove. simpl.
  set (moves := getAvailableMoves board) in *.
  set (preferred := if bool_decide _ then _ else _).
  assert (preferred ≠ [] ∧ ∀ x, x ∈ preferred → x ∈ moves) as [Hp Hsub].
  { subst preferred. case_bool_decide as Hlen.
    - split; [intros Hnil; rewrite Hnil in Hlen; simpl in Hlen; lia|].
      intros x Hx. by apply list_elem_of_filter in Hx as [_ Hx].
    - done. }
  destruct (lookup_lt_is_Some_2 preferred (rnd (length preferred)))
    as [pos Hpos].
  { apply Hrnd. destruct preferred; [done | simpl; lia]. }
  exists pos. split; [done|]. apply Hsub. by eapply list_elem_of_lookup_2.
Qed.

Lemma findWinningMove_elem (board : BoardState) (p : Player)
    (moves : list Position) (move : Position) :
  findWinningMove board p moves = Some move →
  move ∈ moves ∧ checkWin (makeMove board move p) p = true.
Proof.
  unfold findWinningMove. intros H. apply find_some in H as [Hin Hwin].
  split; [by apply list_elem_of_In | done].
Qed.

Lemma getMediumMove_legal (rnd : nat → nat) (ai : AdvancedAIPlayer)
    (board : BoardState) :
  (∀ n, (0 < n)%nat → (rnd n < n)%nat) →
  getAvailableMoves board ≠ [] →
  legal board (getMediumMove rnd ai board (getAvailableMoves board)).
Proof.
  intros Hrnd Hne. unfold getMediumMove.
  destruct (findWinningMove board (player ai) _) as [move|] eqn:Hwin.
  { apply findWinningMove_elem in Hwin as [Hin _]. by exists move. }
  destruct (findWinningMove board (opponent ai) _) as [move|] eqn:Hblock.
  { apply findWinningMove_elem in Hblock as [Hin _]. by exists move. }
  destruct (isNull board 1 1) eqn:Hcenter.
  { exists (mkPosition 1 1). split; [done|].
    apply elem_of_getAvailableMoves. simpl. repeat split; [lia | lia | done]. }
  set (corners := filter _ _).
  case_bool_decide as Hlen; [|by apply getRandomMove_legal].
  destruct (lookup_lt_is_Some_2 corners (rnd (length corners)))
    as [pos Hpos]; [by apply Hrnd|].
  exists pos. split; [done|].
  apply list_elem_of_lookup_2 in Hpos. subst corners.
  apply list_elem_of_filter in Hpos as [Hnull Hpos].
  apply elem_of_getAvailableMoves.
  repeat (apply elem_of_cons in Hpos as [->|Hpos];
          [simpl; repeat split; [lia | lia | done]|]).
  by apply elem_of_nil in Hpos.
Qed.

Lemma getWinner_Some (board : BoardState) (q : Player) :
  getWinner board = Some q → checkWin board q = true.
Proof.
  unfold getWinner. destruct (checkWin board X) eqn:HX.
  - by intros [= <-].
  - destruct (checkWin board O) eqn:HO; [by intros [= <-] | done].
Qed.

Lemma getWinner_of_win (board : BoardState) (p : Player) :
  checkWin board p = true → (p = X ∨ checkWin board X = false) →
  getWinner board = Some p.
Proof.
  unfold getWinner. intros Hp [->|HX].
  - by rewrite Hp.
  - rewrite HX. destruct p; [congruence | by rewrite Hp].
Qed.

Lemma wf_ai_neq (ai : AdvancedAIPlayer) : wf_ai ai → player ai ≠ opponent ai.
Proof. unfold wf_ai. intros ->. by destruct (player ai). Qed.

Lemma selectBest_ext (f g : Position → option num) (xs : list Position) :
  (∀ x, x ∈ xs → f x = g x) → selectBest f xs = selectBest g xs.
Proof.
  rewrite !selectBest_unfold. generalize (xs !! 0%nat, NegInf).
  induction xs as [|x xs IH]; intros st Hfg; [done|].
  simpl. unfold select_body at 1 3. destruct st as [bm bs].
  rewrite (Hfg x) by (by left).
  destruct (g x) as [s|]; [|done]. simpl.
  destruct (ngt s bs); apply IH; intros y Hy; apply Hfg; by right.
Qed.

Lemma expertScore_hardScore (ai : AdvancedAIPlayer) (board : BoardState)
    (move : Position) :
  wf_board board → expertScore ai board move = hardScore ai board move.
Proof.
  intros Hwf. unfold expertScore, hardScore.
  destruct (minimax_alphabeta_same_score_aux ai
              (makeMove board move (player ai)) 0 false) as (v & -> & ->);
    [by apply makeMove_wf | done].
Qed.

(** A winning first move scores 10; any other first move scores at most 8,
    because a win after it needs two more plies. *)
Lemma first_ply_value (ai : AdvancedAIPlayer) (board : BoardState)
    (move : Position) :
  wf_board board → wf_ai ai → checkWin board (opponent ai) = false →
  move ∈ getAvailableMoves board →
  ∃ z, hardScore ai board move = Some (Fin z)
       ∧ (if winning ai board move then z = 10 else -10 ≤ z ≤ 8).
Proof.
  intros Hwf Hai Hopp Hin. pose proof (wf_ai_neq ai Hai) as Hneq.
  unfold hardScore, winning.
  set (tb := makeMove board move (player ai)).
  pose proof (makeMove_wf board move (player ai) Hwf) as Hwf1.
  pose proof (countEmpty_makeMove board move (player ai) Hwf Hin) as Hc1.
  pose proof (countEmpty_le board Hwf) as Hle.
  fold tb in Hwf1, Hc1.
  assert (checkWin tb (opponent ai) = false) as Hopp1.
  { destruct (checkWin tb (opponent ai)) eqn:E; [|done].
    apply checkWin_makeMove_other in E; [congruence | done]. }
  change searchFuel with (S 9). rewrite minimax_unfold.
  destruct (checkWin tb (player ai)) eqn:Hwin.
  { rewrite decide_True.
    - exists 10. split; [done | lia].
    - apply getWinner_of_win; [done|].
      destruct (player ai) eqn:Hp; [by left | right].
      unfold wf_ai in Hai. rewrite Hp in Hai. simpl in Hai. congruence. }
  rewrite decide_False
    by (intros Hw; apply getWinner_Some in Hw; congruence).
  rewrite decide_False
    by (intros Hw; apply getWinner_Some in Hw; congruence).
  destruct (isBoardFull tb) eqn:Hfull; [exists 0; split; [done | lia]|].
  pose proof (not_full_moves tb Hwf1 Hfull) as Hne.
  destruct (plain_min_bounded
              (λ y, minimax 9 ai (makeMove tb y (opponent ai)) (0 + 1) true)
              (-9) 8 (getAvailableMoves tb)) with (best := PosInf)
    as (v & Hv & [(z & -> & Hz)|[? _]]); [| by left | | done].
  2:{ exists z. split; [done | lia]. }
  intros y Hy.
  set (tb2 := makeMove tb y (opponent ai)).
  pose proof (makeMove_wf tb y (opponent ai) Hwf1) as Hwf2.
  pose proof (countEmpty_makeMove tb y (opponent ai) Hwf1 Hy) as Hc2.
  fold tb2 in Hwf2, Hc2.
  assert (checkWin tb2 (player ai) = false) as Hwin2.
  { destruct (checkWin tb2 (player ai)) eqn:E; [|done].
    apply checkWin_makeMove_other in E; [congruence | done]. }
  change 9%nat with (S 8). rewrite minimax_unfold.
  rewrite decide_False
    by (intros Hw; apply getWinner_Some in Hw; congruence).
  case_decide; [eexists; split; [done|]; eexists; split; [done | lia]|].
  destruct (isBoardFull tb2) eqn:Hfull2;
    [eexists; split; [done|]; eexists; split; [done | lia]|].
  pose proof (not_full_moves tb2 Hwf2 Hfull2) as Hne2.
  destruct (plain_max_bounded
              (λ w, minimax 8 ai (makeMove tb2 w (player ai)) (0 + 1 + 1) false)
              (-9) 8 (getAvailableMoves tb2)) with (best := NegInf)
    as (v & Hv & [Hb|[? _]]); [| by left | | done].
  2:{ by exists v. }
  intros w Hw.
  pose proof (makeMove_wf tb2 w (player ai) Hwf2) as Hwf3.
  pose proof (countEmpty_makeMove tb2 w (player ai) Hwf2 Hw) as Hc3.
  destruct (minimax_bounds 8 ai (makeMove tb2 w (player ai)) (0 + 1 + 1) false)
    as (v & Hv & Hb); [done | lia | lia | lia |].
  exists v. split; [done|]. eapply bounded_weaken; [| |exact Hb]; lia.
Qed.

(** ** The searching tiers *)

Lemma hardScore_some (ai : AdvancedAIPlayer) (board : BoardState)
    (move : Position) :
  wf_board board → move ∈ getAvailableMoves board →
  ∃ z, hardScore ai board move = Some (Fin z)
       ∧ expertScore ai board move = Some (Fin z)
       ∧ impossibleScore ai board move
         = Some (Fin (z + getPositionalScore move)).
Proof.
  intros Hwf Hin.
  destruct (first_ply_score ai board move (player ai) Hwf Hin)
    as (z & Hm & Hab & _).
  exists z. unfold impossibleScore, hardScore, expertScore.
  rewrite Hm, Hab. done.
Qed.

Lemma getPatternMove_Some (ai : AdvancedAIPlayer) (board : BoardState)
    (move : AIMove) :
  getPatternMove ai board = Some move →
  ∃ n, patternMemory ai !! boardToPattern board = Some n ∧ 5 < n
       ∧ move = {| position := getAvailableMoves board !! 0%nat;
                   score := Fin n;
                   confidence := 9 # 10;
                   strategy := "Pattern Recognition" |}.
Proof.
  unfold getPatternMove.
  destruct (patternMemory ai !! boardToPattern board) as [n|]; [|done].
  destruct (bool_decide (n ≠ 0)); simpl; [|done].
  case_bool_decide; [|done]. intros [= <-]. by exists n.
Qed.

Lemma getPatternMove_hit (ai : AdvancedAIPlayer) (board : BoardState) (n : Z) :
  patternMemory ai !! boardToPattern board = Some n → 5 < n →
  getPatternMove ai board
  = Some {| position := getAvailableMoves board !! 0%nat;
            score := Fin n;
            confidence := 9 # 10;
            strategy := "Pattern Recognition" |}.
Proof.
  intros Hn Hgt. unfold getPatternMove. rewrite Hn.
  rewrite bool_decide_true by lia. rewrite bool_decide_true by done. done.
Qed.

Lemma getBestMove_throw (fuel : nat) (rnd : nat → nat) (ai : AdvancedAIPlayer)
    (board : BoardState) :
  getAvailableMoves board = [] →
  getBestMove fuel rnd ai board = Throw "No available moves".
Proof. intros H. unfold getBestMove. by rewrite H. Qed.

Lemma getBestMove_dispatch (fuel : nat) (rnd : nat → nat)
    (ai : AdvancedAIPlayer) (board : BoardState) :
  getAvailableMoves board ≠ [] →
  getBestMove fuel rnd ai board =
  match difficulty ai with
  | Easy => Ok (getRandomMove rnd board (getAvailableMoves board), ai)
  | Medium => Ok (getMediumMove rnd ai board (getAvailableMoves board), ai)
  | Hard =>
      lift ((λ m, (m, ai)) <$> getHardMove fuel ai board (getAvailableMoves board))
  | Expert => lift (getExpertMove fuel ai board (getAvailableMoves board))
  | Impossible => lift (getImpossibleMove fuel ai board (getAvailableMoves board))
  end.
Proof.
  intros H. unfold getBestMove. rewrite bool_decide_false; [done|].
  by destruct (getAvailableMoves board).
Qed.

(** What the three searching tiers return: the move chosen by the
    selection loop over their respective scores. *)
Lemma getHardMove_select (ai : AdvancedAIPlayer) (board : BoardState)
    (bm : option Position) (bs : num) :
  selectBest (hardScore ai board) (getAvailableMoves board) = Some (bm, bs) →
  getHardMove searchFuel ai board (getAvailableMoves board)
  = Some {| position := bm; score := bs; confidence := 8 # 10;
            strategy := "Minimax" |}.
Proof.
  intros H. unfold getHardMove.
  change (selectBest _ _) with
    (selectBest (hardScore ai board) (getAvailableMoves board)).
  by rewrite H.
Qed.

Lemma getExpertMove_select (ai : AdvancedAIPlayer) (board : BoardState)
    (bm : option Position) (bs : num) :
  selectBest (expertScore ai board) (getAvailableMoves board) = Some (bm, bs) →
  getExpertMove searchFuel ai board (getAvailableMoves board)
  = Some ({| position := bm; score := bs; confidence := 95 # 100;
             strategy := "Alpha-Beta Pruning" |},
          updatePatternMemory ai board bm).
Proof.
  intros H. unfold getExpertMove.
  change (selectBest _ _) with
    (selectBest (expertScore ai board) (getAvailableMoves board)).
  by rewrite H.
Qed.

Lemma getImpossibleMove_select (ai : AdvancedAIPlayer) (board : BoardState)
    (bm : option Position) (bs : num) :
  getPatternMove ai board = None →
  selectBest (impossibleScore ai board) (getAvailableMoves board)
  = Some (bm, bs) →
  getImpossibleMove searchFuel ai board (getAvailableMoves board)
  = Some ({| position := bm; score := bs; confidence := 1;
             strategy := "Perfect Play + Patterns" |},
          updatePatternMemory ai board bm).
Proof.
  intros Hp H. unfold getImpossibleMove. rewrite Hp.
  change (selectBest _ _) with
    (selectBest (impossibleScore ai board) (getAvailableMoves board)).
  by rewrite H.
Qed.

Lemma getBestMove_legal_aux (rnd : nat → nat) (ai : AdvancedAIPlayer)
    (board : BoardState) :
  wf_board board →
  (difficulty ai = Easy ∨ difficulty ai = Medium →
   ∀ n, (0 < n)%nat → (rnd n < n)%nat) →
  getAvailableMoves board ≠ [] →
  ∃ move ai', getBestMove searchFuel rnd ai board = Ok (move, ai')
              ∧ legal board move.
Proof.
  intros Hwf Hrnd Hne. rewrite getBestMove_dispatch by done.
  destruct (difficulty ai) eqn:Hd.
  - eexists _, _. split; [done|]. apply getRandomMove_legal; auto.
  - eexists _, _. split; [done|]. apply getMediumMove_legal; auto.
  - destruct (selectBest_elem (hardScore ai board) (getAvailableMoves board))
      as (bm & bs & Hsel & Hin); [done | |].
    { intros x Hx. destruct (hardScore_some ai board x Hwf Hx) as (z & -> & _).
      by eexists. }
    rewrite (getHardMove_select _ _ _ _ Hsel). simpl.
    eexists _, _. split; [done|]. by exists bm.
  - destruct (selectBest_elem (expertScore ai board) (getAvailableMoves board))
      as (bm & bs & Hsel & Hin); [done | |].
    { intros x Hx.
      destruct (hardScore_some ai board x Hwf Hx) as (z & _ & -> & _).
      by eexists. }
    rewrite (getExpertMove_select _ _ _ _ Hsel). simpl.
    eexists _, _. split; [done|]. by exists bm.
  - destruct (getPatternMove ai board) as [pm|] eqn:Hpm.
    + unfold getImpossibleMove. rewrite Hpm. simpl.
      eexists _, _. split; [done|].
      apply getPatternMove_Some in Hpm as (n & _ & _ & ->).
      destruct (getAvailableMoves board) as [|x0 xs] eqn:E; [done|].
      exists x0. split; [done | rewrite E; by left].
    + destruct (selectBest_elem (impossibleScore ai board)
                  (getAvailableMoves board))
        as (bm & bs & Hsel & Hin); [done | |].
      { intros x Hx.
        destruct (hardScore_some ai board x Hwf Hx) as (z & _ & _ & ->).
        by eexists. }
      rewrite (getImpossibleMove_select _ _ _ _ Hpm Hsel). simpl.
      eexists _, _. split; [done|]. by exists bm.
Qed.

(** ** Immediate wins *)

Lemma getPositionalScore_range (move : Position) :
  1 ≤ getPositionalScore move ≤ 3.
Proof. unfold getPositionalScore. repeat case_match; lia. Qed.

Lemma getPositionalScore_center (move : Position) :
  getPositionalScore move = 3 → move = mkPosition 1 1.
Proof.
  unfold getPositionalScore. destruct move as [r c]. simpl.
  destruct (bool_decide (r = 1%nat)) eqn:Hr, (bool_decide (c = 1%nat)) eqn:Hc;
    simpl; try (repeat case_match; lia).
  apply bool_decide_eq_true in Hr, Hc. by subst.
Qed.

Lemma getPositionalScore_corner (move : Position) :
  isCenterOrCorner move = true → 2 ≤ getPositionalScore move.
Proof.
  unfold isCenterOrCorner, getPositionalScore.
  destruct (bool_decide (row move = 1%nat) && bool_decide (col move = 1%nat));
    [lia|].
  simpl. intros ->. lia.
Qed.

Section ImmediateWin.
Variables (ai : AdvancedAIPlayer) (board : BoardState) (w : Position).
Hypothesis Hwf : wf_board board.
Hypothesis Hai : wf_ai ai.
Hypothesis Hopp : checkWin board (opponent ai) = false.
Hypothesis Hw : w ∈ getAvailableMoves board.
Hypothesis Hwins : winning ai board w = true.

Lemma moves_nonempty : getAvailableMoves board ≠ [].
Proof. intros E. rewrite E in Hw. by apply elem_of_nil in Hw. Qed.

Lemma hard_selects_win :
  ∃ bm bs, selectBest (hardScore ai board) (getAvailableMoves board)
           = Some (Some bm, bs)
           ∧ bm ∈ getAvailableMoves board ∧ winning ai board bm = true.
Proof.
  destruct (selectBest_max (hardScore ai board) (getAvailableMoves board))
    as (bm & z & Hsel & Hin & Hbm & Hmax); [apply moves_nonempty | |].
  { intros x Hx. destruct (hardScore_some ai board x Hwf Hx) as (zx & ? & _).
    by exists zx. }
  exists bm, (Fin z). split; [done|]. split; [done|].
  destruct (first_ply_value ai board w Hwf Hai Hopp Hw) as (zw & Hzw & Hvw).
  rewrite Hwins in Hvw. subst zw.
  pose proof (Hmax w 10 Hw Hzw) as Hge.
  destruct (first_ply_value ai board bm Hwf Hai Hopp Hin) as (zb & Hzb & Hvb).
  rewrite Hbm in Hzb. simplify_eq.
  destruct (winning ai board bm); [done | lia].
Qed.

Lemma expert_selects_win :
  ∃ bm bs, selectBest (expertScore ai board) (getAvailableMoves board)
           = Some (Some bm, bs)
           ∧ bm ∈ getAvailableMoves board ∧ winning ai board bm = true.
Proof.
  rewrite (selectBest_ext (expertScore ai board) (hardScore ai board))
    by (intros x _; by apply expertScore_hardScore).
  apply hard_selects_win.
Qed.

(** With the positional bonus a winning edge move ties with a centre
    move that wins two plies later; every other candidate is beaten. *)
Lemma impossible_selects_win_or_center :
  ∃ bm bs, selectBest (impossibleScore ai board) (getAvailableMoves board)
           = Some (Some bm, bs)
           ∧ bm ∈ getAvailableMoves board
           ∧ (winning ai board bm = true ∨ bm = mkPosition 1 1)
           ∧ (isCenterOrCorner w = true → winning ai board bm = true).
Proof.
  destruct (selectBest_max (impossibleScore ai board)
              (getAvailableMoves board))
    as (bm & z & Hsel & Hin & Hbm & Hmax); [apply moves_nonempty | |].
  { intros x Hx.
    destruct (hardScore_some ai board x Hwf Hx) as (zx & _ & _ & ?).
    by eexists. }
  exists bm, (Fin z). split; [done|]. split; [done|].
  destruct (hardScore_some ai board w Hwf Hw) as (zw & Hzw & _ & Hiw).
  destruct (first_ply_value ai board w Hwf Hai Hopp Hw) as (zw' & Hzw' & Hvw).
  rewrite Hzw in Hzw'. rewrite Hwins in Hvw. simplify_eq.
  pose proof (Hmax w _ Hw Hiw) as Hge.
  destruct (hardScore_some ai board bm Hwf Hin) as (zb & Hzb & _ & Hib).
  destruct (first_ply_value ai board bm Hwf Hai Hopp Hin)
    as (zb' & Hzb' & Hvb).
  rewrite Hzb in Hzb'. rewrite Hbm in Hib. simplify_eq.
  pose proof (getPositionalScore_range w).
  pose proof (getPositionalScore_range bm).
  destruct (winning ai board bm); [by auto|].
  split.
  - right. apply getPositionalScore_center. lia.
  - intros Hcc. apply getPositionalScore_corner in Hcc. lia.
Qed.

End ImmediateWin.

(** ** The decision engine: results *)

(** C1.  On every 3x3 board, for every depth and either value of the
    maximizing flag, [minimax] and [minimaxAlphaBeta] called with the window
    [(-Infinity, Infinity)] both return, and they return the same score. *)
Theorem minimax_alphabeta_same_score (ai : AdvancedAIPlayer)
    (board : BoardState) (depth : Z) (isMaximizing : bool) :
  wf_board board →
  ∃ v : num,
    minimax searchFuel ai board depth isMaximizing = Some v
    ∧ minimaxAlphaBeta searchFuel ai board depth NegInf PosInf isMaximizing
      = Some v.
Proof. apply minimax_alphabeta_same_score_aux. Qed.

Lemma minimax_alphabeta_same_score_witness :
  wf_board sampleBoard
  ∧ ∃ v : num,
      minimax searchFuel (AI.new X Hard) sampleBoard 0 true = Some v
      ∧ minimaxAlphaBeta searchFuel (AI.new X Hard) sampleBoard 0 NegInf PosInf
          true = Some v.
Proof.
  split; [apply wf_board_grid|].
  apply (minimax_alphabeta_same_score (AI.new X Hard) sampleBoard 0 true).
  apply wf_board_grid.
Defined.

(** C2.  On a 3x3 board with at least one legal move [getBestMove]
    returns a move whose position is one of the legal moves, whatever
    the difficulty; with no legal move it throws the error
    "No available moves", whatever the difficulty.  The random index
    drawn by the Easy and Medium tiers is below the length it is drawn
    for. *)
Theorem getBestMove_move_or_error (rnd : nat → nat) (ai : AdvancedAIPlayer)
    (board : BoardState) :
  wf_board board →
  (∀ n, (0 < n)%nat → (rnd n < n)%nat) →
  (getAvailableMoves board ≠ [] →
   ∃ move ai' pos,
     getBestMove searchFuel rnd ai board = Ok (move, ai')
     ∧ position move = Some pos
     ∧ pos ∈ getAvailableMoves board)
  ∧ (getAvailableMoves board = [] →
     getBestMove searchFuel rnd ai board = Throw "No available moves").
Proof.
  intros Hwf Hrnd. split; [|apply getBestMove_throw].
  intros Hne.
  destruct (getBestMove_legal_aux rnd ai board Hwf)
    as (move & ai' & Hrun & pos & Hpos & Hin); [done | done |].
  by exists move, ai', pos.
Qed.

Lemma getBestMove_move_or_error_witness :
  (∃ move ai' pos,
     getBestMove searchFuel firstIndex (AI.new X Expert) sampleBoard
     = Ok (move, ai')
     ∧ position move = Some pos
     ∧ pos ∈ getAvailableMoves sampleBoard)
  ∧ getBestMove searchFuel firstIndex (AI.new X Expert) fullBoard
    = Throw "No available moves".
Proof.
  split.
  - apply (getBestMove_move_or_error firstIndex (AI.new X Expert) sampleBoard).
    + apply wf_board_grid.
    + intros n Hn. unfold firstIndex. lia.
    + vm_compute. discriminate.
  - apply (getBestMove_move_or_error firstIndex (AI.new X Expert) fullBoard).
    + apply wf_board_grid.
    + intros n Hn. unfold firstIndex. lia.
    + reflexivity.
Defined.

(** C10.  On a 3x3 board with at least one legal move, at every difficulty,
    the position of the returned move is defined, has row and column in
    [0,2], and names a cell of the input board that is empty.  The random
    index drawn by the Easy and Medium tiers is below the length it is
    drawn for. *)
Theorem getBestMove_position_legal (rnd : nat → nat) (ai : AdvancedAIPlayer)
    (board : BoardState) :
  wf_board board →
  (∀ n, (0 < n)%nat → (rnd n < n)%nat) →
  getAvailableMoves board ≠ [] →
  ∃ move ai' pos,
    getBestMove searchFuel rnd ai board = Ok (move, ai')
    ∧ position move = Some pos
    ∧ (row pos ≤ 2)%nat ∧ (col pos ≤ 2)%nat
    ∧ cellAt board (row pos) (col pos) = Some None.
Proof.
  intros Hwf Hrnd Hne.
  destruct (getBestMove_legal_aux rnd ai board Hwf)
    as (move & ai' & Hrun & pos & Hpos & Hin); [done | done |].
  exists move, ai', pos. split; [done|]. split; [done|].
  apply elem_of_getAvailableMoves in Hin as (Hr & Hc & Hn).
  apply bool_decide_eq_true in Hn. repeat split; [lia | lia | done].
Qed.

Lemma getBestMove_position_legal_witness :
  ∃ move ai' pos,
    getBestMove searchFuel firstIndex (AI.new O Medium) sampleBoard
    = Ok (move, ai')
    ∧ position move = Some pos
    ∧ (row pos ≤ 2)%nat ∧ (col pos ≤ 2)%nat
    ∧ cellAt sampleBoard (row pos) (col pos) = Some None.
Proof.
  apply (getBestMove_position_legal firstIndex (AI.new O Medium) sampleBoard).
  - apply wf_board_grid.
  - intros n Hn. unfold firstIndex. lia.
  - vm_compute. discriminate.
Defined.

(** C3, as the code has it.  On a 3x3 board where the opponent has no
    completed line and the active player has an immediately winning legal
    move, the Hard and Expert tiers select an immediately winning move; the
    Impossible tier does so when the pattern memory does not short-circuit
    and some winning move is the centre or a corner. *)
Theorem winning_move_selected (rnd : nat → nat) (ai : AdvancedAIPlayer)
    (board : BoardState) (w : Position) :
  wf_board board → wf_ai ai →
  checkWin board (opponent ai) = false →
  w ∈ getAvailableMoves board → winning ai board w = true →
  difficulty ai = Hard ∨ difficulty ai = Expert
  ∨ (difficulty ai = Impossible ∧ getPatternMove ai board = None
     ∧ isCenterOrCorner w = true) →
  ∃ move ai' pos,
    getBestMove searchFuel rnd ai board = Ok (move, ai')
    ∧ position move = Some pos
    ∧ pos ∈ getAvailableMoves board
    ∧ winning ai board pos = true.
Proof.
  intros Hwf Hai Hopp Hw Hwins Htier.
  rewrite getBestMove_dispatch by (by eapply moves_nonempty).
  destruct Htier as [Hd|[Hd|(Hd & Hpm & Hcc)]]; rewrite Hd.
  - destruct (hard_selects_win ai board w) as (bm & bs & Hsel & Hin & Hbm);
      try done.
    rewrite (getHardMove_select _ _ _ _ Hsel). simpl.
    by eexists _, _, bm.
  - destruct (expert_selects_win ai board w) as (bm & bs & Hsel & Hin & Hbm);
      try done.
    rewrite (getExpertMove_select _ _ _ _ Hsel). simpl.
    by eexists _, _, bm.
  - destruct (impossible_selects_win_or_center ai board w)
      as (bm & bs & Hsel & Hin & _ & Hbm); try done.
    rewrite (getImpossibleMove_select _ _ _ _ Hpm Hsel). simpl.
    eexists _, _, bm. auto.
Qed.

Lemma winning_move_selected_witness :
  ∃ move ai' pos,
    getBestMove searchFuel firstIndex (AI.new X Hard) sampleBoard
    = Ok (move, ai')
    ∧ position move = Some pos
    ∧ pos ∈ getAvailableMoves sampleBoard
    ∧ winning (AI.new X Hard) sampleBoard pos = true.
Proof.
  apply (winning_move_selected firstIndex (AI.new X Hard) sampleBoard
           (mkPosition 1 2)).
  - apply wf_board_grid.
  - reflexivity.
  - reflexivity.
  - apply elem_of_getAvailableMoves. simpl.
    split; [lia | split; [lia | reflexivity]].
  - reflexivity.
  - left. reflexivity.
Defined.

(** C3 as stated fails for the Impossible tier.  On the board
    [_ O X / _ _ _ / _ O X] with X to move and an empty pattern memory, the
    edge move (1,2) wins at once, but the positional bonus makes the centre
    (total 8 + 3) tie with it (total 10 + 1); the centre comes first and is
    returned, and it does not win. *)
Lemma impossible_prefers_center_to_win :
  wf_board sampleBoard
  ∧ checkWin sampleBoard O = false
  ∧ mkPosition 1 2 ∈ getAvailableMoves sampleBoard
  ∧ winning (AI.new X Impossible) sampleBoard (mkPosition 1 2) = true
  ∧ ∃ move ai',
      getBestMove searchFuel firstIndex (AI.new X Impossible) sampleBoard
      = Ok (move, ai')
      ∧ position move = Some (mkPosition 1 1)
      ∧ score move = Fin 11
      ∧ winning (AI.new X Impossible) sampleBoard (mkPosition 1 1) = false.
Proof.
  split; [apply wf_board_grid|]. split; [reflexivity|].
  split; [apply elem_of_getAvailableMoves; simpl;
          split; [lia | split; [lia | reflexivity]]|].
  split; [reflexivity|].
  eexists _, _. split; [vm_compute; reflexivity|].
  split; [reflexivity|]. split; reflexivity.
Qed.

(** The same claim also needs the game to be still open: once the opponent
    X has completed a line, every trial board scores -10 for O and the Hard
    tier returns the first legal move, here (1,0), although (2,2) would
    complete a line for O. *)
Lemma hard_after_opponent_line :
  winning (AI.new O Hard) wonBoard (mkPosition 2 2) = true
  ∧ ∃ move ai',
      getBestMove searchFuel firstIndex (AI.new O Hard) wonBoard
      = Ok (move, ai')
      ∧ position move = Some (mkPosition 1 0)
      ∧ winning (AI.new O Hard) wonBoard (mkPosition 1 0) = false.
Proof.
  split; [reflexivity|].
  eexists _, _. split; [vm_compute; reflexivity|]. split; reflexivity.
Qed.

(** When the pattern memory does not short-circuit, an Impossible-tier
    move on such a board is a winning move or the centre. *)
Lemma impossible_win_or_center (rnd : nat → nat) (ai : AdvancedAIPlayer)
    (board : BoardState) (w : Position) :
  wf_board board → wf_ai ai →
  checkWin board (opponent ai) = false →
  w ∈ getAvailableMoves board → winning ai board w = true →
  difficulty ai = Impossible → getPatternMove ai board = None →
  ∃ move ai' pos,
    getBestMove searchFuel rnd ai board = Ok (move, ai')
    ∧ position move = Some pos
    ∧ (winning ai board pos = true ∨ pos = mkPosition 1 1).
Proof.
  intros Hwf Hai Hopp Hw Hwins Hd Hpm.
  rewrite getBestMove_dispatch by (by eapply moves_nonempty). rewrite Hd.
  destruct (impossible_selects_win_or_center ai board w)
    as (bm & bs & Hsel & Hin & Hbm & _); try done.
  rewrite (getImpossibleMove_select _ _ _ _ Hpm Hsel). simpl.
  by eexists _, _, bm.
Qed.

(** C9.  When the pattern memory holds a count above 5 for the board's
    fingerprint, the Impossible tier returns the first legal move in
    row-major order, with the count as score, and leaves the engine as it
    was.  This holds for every amount of search fuel, zero included: the
    search is not entered.  The move does not depend on what was selected
    when the count was incremented. *)
Theorem pattern_short_circuit (fuel : nat) (rnd : nat → nat)
    (ai : AdvancedAIPlayer) (board : BoardState) (n : Z) :
  difficulty ai = Impossible →
  getAvailableMoves board ≠ [] →
  patternMemory ai !! boardToPattern board = Some n → 5 < n →
  ∃ pos,
    getAvailableMoves board !! 0%nat = Some pos
    ∧ pos ∈ getAvailableMoves board
    ∧ getBestMove fuel rnd ai board
      = Ok ({| position := Some pos; score := Fin n; confidence := 9 # 10;
               strategy := "Pattern Recognition" |}, ai).
Proof.
  intros Hd Hne Hn Hgt.
  rewrite getBestMove_dispatch by done. rewrite Hd.
  unfold getImpossibleMove. rewrite (getPatternMove_hit ai board n Hn Hgt).
  destruct (getAvailableMoves board) as [|pos moves]; [done|].
  exists pos. split; [done|]. split; [by left | done].
Qed.

Lemma pattern_short_circuit_witness :
  ∃ pos,
    getAvailableMoves sampleBoard !! 0%nat = Some pos
    ∧ pos ∈ getAvailableMoves sampleBoard
    ∧ getBestMove 0 firstIndex reinforcedEngine sampleBoard
      = Ok ({| position := Some pos; score := Fin 6; confidence := 9 # 10;
               strategy := "Pattern Recognition" |}, reinforcedEngine).
Proof.
  apply (pattern_short_circuit 0 firstIndex reinforcedEngine sampleBoard 6).
  - reflexivity.
  - vm_compute. discriminate.
  - vm_compute. reflexivity.
  - lia.
Defined.

(** The replayed move is not the reinforced one: six Impossible-tier
    searches on the sample board select the centre each time and bring the
    count to 6; the seventh call replays (0,0), which was never selected. *)
Lemma pattern_replay_is_not_the_reinforced_move :
  ∃ ai6,
    askRepeatedly 6 (AI.new X Impossible) sampleBoard
    = (replicate 6 (Some (mkPosition 1 1)), ai6)
    ∧ patternMemory ai6 !! boardToPattern sampleBoard = Some 6
    ∧ ∃ move,
        getBestMove 0 firstIndex ai6 sampleBoard = Ok (move, ai6)
        ∧ position move = Some (mkPosition 0 0)
        ∧ strategy move = "Pattern Recognition".
Proof.
  eexists. split; [vm_compute; reflexivity|].
  split; [vm_compute; reflexivity|].
  eexists. split; [vm_compute; reflexivity|]. split; reflexivity.
Qed.

(** ** The tournament system: stores and frames *)

Lemma alloc_old {A : Type} (m : gmap nat A) (i : nat) (x y : A) :
  m !! i = Some x → <[fresh (dom m) := y]> m !! i = Some x.
Proof.
  intros H. rewrite lookup_insert_ne; [done|].
  intros <-. apply (is_fresh (dom m)). apply elem_of_dom. by eexists.
Qed.

Lemma alloc_new {A : Type} (m : gmap nat A) (y : A) :
  <[fresh (dom m) := y]> m !! fresh (dom m) = Some y.
Proof. apply lookup_insert_eq. Qed.

Lemma alloc_fresh {A : Type} (m : gmap nat A) (i : nat) (x : A) :
  m !! i = Some x → i ≠ fresh (dom m).
Proof.
  intros H ->. apply (is_fresh (dom m)). apply elem_of_dom. by eexists.
Qed.

Lemma sameCore_refl (t : Tournament) : sameCore t t.
Proof. unfold sameCore. split_and!; try done. Qed.

Lemma sameCore_trans (t1 t2 t3 : Tournament) :
  sameCore t1 t2 → sameCore t2 t3 → sameCore t1 t3.
Proof.
  intros (? & ? & ? & ? & ?) (? & ? & ? & ? & ?).
  unfold sameCore. split_and!; congruence.
Qed.

Lemma grows_refl (s : TournamentSystem) : grows s s.
Proof. unfold grows. split_and!; try done. Qed.

Lemma grows_trans (s1 s2 s3 : TournamentSystem) :
  grows s1 s2 → grows s2 s3 → grows s1 s3.
Proof.
  intros (? & ? & ? & ? & H12 & I12) (? & ? & ? & ? & H23 & I23).
  unfold grows. split_and!; try congruence; auto.
Qed.

Lemma pushMatch_eq (rng : Random) (s : TournamentSystem) (t : Tournament)
    (player1 player2 : option nat) (roundNumber : Z) :
  pushMatch rng s t player1 player2 roundNumber =
  (fresh (dom (matchObjs s)),
   setMatches t (t_matches t ++ [fresh (dom (matchObjs s))]),
   mkSystem (tournaments s) (playerDatabase s) (matchHistory s)
     (playerObjs s) (statsObjs s)
     (<[fresh (dom (matchObjs s)) :=
          pendingMatch (randomId rng (randomCalls s)) player1 player2
            roundNumber]> (matchObjs s))
     (S (randomCalls s))).
Proof. reflexivity. Qed.

#[local] Arguments pushMatch : simpl never.
#[local] Arguments generateId : simpl never.

Lemma pushMatch_grows (rng : Random) (s : TournamentSystem) (t : Tournament)
    (player1 player2 : option nat) (roundNumber : Z) :
  is_Some player1 → is_Some player2 →
  sameCore t (pushMatch rng s t player1 player2 roundNumber).1.2
  ∧ grows s (pushMatch rng s t player1 player2 roundNumber).2.
Proof.
  intros H1 H2. rewrite pushMatch_eq. simpl.
  split; [unfold sameCore; split_and!; try done|].
  unfold grows. split_and!; try done; simpl.
  - intros r m Hr. by apply alloc_old.
  - intros Hinv r m Hr. simpl in Hr.
    apply lookup_insert_Some in Hr as [[_ <-]|[_ Hr]].
    + done.
    + by eapply Hinv.
Qed.

Lemma generateId_grows (rng : Random) (s : TournamentSystem) :
  grows s (generateId rng s).2.
Proof. unfold grows. split_and!; try done. Qed.

Lemma pairSlots_pair (rng : Random) (s : TournamentSystem) (t : Tournament)
    (player1 player2 : nat) (rest : list (option nat)) (roundNumber : Z) :
  pairSlots rng s t (Some player1 :: Some player2 :: rest) roundNumber =
  (let '(ref, t, s) :=
     pushMatch rng s t (Some player1) (Some player2) roundNumber in
   let '(roundMatches, t, s) := pairSlots rng s t rest roundNumber in
   (ref :: roundMatches, t, s)).
Proof. reflexivity. Qed.

Lemma pairSlots_grows (rng : Random) (players : list (option nat))
    (roundNumber : Z) :
  ∀ s t,
    sameCore t (pairSlots rng s t players roundNumber).1.2
    ∧ grows s (pairSlots rng s t players roundNumber).2.
Proof.
  induction players as [players IH] using (induction_ltof1 _ length).
  unfold ltof in IH. intros s t.
  destruct players as [|p1 [|p2 rest]].
  { split; [apply sameCore_refl | apply grows_refl]. }
  { destruct p1; split; (apply sameCore_refl || apply grows_refl). }
  destruct p1 as [player1|], p2 as [player2|];
    try (apply (IH rest); simpl; lia).
  rewrite pairSlots_pair.
  destruct (pushMatch_grows rng s t (Some player1) (Some player2) roundNumber)
    as [Hc Hg]; [done | done |].
  destruct (pushMatch rng s t (Some player1) (Some player2) roundNumber)
    as [[ref t1] s1]. simpl in Hc, Hg.
  destruct (IH rest ltac:(simpl; lia) s1 t1) as [Hc' Hg'].
  destruct (pairSlots rng s1 t1 rest roundNumber) as [[ms t2] s2].
  simpl in *.
  split; [eapply sameCore_trans; eassumption | eapply grows_trans; eassumption].
Qed.

Lemma eliminationRounds_grows (rng : Random) (fuel : nat) :
  ∀ s t players roundNumber t' s',
    eliminationRounds fuel rng s t players roundNumber = Some (t', s') →
    sameCore t t' ∧ grows s s'.
Proof.
  induction fuel as [|fuel IH]; intros s t players roundNumber t' s'; simpl.
  - case_bool_decide; [done|]. intros [= <- <-].
    split; [apply sameCore_refl | apply grows_refl].
  - case_bool_decide.
    2:{ intros [= <- <-]. split; [apply sameCore_refl | apply grows_refl]. }
    destruct (pairSlots_grows rng players roundNumber s t) as [Hc Hg].
    destruct (pairSlots rng s t players roundNumber) as [[ms t1] s1].
    simpl in Hc, Hg. intros Hrun. apply IH in Hrun as [Hc' Hg'].
    split; [|eapply grows_trans; eassumption].
    eapply sameCore_trans; [exact Hc|].
    eapply sameCore_trans; [|exact Hc']. unfold sameCore. by split_and!.
Qed.

Lemma generateSingleEliminationBracket_grows (rng : Random)
    (s : TournamentSystem) (t t' : Tournament) (s' : TournamentSystem) :
  generateSingleEliminationBracket rng s t = Some (t', s') →
  sameCore t t' ∧ grows s s'.
Proof.
  unfold generateSingleEliminationBracket. intros Hrun.
  apply eliminationRounds_grows in Hrun as [Hc Hg]. split; [|done].
  eapply sameCore_trans; [|exact Hc]. unfold sameCore. by split_and!.
Qed.

Lemma drawIds_grows (rng : Random) {A : Type} (xs : list A) :
  ∀ s, grows s (foldl (λ s _, (generateId rng s).2) s xs).
Proof.
  induction xs as [|x xs IH]; intros s; simpl; [apply grows_refl|].
  eapply grows_trans; [apply (generateId_grows rng s) | apply IH].
Qed.

Lemma generateDoubleEliminationBracket_grows (rng : Random)
    (s : TournamentSystem) (t t' : Tournament) (s' : TournamentSystem) :
  generateDoubleEliminationBracket rng s t = Some (t', s') →
  sameCore t t' ∧ grows s s'.
Proof.
  unfold generateDoubleEliminationBracket.
  destruct (generateSingleEliminationBracket rng s t) as [[t1 s1]|] eqn:Hse;
    [|done].
  apply generateSingleEliminationBracket_grows in Hse as [Hc Hg].
  simpl. intros [= <- <-]. split.
  - eapply sameCore_trans; [exact Hc|]. unfold sameCore. by split_and!.
  - eapply grows_trans; [exact Hg|].
    eapply grows_trans; [|apply (generateId_grows rng)].
    apply (drawIds_grows rng (concat (rounds (t_bracket t1))) s1).
Qed.

Lemma pairWithRest_grows (rng : Random) (player : nat) (rest : list nat) :
  ∀ s t,
    sameCore t (pairWithRest rng s t player rest).1
    ∧ grows s (pairWithRest rng s t player rest).2.
Proof.
  induction rest as [|other rest IH]; intros s t;
    [split; [apply sameCore_refl | apply grows_refl]|].
  change (pairWithRest rng s t player (other :: rest)) with
    (let '(_, t, s) := pushMatch rng s t (Some player) (Some other) 1 in
     pairWithRest rng s t player rest).
  destruct (pushMatch_grows rng s t (Some player) (Some other) 1)
    as [Hc Hg]; [done | done |].
  destruct (pushMatch rng s t (Some player) (Some other) 1) as [[ref t1] s1].
  simpl in Hc, Hg. destruct (IH s1 t1) as [Hc' Hg'].
  split; [eapply sameCore_trans; eassumption | eapply grows_trans; eassumption].
Qed.

Lemma allPairings_grows (rng : Random) (players : list nat) :
  ∀ s t,
    sameCore t (allPairings rng s t players).1
    ∧ grows s (allPairings rng s t players).2.
Proof.
  induction players as [|player rest IH]; intros s t; simpl;
    [split; [apply sameCore_refl | apply grows_refl]|].
  destruct (pairWithRest_grows rng player rest s t) as [Hc Hg].
  destruct (pairWithRest rng s t player rest) as [t1 s1]. simpl in Hc, Hg.
  destruct (IH s1 t1) as [Hc' Hg'].
  split; [eapply sameCore_trans; eassumption | eapply grows_trans; eassumption].
Qed.

Lemma generateRoundRobinBracket_grows (rng : Random) (s : TournamentSystem)
    (t : Tournament) :
  sameCore t (generateRoundRobinBracket rng s t).1
  ∧ grows s (generateRoundRobinBracket rng s t).2.
Proof.
  unfold generateRoundRobinBracket.
  destruct (allPairings_grows rng (t_players t) s t) as [Hc Hg].
  destruct (allPairings rng s t (t_players t)) as [t1 s1]. simpl in *.
  split; [|done]. eapply sameCore_trans; [exact Hc|].
  unfold sameCore. by split_and!.
Qed.

Lemma shuffleFrom_grows (rng : Random) {A : Type} (i : nat) :
  ∀ s (array : list A), grows s (shuffleFrom rng s array i).2.
Proof.
  induction i as [|i IH]; intros s array; simpl; [apply grows_refl|].
  eapply grows_trans; [|apply IH]. unfold grows. by split_and!.
Qed.

Lemma pairConsecutive_grows (rng : Random) (players : list nat)
    (roundNumber : Z) :
  ∀ s t,
    sameCore t (pairConsecutive rng s t players roundNumber).1.2
    ∧ grows s (pairConsecutive rng s t players roundNumber).2.
Proof.
  induction players as [players IH] using (induction_ltof1 _ length).
  unfold ltof in IH. intros s t.
  destruct players as [|player1 [|player2 rest]];
    try (split; [apply sameCore_refl | apply grows_refl]).
  change (pairConsecutive rng s t (player1 :: player2 :: rest) roundNumber)
    with (let '(ref, t, s) :=
            pushMatch rng s t (Some player1) (Some player2) roundNumber in
          let '(roundMatches, t, s) :=
            pairConsecutive rng s t rest roundNumber in
          (ref :: roundMatches, t, s)).
  destruct (pushMatch_grows rng s t (Some player1) (Some player2) roundNumber)
    as [Hc Hg]; [done | done |].
  destruct (pushMatch rng s t (Some player1) (Some player2) roundNumber)
    as [[ref t1] s1]. simpl in Hc, Hg.
  destruct (IH rest ltac:(simpl; lia) s1 t1) as [Hc' Hg'].
  destruct (pairConsecutive rng s1 t1 rest roundNumber) as [[ms t2] s2].
  simpl in *.
  split; [eapply sameCore_trans; eassumption | eapply grows_trans; eassumption].
Qed.

Lemma generateSwissBracket_grows (rng : Random) (s : TournamentSystem)
    (t : Tournament) :
  sameCore t (generateSwissBracket rng s t).1
  ∧ grows s (generateSwissBracket rng s t).2.
Proof.
  unfold generateSwissBracket, shuffleArray.
  pose proof (shuffleFrom_grows rng (length (t_players t) - 1) s (t_players t))
    as Hs.
  destruct (shuffleFrom rng s (t_players t) (length (t_players t) - 1))
    as [players s1]. simpl in Hs.
  destruct (pairConsecutive_grows rng players 1 s1 t) as [Hc Hg].
  destruct (pairConsecutive rng s1 t players 1) as [[ms t1] s2]. simpl in *.
  split; [|eapply grows_trans; eassumption].
  eapply sameCore_trans; [exact Hc|]. unfold sameCore. by split_and!.
Qed.

Lemma generateBracket_grows (rng : Random) (s : TournamentSystem)
    (t t' : Tournament) (s' : TournamentSystem) :
  generateBracket rng s t = Some (t', s') → sameCore t t' ∧ grows s s'.
Proof.
  unfold generateBracket. destruct (t_type t).
  - apply generateSingleEliminationBracket_grows.
  - apply generateDoubleEliminationBracket_grows.
  - intros [= Heq].
    pose proof (generateRoundRobinBracket_grows rng s t) as H.
    by rewrite Heq in H.
  - intros [= Heq].
    pose proof (generateSwissBracket_grows rng s t) as H.
    by rewrite Heq in H.
Qed.

(** ** Bracket generation returns *)

Lemma pairSlots_length (rng : Random) (players : list (option nat))
    (roundNumber : Z) :
  ∀ s t,
    (2 * length (pairSlots rng s t players roundNumber).1.1
     ≤ length players)%nat.
Proof.
  induction players as [players IH] using (induction_ltof1 _ length).
  unfold ltof in IH. intros s t.
  destruct players as [|p1 [|p2 rest]].
  { simpl. lia. }
  { destruct p1; simpl; lia. }
  destruct p1 as [player1|], p2 as [player2|];
    try (specialize (IH rest ltac:(simpl; lia) s t); simpl in *; lia).
  rewrite pairSlots_pair.
  destruct (pushMatch rng s t (Some player1) (Some player2) roundNumber)
    as [[ref t1] s1].
  specialize (IH rest ltac:(simpl; lia) s1 t1).
  destruct (pairSlots rng s1 t1 rest roundNumber) as [[ms t2] s2].
  simpl in *. lia.
Qed.

(** The loop over the rounds ends: each round leaves at most half as many
    slots. *)
Lemma eliminationRounds_total (rng : Random) (fuel : nat) :
  ∀ s t players roundNumber,
    (length players ≤ fuel)%nat →
    is_Some (eliminationRounds fuel rng s t players roundNumber).
Proof.
  induction fuel as [|fuel IH]; intros s t players roundNumber Hlen; simpl.
  - case_bool_decide; [lia | by eexists].
  - case_bool_decide; [|by eexists].
    pose proof (pairSlots_length rng players roundNumber s t) as Hhalf.
    destruct (pairSlots rng s t players roundNumber) as [[ms t1] s1].
    simpl in Hhalf. apply IH. rewrite length_fmap. lia.
Qed.

Lemma generateBracket_total (rng : Random) (s : TournamentSystem)
    (t : Tournament) :
  is_Some (generateBracket rng s t).
Proof.
  assert (is_Some (generateSingleEliminationBracket rng s t)) as Hse
    by (by apply eliminationRounds_total).
  unfold generateBracket. destruct (t_type t); try done.
  unfold generateDoubleEliminationBracket.
  destruct Hse as [[t1 s1] ->]. by eexists.
Qed.

(** [createTournament] returns a tournament or throws. *)
Lemma createTournament_returns (rng : Random) (s : TournamentSystem)
    (name : string) (type : Format) (playerIds : list string) :
  createTournament rng s name type playerIds ≠ OutOfFuel.
Proof.
  unfold createTournament. case_bool_decide; [done|].
  destruct (clonePlayers s playerIds) as [missing|[players s1]]; [done|].
  destruct (generateId rng s1) as [id s2].
  match goal with
  | |- context [generateBracket rng s2 ?t0] =>
      destruct (generateBracket_total rng s2 t0) as [[t1 s3] ->]
  end.
  done.
Qed.

(** ** Reporting a result *)

Lemma find_elem {A : Type} (f : A → bool) (l : list A) (x : A) :
  List.find f l = Some x → x ∈ l ∧ f x = true.
Proof.
  intros H. apply find_some in H as [Hin Hf].
  split; [by apply list_elem_of_In | done].
Qed.

Lemma matchesOf_lookup (s : TournamentSystem) (t : Tournament) (ref : nat)
    (m : Match) :
  (ref, m) ∈ matchesOf s t → matchObjs s !! ref = Some m.
Proof.
  unfold matchesOf. intros H. apply list_elem_of_omap in H as (r & _ & Hr).
  destruct (matchObjs s !! r) as [m0|] eqn:E; simplify_eq/=. done.
Qed.

Lemma updatePlayer_frame (s : TournamentSystem) (ref : option nat)
    (won drew : bool) :
  tournaments (updatePlayer s ref won drew) = tournaments s
  ∧ playerDatabase (updatePlayer s ref won drew) = playerDatabase s
  ∧ playerObjs (updatePlayer s ref won drew) = playerObjs s
  ∧ matchObjs (updatePlayer s ref won drew) = matchObjs s
  ∧ randomCalls (updatePlayer s ref won drew) = randomCalls s.
Proof.
  unfold updatePlayer. destruct (ref ≫= _) as [player|]; [|done].
  destruct (statsObjs s !! p_stats player); done.
Qed.

Lemma updatePlayerStats_frame (s : TournamentSystem) (m : Match) :
  tournaments (updatePlayerStats s m) = tournaments s
  ∧ playerDatabase (updatePlayerStats s m) = playerDatabase s
  ∧ playerObjs (updatePlayerStats s m) = playerObjs s
  ∧ matchObjs (updatePlayerStats s m) = matchObjs s
  ∧ randomCalls (updatePlayerStats s m) = randomCalls s.
Proof.
  unfold updatePlayerStats. destruct (m_result m); try done;
    match goal with
    | |- context [updatePlayer (updatePlayer ?s0 ?r1 ?w1 ?d1) ?r2 ?w2 ?d2] =>
        destruct (updatePlayer_frame s0 r1 w1 d1) as (? & ? & ? & ? & ?);
        destruct (updatePlayer_frame (updatePlayer s0 r1 w1 d1) r2 w2 d2)
          as (? & ? & ? & ? & ?)
    end; split_and!; congruence.
Qed.

Lemma setElo_frame (s : TournamentSystem) (ref : option nat) (v : Elo) :
  tournaments (setElo s ref v) = tournaments s
  ∧ playerDatabase (setElo s ref v) = playerDatabase s
  ∧ statsObjs (setElo s ref v) = statsObjs s
  ∧ matchObjs (setElo s ref v) = matchObjs s
  ∧ randomCalls (setElo s ref v) = randomCalls s.
Proof.
  unfold setElo. destruct ref as [r|]; [|done].
  destruct (playerObjs s !! r); done.
Qed.

Lemma updateELORatings_frame (s : TournamentSystem) (m : Match) :
  tournaments (updateELORatings s m) = tournaments s
  ∧ playerDatabase (updateELORatings s m) = playerDatabase s
  ∧ statsObjs (updateELORatings s m) = statsObjs s
  ∧ matchObjs (updateELORatings s m) = matchObjs s
  ∧ randomCalls (updateELORatings s m) = randomCalls s.
Proof.
  unfold updateELORatings.
  destruct (m_result m); try done;
    destruct (m_player1 m ≫= _); try done;
    destruct (m_player2 m ≫= _); try done;
    match goal with
    | |- context [setElo (setElo ?s0 ?r1 ?v1) ?r2 ?v2] =>
        destruct (setElo_frame s0 r1 v1) as (? & ? & ? & ? & ?);
        destruct (setElo_frame (setElo s0 r1 v1) r2 v2) as (? & ? & ? & ? & ?)
    end; split_and!; congruence.
Qed.

Lemma recorded_frame (s : TournamentSystem) (ref : nat) (m : Match)
    (result : MatchResult) (now : nat) :
  tournaments (recorded s ref m result now) = tournaments s
  ∧ playerDatabase (recorded s ref m result now) = playerDatabase s
  ∧ randomCalls (recorded s ref m result now) = randomCalls s
  ∧ matchObjs (recorded s ref m result now)
    = <[ref := mkMatch (m_id m) (m_player1 m) (m_player2 m) result
                 (m_roundNumber m) (m_startTime m) (Some now) (m_moves m)]>
        (matchObjs s).
Proof.
  unfold recorded.
  set (m' := mkMatch _ _ _ _ _ _ _ _).
  set (s1 := setMatchObjs s _).
  destruct (updatePlayerStats_frame s1 m') as (? & ? & ? & ? & ?).
  destruct (updateELORatings_frame (updatePlayerStats s1 m') m')
    as (? & ? & ? & ? & ?).
  assert (matchObjs s1 = <[ref := m']> (matchObjs s)) by done.
  assert (tournaments s1 = tournaments s) by done.
  assert (playerDatabase s1 = playerDatabase s) by done.
  assert (randomCalls s1 = randomCalls s) by done.
  split_and!; congruence.
Qed.

Lemma reportMatchResult_eq (rng : Random) (s : TournamentSystem)
    (tournamentId matchId : string) (result : MatchResult) (now : nat)
    (t : Tournament) (ref : nat) (m : Match) :
  tournaments s !! tournamentId = Some t →
  List.find (λ rm : nat * Match, bool_decide (m_id rm.2 = matchId))
            (matchesOf s t) = Some (ref, m) →
  reportMatchResult rng s tournamentId matchId result now =
  let s2 := recorded s ref m result now in
  let '(t', s3) :=
    if isTournamentComplete s2 t then (completeTournament s2 t now, s2)
    else advanceTournament rng s2 t in
  Ok (setTournaments s3 (<[tournamentId := t']> (tournaments s3))).
Proof.
  intros Ht Hm. unfold reportMatchResult. rewrite Ht, Hm. reflexivity.
Qed.

Lemma isTournamentComplete_find (s : TournamentSystem) (t : Tournament) :
  isTournamentComplete s t = true →
  ∃ ref m,
    List.find (λ rm, inRound (t_totalRounds t) rm.2 && negb (isPending rm.2))
              (matchesOf s t) = Some (ref, m)
    ∧ matchObjs s !! ref = Some m.
Proof.
  unfold isTournamentComplete.
  remember (List.filter (λ rm : nat * Match, inRound (t_totalRounds t) rm.2)
              (matchesOf s t)) as final eqn:E.
  case_bool_decide as Hlen; [done|]. intros Hall.
  destruct final as [|[ref m] rest]; [done|].
  assert (In (ref, m) (List.filter
            (λ rm : nat * Match, inRound (t_totalRounds t) rm.2)
            (matchesOf s t))) as Hin by (rewrite <- E; by left).
  apply filter_In in Hin as [Hin Hround].
  simpl in Hall. apply andb_true_iff in Hall as [Hnp _].
  destruct (List.find _ (matchesOf s t)) as [[ref' m']|] eqn:Hfind.
  - exists ref', m'. split; [done|].
    apply find_elem in Hfind as [Hin' _]. by apply (matchesOf_lookup s t).
  - apply find_none with (x := (ref, m)) in Hfind; [|done].
    simpl in *. rewrite Hround, Hnp in Hfind. done.
Qed.

Lemma winnerInv_sameCore (t t' : Tournament) :
  sameCore t t' → winnerInv t → winnerInv t'.
Proof.
  intros (_ & Hty & Hst & Hw & _) [H1 H2]. unfold winnerInv.
  rewrite Hty, Hst, Hw. done.
Qed.

Lemma completeTournament_eq (s : TournamentSystem) (t : Tournament)
    (now : nat) :
  completeTournament s t now =
  let t' := setEndTime (setStatus t Completed) (Some now) in
  match t_type t with
  | SingleElimination =>
      match List.find (λ rm, inRound (t_totalRounds t) rm.2
                             && negb (isPending rm.2)) (matchesOf s t) with
      | Some (_, m) =>
          setWinner t' (if decide (m_result m = Player1) then m_player1 m
                        else m_player2 m)
      | None => t'
      end
  | _ => t'
  end.
Proof. reflexivity. Qed.

Lemma completeTournament_winnerInv (s : TournamentSystem) (t : Tournament)
    (now : nat) :
  matchInv s → winnerInv t → isTournamentComplete s t = true →
  winnerInv (completeTournament s t now)
  ∧ t_type (completeTournament s t now) = t_type t
  ∧ t_status (completeTournament s t now) = Completed.
Proof.
  intros Hinv [H1 H2] Hcomplete. rewrite completeTournament_eq.
  unfold winnerInv.
  destruct (t_type t) eqn:Hty; simpl; rewrite ?Hty.
  2-4: split_and!; try done; intros Hw; by apply H1 in Hw.
  destruct (isTournamentComplete_find s t Hcomplete) as (ref & m & -> & Hm).
  destruct (Hinv ref m Hm) as [Hp1 Hp2]. simpl. rewrite Hty.
  split_and!; try done. intros _ _. by case_decide.
Qed.

Lemma pairWinners_grows (rng : Random) (winners : list (option nat)) :
  Forall is_Some winners →
  ∀ s t,
    sameCore t (pairWinners rng s t winners).1
    ∧ grows s (pairWinners rng s t winners).2.
Proof.
  induction winners as [winners IH] using (induction_ltof1 _ length).
  unfold ltof in IH. intros Hall s t.
  destruct winners as [|winner1 [|winner2 rest]];
    try (split; [apply sameCore_refl | apply grows_refl]).
  change (pairWinners rng s t (winner1 :: winner2 :: rest)) with
    (let '(_, t, s) :=
       pushMatch rng s t winner1 winner2 (t_currentRound t) in
     pairWinners rng s t rest).
  apply Forall_cons in Hall as [Hw1 Hall].
  apply Forall_cons in Hall as [Hw2 Hall].
  destruct (pushMatch_grows rng s t winner1 winner2 (t_currentRound t))
    as [Hc Hg]; [done | done |].
  destruct (pushMatch rng s t winner1 winner2 (t_currentRound t))
    as [[ref t1] s1]. simpl in Hc, Hg.
  destruct (IH rest ltac:(simpl; lia) Hall s1 t1) as [Hc' Hg'].
  split; [eapply sameCore_trans; eassumption | eapply grows_trans; eassumption].
Qed.

Lemma advanceSingleElimination_grows (rng : Random) (s : TournamentSystem)
    (t : Tournament) :
  matchInv s →
  sameCore t (advanceSingleElimination rng s t).1
  ∧ grows s (advanceSingleElimination rng s t).2.
Proof.
  intros Hinv. unfold advanceSingleElimination.
  set (current := List.filter _ (matchesOf s t)).
  repeat case_bool_decide;
    try (split; [apply sameCore_refl | apply grows_refl]).
  destruct (pairWinners_grows rng
              ((λ rm : nat * Match,
                  match m_result rm.2 with
                  | Player1 => m_player1 rm.2
                  | Player2 => m_player2 rm.2
                  | _ => m_player1 rm.2
                  end) <$> current))
    with (s := s) (t := setCurrentRound t (t_currentRound t + 1))
    as [Hc Hg].
  { apply Forall_fmap, Forall_forall. intros [ref m] Hin. simpl.
    subst current. apply list_elem_of_In, filter_In in Hin as [Hin _].
    apply list_elem_of_In, (matchesOf_lookup s t) in Hin.
    destruct (Hinv ref m Hin). by destruct (m_result m). }
  split; [|done]. eapply sameCore_trans; [|exact Hc].
  unfold sameCore. by split_and!.
Qed.

Lemma advanceTournament_grows (rng : Random) (s : TournamentSystem)
    (t : Tournament) :
  matchInv s →
  sameCore t (advanceTournament rng s t).1
  ∧ grows s (advanceTournament rng s t).2.
Proof.
  intros Hinv. unfold advanceTournament.
  destruct (t_type t); try (split; [apply sameCore_refl | apply grows_refl]).
  by apply advanceSingleElimination_grows.
Qed.

(** ** The invariant is kept by every operation *)

Lemma recorded_matchInv (s : TournamentSystem) (ref : nat) (m : Match)
    (result : MatchResult) (now : nat) :
  matchInv s → matchObjs s !! ref = Some m →
  matchInv (recorded s ref m result now).
Proof.
  intros Hinv Hm r m0.
  destruct (recorded_frame s ref m result now) as (_ & _ & _ & ->).
  intros Hr. apply lookup_insert_Some in Hr as [[_ <-]|[_ Hr]]; simpl.
  - by apply (Hinv ref m).
  - by apply (Hinv r m0).
Qed.

Lemma reportMatchResult_inv (rng : Random) (s s' : TournamentSystem)
    (tournamentId matchId : string) (result : MatchResult) (now : nat) :
  systemInv s →
  reportMatchResult rng s tournamentId matchId result now = Ok s' →
  systemInv s'.
Proof.
  intros [Hm Ht] Hrun.
  destruct (tournaments s !! tournamentId) as [t|] eqn:Hlook;
    [|unfold reportMatchResult in Hrun; by rewrite Hlook in Hrun].
  destruct (List.find (λ rm : nat * Match, bool_decide (m_id rm.2 = matchId))
              (matchesOf s t)) as [[ref m]|] eqn:Hfind;
    [|unfold reportMatchResult in Hrun; by rewrite Hlook, Hfind in Hrun].
  rewrite (reportMatchResult_eq _ _ _ _ _ _ _ _ _ Hlook Hfind) in Hrun.
  apply find_elem in Hfind as [Hin _]. apply (matchesOf_lookup s t) in Hin.
  pose proof (recorded_matchInv s ref m result now Hm Hin) as Hm2.
  destruct (recorded_frame s ref m result now) as (Htour & _ & _ & _).
  set (s2 := recorded s ref m result now) in *.
  pose proof (Ht _ _ Hlook) as Hw.
  simpl in Hrun.
  destruct (isTournamentComplete s2 t) eqn:Hcomplete.
  - injection Hrun as <-.
    destruct (completeTournament_winnerInv s2 t now Hm2 Hw Hcomplete)
      as (Hw' & _ & _).
    split; [exact Hm2|]. simpl. intros id t0 Hid.
    apply lookup_insert_Some in Hid as [[_ <-]|[_ Hid]]; [done|].
    rewrite Htour in Hid. by eapply Ht.
  - destruct (advanceTournament_grows rng s2 t Hm2) as [Hc Hg].
    destruct (advanceTournament rng s2 t) as [t' s3]. simpl in Hc, Hg.
    injection Hrun as <-.
    destruct Hg as (Htour3 & _ & _ & _ & _ & Hinv3).
    split; [exact (Hinv3 Hm2)|]. simpl. intros id t0 Hid.
    apply lookup_insert_Some in Hid as [[_ <-]|[_ Hid]].
    + by eapply winnerInv_sameCore.
    + rewrite Htour3, Htour in Hid. by eapply Ht.
Qed.

Lemma clonePlayers_frame (playerIds : list string) :
  ∀ s refs s',
    clonePlayers s playerIds = inr (refs, s') →
    tournaments s' = tournaments s ∧ matchObjs s' = matchObjs s
    ∧ playerDatabase s' = playerDatabase s ∧ statsObjs s' = statsObjs s
    ∧ randomCalls s' = randomCalls s
    ∧ length refs = length playerIds.
Proof.
  induction playerIds as [|id rest IH]; intros s refs s'; simpl.
  - intros [= <- <-]. done.
  - destruct (playerDatabase s !! id ≫= _) as [player|]; [|done].
    destruct (clonePlayers _ rest) as [missing|[refs1 s1]] eqn:Hrest; [done|].
    intros [= <- <-]. apply IH in Hrest as (? & ? & ? & ? & ? & ?).
    simpl in *. split_and!; congruence.
Qed.

Lemma createTournament_inv (rng : Random) (s s' : TournamentSystem)
    (name : string) (type : Format) (playerIds : list string)
    (t : Tournament) :
  systemInv s →
  createTournament rng s name type playerIds = Ok (t, s') →
  systemInv s'
  ∧ tournaments s' !! t_id t = Some t
  ∧ t_status t = Setup ∧ t_winner t = None ∧ t_type t = type.
Proof.
  intros [Hm Ht]. unfold createTournament.
  case_bool_decide; [done|].
  destruct (clonePlayers s playerIds) as [missing|[players s1]] eqn:Hclone;
    [done|].
  apply clonePlayers_frame in Hclone as (Htour & Hmatch & _).
  destruct (generateId rng s1) as [id s2] eqn:Hid.
  assert (tournaments s2 = tournaments s ∧ matchObjs s2 = matchObjs s)
    as [Htour2 Hmatch2].
  { unfold generateId in Hid. injection Hid as <- <-. simpl. done. }
  match goal with
  | |- context [generateBracket rng s2 ?t0] =>
      destruct (generateBracket rng s2 t0) as [[t1 s3]|] eqn:Hgen; [|done];
      apply generateBracket_grows in Hgen
        as [(Hcid & Hcty & Hcst & Hcw & _) (Htour3 & _ & _ & _ & _ & Hinv3)]
  end.
  simpl in *. intros [= <- <-].
  assert (matchInv s2) as Hm2.
  { intros r m. rewrite Hmatch2. apply Hm. }
  split; [split|].
  - exact (Hinv3 Hm2).
  - simpl. intros id0 t0 Hlook.
    apply lookup_insert_Some in Hlook as [[_ <-]|[_ Hlook]].
    + unfold winnerInv. rewrite Hcw, Hcst. split; [by intros [? ?]|done].
    + rewrite Htour3, Htour2 in Hlook. by eapply Ht.
  - simpl. rewrite lookup_insert_eq. done.
Qed.

Lemma startTournament_inv (s s' : TournamentSystem) (tournamentId : string)
    (now : nat) (t : Tournament) :
  systemInv s → startTournament s tournamentId now = Ok (t, s') →
  systemInv s'.
Proof.
  intros [Hm Ht]. unfold startTournament.
  destruct (tournaments s !! tournamentId) as [t0|] eqn:Hlook; [|done].
  intros [= <- <-]. split; [exact Hm|]. simpl. intros id t1 Hid.
  apply lookup_insert_Some in Hid as [[_ <-]|[_ Hid]]; [|by eapply Ht].
  destruct (Ht _ _ Hlook) as [H1 H2]. split; simpl; [done | done].
Qed.

Lemma addHumanPlayer_inv (rng : Random) (s : TournamentSystem) (name : string) :
  systemInv s → systemInv (addHumanPlayer rng s name).2.
Proof. intros [Hm Ht]. split; [exact Hm | exact Ht]. Qed.

Lemma new_inv : systemInv Tournament.new.
Proof.
  split.
  - intros r m Hr. by vm_compute in Hr.
  - intros id t Hid. by vm_compute in Hid.
Qed.

Lemma reachable_inv (rng : Random) (s : TournamentSystem) :
  reachable rng s → systemInv s.
Proof.
  induction 1.
  - apply new_inv.
  - by apply addHumanPlayer_inv.
  - by eapply createTournament_inv.
  - by eapply startTournament_inv.
  - by eapply reportMatchResult_inv.
Qed.

(** ** Sample runs *)

Lemma leagueCreated_reachable : reachable sampleRandom leagueCreated.
Proof.
  eapply reachable_createTournament with
    (name := "league") (type := RoundRobin)
    (playerIds := ["ai_easy"; "ai_medium"]); [apply reachable_new|].
  vm_compute. reflexivity.
Qed.

Lemma leagueReported_reachable : reachable sampleRandom leagueReported.
Proof.
  eapply reachable_reportMatchResult with
    (tournamentId := "t4k2m9a") (matchId := "m7q1x0c")
    (result := Player1) (now := 1%nat); [apply leagueCreated_reachable|].
  vm_compute. reflexivity.
Qed.

Lemma duelReported_reachable : reachable sampleRandom duelReported.
Proof.
  eapply reachable_reportMatchResult with
    (tournamentId := "t4k2m9a") (matchId := "m7q1x0c")
    (result := Player1) (now := 2%nat).
  - eapply reachable_startTournament with
      (tournamentId := "t4k2m9a") (now := 1%nat).
    + eapply reachable_createTournament with
        (name := "duel") (type := SingleElimination)
        (playerIds := ["ai_hard"; "ai_expert"]); [apply reachable_new|].
      vm_compute. reflexivity.
    + vm_compute. reflexivity.
  - vm_compute. reflexivity.
Qed.

Lemma duelRestarted_reachable : reachable sampleRandom duelRestarted.
Proof.
  eapply reachable_startTournament with
    (tournamentId := "t4k2m9a") (now := 3%nat);
    [apply duelReported_reachable|].
  vm_compute. reflexivity.
Qed.

(** ** What the operations change *)

Lemma sameEntry_refl (t : Tournament) : sameEntry t t.
Proof. unfold sameEntry. by split_and!. Qed.

Lemma sameEntry_trans (t1 t2 t3 : Tournament) :
  sameEntry t1 t2 → sameEntry t2 t3 → sameEntry t1 t3.
Proof.
  unfold sameEntry. intros (?&?&?&?&?&?&?&?&?&?) (?&?&?&?&?&?&?&?&?&?).
  split_and!; congruence.
Qed.

Lemma sameButMatches_refl (s : TournamentSystem) : sameButMatches s s.
Proof. unfold sameButMatches. by split_and!. Qed.

Lemma sameButMatches_trans (s1 s2 s3 : TournamentSystem) :
  sameButMatches s1 s2 → sameButMatches s2 s3 → sameButMatches s1 s3.
Proof.
  unfold sameButMatches. intros (?&?&?&?&?&H12) (?&?&?&?&?&H23).
  split_and!; try congruence. auto.
Qed.

Lemma pushed_nil (s : TournamentSystem) (t : Tournament) :
  pushed s t s t [] [].
Proof.
  split; [apply sameButMatches_refl|]. split; [apply sameEntry_refl|].
  split; [by rewrite app_nil_r | constructor].
Qed.

Lemma pushed_app (s1 s2 s3 : TournamentSystem) (t1 t2 t3 : Tournament)
    (refs1 refs2 : list nat) (specs1 specs2 : list MatchSpec) :
  pushed s1 t1 s2 t2 refs1 specs1 → pushed s2 t2 s3 t3 refs2 specs2 →
  pushed s1 t1 s3 t3 (refs1 ++ refs2) (specs1 ++ specs2).
Proof.
  intros (Hs12 & Ht12 & Hm12 & Hc12) (Hs23 & Ht23 & Hm23 & Hc23).
  split; [by eapply sameButMatches_trans|].
  split; [by eapply sameEntry_trans|].
  split; [by rewrite Hm23, Hm12, app_assoc|].
  destruct Hs12 as (_ & _ & _ & _ & _ & Hmono12).
  destruct Hs23 as (_ & _ & _ & _ & _ & Hmono23).
  apply Forall2_app.
  - eapply Forall2_impl; [exact Hc12|].
    intros ref spec [Hnew [id Hid]]. split; [done|]. exists id. auto.
  - eapply Forall2_impl; [exact Hc23|].
    intros ref spec [Hnew Hid]. split; [|done].
    destruct (matchObjs s1 !! ref) as [m|] eqn:E; [|done].
    apply Hmono12 in E. congruence.
Qed.

(** A step that changes the bracket of the tournament only. *)
Lemma pushed_bracket (s s1 : TournamentSystem) (t t1 : Tournament)
    (refs : list nat) (specs : list MatchSpec) (bracket : TournamentBracket) :
  pushed s t s1 t1 refs specs → pushed s t s1 (setBracket t1 bracket) refs specs.
Proof. intros (Hs & Ht & Hm & Hc). unfold pushed. by split_and!. Qed.

Lemma pushMatch_pushed (rng : Random) (s : TournamentSystem) (t : Tournament)
    (player1 player2 : option nat) (roundNumber : Z) :
  pushed s t (pushMatch rng s t player1 player2 roundNumber).2
         (pushMatch rng s t player1 player2 roundNumber).1.2
         [(pushMatch rng s t player1 player2 roundNumber).1.1]
         [(player1, player2, roundNumber)].
Proof.
  rewrite pushMatch_eq. simpl.
  assert (matchObjs s !! fresh (dom (matchObjs s)) = None) as Hfresh.
  { apply not_elem_of_dom, is_fresh. }
  split; [|split; [|split]].
  - unfold sameButMatches. simpl. split_and!; try done.
    intros r m Hr. by apply alloc_old.
  - unfold sameEntry. simpl. by split_and!.
  - done.
  - constructor; [|constructor]. split; [done|].
    eexists. simpl. by rewrite lookup_insert_eq.
Qed.

Lemma generateId_same (rng : Random) (s : TournamentSystem) :
  sameButMatches s (generateId rng s).2.
Proof. unfold sameButMatches, generateId. simpl. by split_and!. Qed.

Lemma pairSlots_pushed (rng : Random) (players : list (option nat))
    (roundNumber : Z) :
  ∀ s t,
    pushed s t (pairSlots rng s t players roundNumber).2
           (pairSlots rng s t players roundNumber).1.2
           (pairSlots rng s t players roundNumber).1.1
           (slotSpecs players roundNumber).
Proof.
  induction players as [players IH] using (induction_ltof1 _ length).
  unfold ltof in IH. intros s t.
  destruct players as [|p1 [|p2 rest]]; [apply pushed_nil| |].
  { destruct p1; apply pushed_nil. }
  destruct p1 as [player1|], p2 as [player2|];
    try (apply (IH rest); simpl; lia).
  rewrite pairSlots_pair.
  pose proof (pushMatch_pushed rng s t (Some player1) (Some player2)
                roundNumber) as Hp.
  destruct (pushMatch rng s t (Some player1) (Some player2) roundNumber)
    as [[ref t1] s1]. simpl in Hp.
  pose proof (IH rest ltac:(simpl; lia) s1 t1) as Hrest.
  destruct (pairSlots rng s1 t1 rest roundNumber) as [[ms t2] s2].
  simpl in *.
  apply (pushed_app _ _ _ _ _ _ [ref] ms [_] _ Hp Hrest).
Qed.

Lemma slotSpecs_none (players : list (option nat)) (roundNumber : Z) :
  Forall (λ player, player = None) players → slotSpecs players roundNumber = [].
Proof.
  induction players as [players IH] using (induction_ltof1 _ length).
  unfold ltof in IH. intros Hall.
  destruct players as [|p1 [|p2 rest]]; [done | by destruct p1 |].
  apply Forall_cons in Hall as [-> Hall].
  apply Forall_cons in Hall as [-> Hall].
  simpl. apply IH; [simpl; lia | done].
Qed.

Lemma slotSpecs_short (players : list (option nat)) (roundNumber : Z) :
  ¬ (1 < length players)%nat → slotSpecs players roundNumber = [].
Proof.
  destruct players as [|p1 [|p2 rest]]; [done | by destruct p1 |].
  simpl. lia.
Qed.

Lemma Forall2_nil_r_inv {A B : Type} (P : A → B → Prop) (l : list A) :
  Forall2 P l [] → l = [].
Proof. by inversion 1. Qed.

Lemma eliminationRounds_none (rng : Random) (fuel : nat) :
  ∀ s t players roundNumber t' s',
    Forall (λ player, player = None) players →
    eliminationRounds fuel rng s t players roundNumber = Some (t', s') →
    pushed s t s' t' [] [].
Proof.
  destruct fuel as [|fuel]; intros s t players roundNumber t' s' Hall; simpl.
  - case_bool_decide; [done|]. intros [= <- <-]. apply pushed_nil.
  - case_bool_decide; [|intros [= <- <-]; apply pushed_nil].
    pose proof (pairSlots_pushed rng players roundNumber s t) as Hp.
    rewrite (slotSpecs_none players roundNumber Hall) in Hp.
    destruct (pairSlots rng s t players roundNumber) as [[ms t1] s1].
    simpl in Hp.
    pose proof Hp as (_ & _ & _ & Hnil). apply Forall2_nil_r_inv in Hnil as ->.
    simpl. destruct fuel; simpl; intros [= <- <-]; by apply pushed_bracket.
Qed.

Lemma eliminationRounds_pushed (rng : Random) (fuel : nat)
    (s : TournamentSystem) (t : Tournament) (players : list (option nat))
    (roundNumber : Z) (t' : Tournament) (s' : TournamentSystem) :
  eliminationRounds fuel rng s t players roundNumber = Some (t', s') →
  ∃ refs, pushed s t s' t' refs (slotSpecs players roundNumber).
Proof.
  destruct fuel as [|fuel]; simpl.
  - case_bool_decide as Hlen; [done|]. intros [= <- <-].
    rewrite slotSpecs_short by done. exists []. apply pushed_nil.
  - case_bool_decide as Hlen.
    2:{ intros [= <- <-]. rewrite slotSpecs_short by done.
        exists []. apply pushed_nil. }
    pose proof (pairSlots_pushed rng players roundNumber s t) as Hp.
    destruct (pairSlots rng s t players roundNumber) as [[ms t1] s1].
    simpl in Hp. intros Hrun.
    apply eliminationRounds_none in Hrun.
    2:{ apply Forall_fmap, Forall_forall. by intros. }
    exists ms.
    pose proof (pushed_app _ _ _ _ _ _ _ _ _ _
                  (pushed_bracket _ _ _ _ _ _ _ Hp) Hrun) as H.
    by rewrite !app_nil_r in H.
Qed.

Lemma generateSingleEliminationBracket_pushed (rng : Random)
    (s : TournamentSystem) (t t' : Tournament) (s' : TournamentSystem) :
  generateSingleEliminationBracket rng s t = Some (t', s') →
  ∃ refs,
    pushed s t s' t' refs
      (slotSpecs
         ((Some <$> t_players t)
          ++ replicate (nextPowerOf2 (length (Some <$> t_players t))
                        - length (Some <$> t_players t)) None) 1).
Proof.
  unfold generateSingleEliminationBracket. intros Hrun.
  apply eliminationRounds_pushed in Hrun as (refs & Hs & Ht & Hm & Hc).
  exists refs. split; [done|]. split; [|done].
  eapply sameEntry_trans; [|exact Ht]. unfold sameEntry. by split_and!.
Qed.

Lemma drawIds_same (rng : Random) {A : Type} (xs : list A) :
  ∀ s, sameButMatches s (foldl (λ s _, (generateId rng s).2) s xs).
Proof.
  induction xs as [|x xs IH]; intros s; simpl; [apply sameButMatches_refl|].
  eapply sameButMatches_trans; [apply (generateId_same rng s) | apply IH].
Qed.

(** A step that draws random numbers only. *)
Lemma pushed_same (s s1 s2 : TournamentSystem) (t t1 : Tournament)
    (refs : list nat) (specs : list MatchSpec) :
  pushed s t s1 t1 refs specs → sameButMatches s1 s2 →
  pushed s t s2 t1 refs specs.
Proof.
  intros (Hs & Ht & Hm & Hc) Hs2.
  split; [by eapply sameButMatches_trans|]. split; [done|]. split; [done|].
  destruct Hs2 as (_ & _ & _ & _ & _ & Hmono).
  eapply Forall2_impl; [exact Hc|].
  intros ref spec [Hnew [id Hid]]. split; [done|]. exists id. auto.
Qed.

Lemma same_pushed (s s1 s2 : TournamentSystem) (t t2 : Tournament)
    (refs : list nat) (specs : list MatchSpec) :
  sameButMatches s s1 → pushed s1 t s2 t2 refs specs →
  pushed s t s2 t2 refs specs.
Proof.
  intros Hs1 (Hs & Ht & Hm & Hc).
  split; [by eapply sameButMatches_trans|]. split; [done|]. split; [done|].
  destruct Hs1 as (_ & _ & _ & _ & _ & Hmono).
  eapply Forall2_impl; [exact Hc|].
  intros ref spec [Hnew Hid]. split; [|done].
  destruct (matchObjs s !! ref) as [m|] eqn:E; [|done].
  apply Hmono in E. congruence.
Qed.

Lemma generateDoubleEliminationBracket_pushed (rng : Random)
    (s : TournamentSystem) (t t' : Tournament) (s' : TournamentSystem) :
  generateDoubleEliminationBracket rng s t = Some (t', s') →
  ∃ refs,
    pushed s t s' t' refs
      (slotSpecs
         ((Some <$> t_players t)
          ++ replicate (nextPowerOf2 (length (Some <$> t_players t))
                        - length (Some <$> t_players t)) None) 1).
Proof.
  unfold generateDoubleEliminationBracket.
  destruct (generateSingleEliminationBracket rng s t) as [[t1 s1]|] eqn:Hse;
    [|done].
  apply generateSingleEliminationBracket_pushed in Hse as (refs & Hp).
  simpl. intros [= <- <-]. exists refs.
  apply pushed_bracket. eapply pushed_same; [exact Hp|].
  eapply sameButMatches_trans; [|apply (generateId_same rng)].
  apply (drawIds_same rng (concat (rounds (t_bracket t1))) s1).
Qed.

Lemma pairWithRest_pushed (rng : Random) (player : nat) (rest : list nat) :
  ∀ s t, ∃ refs,
    pushed s t (pairWithRest rng s t player rest).2
           (pairWithRest rng s t player rest).1 refs
           ((λ other, firstRound (player, other)) <$> rest).
Proof.
  induction rest as [|other rest IH]; intros s t;
    [exists []; apply pushed_nil|].
  change (pairWithRest rng s t player (other :: rest)) with
    (let '(_, t, s) := pushMatch rng s t (Some player) (Some other) 1 in
     pairWithRest rng s t player rest).
  pose proof (pushMatch_pushed rng s t (Some player) (Some other) 1) as Hp.
  destruct (pushMatch rng s t (Some player) (Some other) 1) as [[ref t1] s1].
  simpl in Hp. destruct (IH s1 t1) as (refs & Hrest).
  exists ([ref] ++ refs).
  apply (pushed_app _ _ _ _ _ _ [ref] refs [_] _ Hp Hrest).
Qed.

Lemma allPairings_pushed (rng : Random) (players : list nat) :
  ∀ s t, ∃ refs,
    pushed s t (allPairings rng s t players).2 (allPairings rng s t players).1
           refs (firstRound <$> allPairs players).
Proof.
  induction players as [|player rest IH]; intros s t; simpl;
    [exists []; apply pushed_nil|].
  destruct (pairWithRest_pushed rng player rest s t) as (refs1 & Hp).
  destruct (pairWithRest rng s t player rest) as [t1 s1]. simpl in Hp.
  destruct (IH s1 t1) as (refs2 & Hrest).
  exists (refs1 ++ refs2). rewrite fmap_app, <- list_fmap_compose.
  apply (pushed_app _ _ _ _ _ _ _ _ _ _ Hp Hrest).
Qed.

Lemma generateRoundRobinBracket_pushed (rng : Random) (s : TournamentSystem)
    (t : Tournament) :
  ∃ refs,
    pushed s t (generateRoundRobinBracket rng s t).2
           (generateRoundRobinBracket rng s t).1 refs
           (firstRound <$> allPairs (t_players t)).
Proof.
  unfold generateRoundRobinBracket.
  destruct (allPairings_pushed rng (t_players t) s t) as (refs & Hp).
  destruct (allPairings rng s t (t_players t)) as [t1 s1]. simpl in *.
  exists refs. by apply pushed_bracket.
Qed.

(** *** The shuffle *)

Lemma swap_lookup {A : Type} (array : list A) (i j k : nat) :
  is_Some (array !! i) → is_Some (array !! j) →
  swap array i j !! k
  = array !! (if decide (k = i) then j else if decide (k = j) then i else k).
Proof.
  intros [x Hx] [y Hy]. unfold swap. rewrite Hx, Hy.
  assert (i < length array)%nat by (apply lookup_lt_is_Some; by eexists).
  assert (j < length array)%nat by (apply lookup_lt_is_Some; by eexists).
  rewrite list_lookup_insert, length_insert.
  destruct (decide (k = j)) as [->|Hkj].
  - rewrite decide_True by done.
    destruct (decide (j = i)) as [->|Hji]; [congruence | done].
  - rewrite decide_False by (intros [? _]; congruence).
    rewrite list_lookup_insert.
    destruct (decide (k = i)) as [->|Hki].
    + by rewrite decide_True.
    + rewrite decide_False by (intros [? _]; congruence). done.
Qed.

Lemma swap_Permutation {A : Type} (array : list A) (i j : nat) :
  swap array i j ≡ₚ array.
Proof.
  destruct (array !! i) as [x|] eqn:Hx;
    [|unfold swap; by rewrite Hx].
  destruct (array !! j) as [y|] eqn:Hy;
    [|unfold swap; by rewrite Hx, Hy].
  apply Permutation_inj. split.
  { unfold swap. rewrite Hx, Hy. by rewrite !length_insert. }
  exists (λ k, if decide (k = i) then j else if decide (k = j) then i else k).
  split.
  - intros a b. repeat case_decide; congruence.
  - intros k. by apply swap_lookup.
Qed.

Lemma shuffleFrom_Permutation (rng : Random) {A : Type} (i : nat) :
  ∀ s (array : list A),
    (shuffleFrom rng s array i).1 ≡ₚ array
    ∧ randomCalls (shuffleFrom rng s array i).2 = (randomCalls s + i)%nat
    ∧ sameButMatches s (shuffleFrom rng s array i).2.
Proof.
  induction i as [|i IH]; intros s array; simpl.
  { split; [done|]. split; [lia | apply sameButMatches_refl]. }
  match goal with
  | |- context [shuffleFrom rng ?s1 ?a1 i] =>
      destruct (IH s1 a1) as (Hperm & Hcalls & Hsame)
  end.
  split; [by rewrite Hperm, swap_Permutation|].
  split; [rewrite Hcalls; simpl; lia|].
  eapply sameButMatches_trans; [|exact Hsame].
  unfold sameButMatches. by split_and!.
Qed.

Lemma pairConsecutive_pushed (rng : Random) (players : list nat)
    (roundNumber : Z) :
  ∀ s t,
    pushed s t (pairConsecutive rng s t players roundNumber).2
           (pairConsecutive rng s t players roundNumber).1.2
           (pairConsecutive rng s t players roundNumber).1.1
           ((λ pair : nat * nat, (Some pair.1, Some pair.2, roundNumber))
              <$> consecutivePairs players).
Proof.
  induction players as [players IH] using (induction_ltof1 _ length).
  unfold ltof in IH. intros s t.
  destruct players as [|player1 [|player2 rest]]; try apply pushed_nil.
  change (pairConsecutive rng s t (player1 :: player2 :: rest) roundNumber)
    with (let '(ref, t, s) :=
            pushMatch rng s t (Some player1) (Some player2) roundNumber in
          let '(roundMatches, t, s) :=
            pairConsecutive rng s t rest roundNumber in
          (ref :: roundMatches, t, s)).
  pose proof (pushMatch_pushed rng s t (Some player1) (Some player2)
                roundNumber) as Hp.
  destruct (pushMatch rng s t (Some player1) (Some player2) roundNumber)
    as [[ref t1] s1]. simpl in Hp.
  pose proof (IH rest ltac:(simpl; lia) s1 t1) as Hrest.
  destruct (pairConsecutive rng s1 t1 rest roundNumber) as [[ms t2] s2].
  simpl in *.
  apply (pushed_app _ _ _ _ _ _ [ref] ms [_] _ Hp Hrest).
Qed.

Lemma generateSwissBracket_pushed (rng : Random) (s : TournamentSystem)
    (t : Tournament) :
  ∃ order refs,
    order ≡ₚ t_players t
    ∧ pushed s t (generateSwissBracket rng s t).2
             (generateSwissBracket rng s t).1 refs
             (firstRound <$> consecutivePairs order).
Proof.
  unfold generateSwissBracket, shuffleArray.
  destruct (shuffleFrom_Permutation rng (length (t_players t) - 1) s
              (t_players t)) as (Hperm & _ & Hsame).
  destruct (shuffleFrom rng s (t_players t) (length (t_players t) - 1))
    as [players s1]. simpl in Hperm, Hsame.
  pose proof (pairConsecutive_pushed rng players 1 s1 t) as Hp.
  destruct (pairConsecutive rng s1 t players 1) as [[ms t1] s2]. simpl in *.
  exists players, ms. split; [done|].
  apply pushed_bracket. by eapply same_pushed.
Qed.

(** *** Pairing the initial slots of an elimination bracket *)

Lemma slotSpecs_padded (players : list nat) (k : nat) (roundNumber : Z) :
  slotSpecs ((Some <$> players) ++ replicate k None) roundNumber
  = (λ pair : nat * nat, (Some pair.1, Some pair.2, roundNumber))
      <$> consecutivePairs players.
Proof.
  induction players as [players IH] using (induction_ltof1 _ length).
  unfold ltof in IH.
  destruct players as [|player1 [|player2 rest]].
  - simpl. apply slotSpecs_none. apply Forall_replicate. done.
  - simpl. destruct k as [|k]; [done|]. simpl.
    apply slotSpecs_none. apply Forall_replicate. done.
  - simpl. f_equal. apply IH. simpl. lia.
Qed.

Lemma generateBracket_pushed (rng : Random) (s : TournamentSystem)
    (t t' : Tournament) (s' : TournamentSystem) :
  generateBracket rng s t = Some (t', s') →
  ∃ order refs,
    order ≡ₚ t_players t
    ∧ (t_type t ≠ Swiss → order = t_players t)
    ∧ pushed s t s' t' refs
        (firstRound <$> match t_type t with
                        | RoundRobin => allPairs order
                        | _ => consecutivePairs order
                        end).
Proof.
  unfold generateBracket. destruct (t_type t) eqn:Hty.
  - intros Hrun.
    apply generateSingleEliminationBracket_pushed in Hrun as (refs & Hp).
    rewrite slotSpecs_padded in Hp. by exists (t_players t), refs.
  - intros Hrun.
    apply generateDoubleEliminationBracket_pushed in Hrun as (refs & Hp).
    rewrite slotSpecs_padded in Hp. by exists (t_players t), refs.
  - intros [= Heq].
    destruct (generateRoundRobinBracket_pushed rng s t) as (refs & Hp).
    rewrite Heq in Hp. by exists (t_players t), refs.
  - intros [= Heq].
    destruct (generateSwissBracket_pushed rng s t) as (order & refs & Hperm & Hp).
    rewrite Heq in Hp. by exists order, refs.
Qed.

(** *** What [createTournament] does to the system *)

Lemma clonePlayers_effects (playerIds : list string) :
  ∀ s refs s',
    clonePlayers s playerIds = inr (refs, s') →
    tournaments s' = tournaments s ∧ matchObjs s' = matchObjs s
    ∧ playerDatabase s' = playerDatabase s ∧ statsObjs s' = statsObjs s
    ∧ matchHistory s' = matchHistory s
    ∧ (∀ r p, playerObjs s !! r = Some p → playerObjs s' !! r = Some p)
    ∧ length refs = length playerIds.
Proof.
  induction playerIds as [|id rest IH]; intros s refs s'; simpl.
  - intros [= <- <-]. by split_and!.
  - destruct (playerDatabase s !! id ≫= _) as [player|] eqn:Hreg; [|done].
    destruct (clonePlayers _ rest) as [missing|[refs1 s1]] eqn:Hrest; [done|].
    intros [= <- <-].
    apply IH in Hrest as (H1 & H2 & H3 & H4 & H5 & Hmono & Hlen).
    simpl in *. split_and!; try congruence.
    intros r p Hr. apply Hmono. by apply alloc_old.
Qed.

Lemma createTournament_effects (rng : Random) (s s' : TournamentSystem)
    (name : string) (type : Format) (playerIds : list string)
    (t : Tournament) :
  createTournament rng s name type playerIds = Ok (t, s') →
  (2 ≤ length playerIds)%nat
  ∧ playerDatabase s' = playerDatabase s ∧ matchHistory s' = matchHistory s
  ∧ statsObjs s' = statsObjs s
  ∧ tournaments s' = <[t_id t := t]> (tournaments s)
  ∧ (∀ r p, playerObjs s !! r = Some p → playerObjs s' !! r = Some p)
  ∧ (∀ r m, matchObjs s !! r = Some m → matchObjs s' !! r = Some m)
  ∧ length (t_players t) = length playerIds
  ∧ t_name t = name ∧ t_type t = type ∧ t_status t = Setup
  ∧ t_currentRound t = 0
  ∧ t_totalRounds t = calculateTotalRounds type (length playerIds)
  ∧ t_winner t = None ∧ t_startTime t = None ∧ t_endTime t = None
  ∧ ∃ order,
      order ≡ₚ t_players t
      ∧ (type ≠ Swiss → order = t_players t)
      ∧ Forall2 (created s s') (t_matches t)
          (firstRound <$> match type with
                          | RoundRobin => allPairs order
                          | _ => consecutivePairs order
                          end).
Proof.
  unfold createTournament. case_bool_decide as Hlen; [done|].
  destruct (clonePlayers s playerIds) as [missing|[players s1]] eqn:Hclone;
    [done|].
  apply clonePlayers_effects in Hclone
    as (Htour & Hmatch & Hdb & Hstats & Hhist & Hmono & Hplayers).
  destruct (generateId rng s1) as [id s2] eqn:Hid.
  pose proof (generateId_same rng s1) as Hsame. rewrite Hid in Hsame.
  simpl in Hsame.
  destruct Hsame as (Htour2 & Hdb2 & Hhist2 & Hplayers2 & Hstats2 & Hmono2).
  assert (matchObjs s2 = matchObjs s1) as Hmatch2.
  { unfold generateId in Hid. by injection Hid as <- <-. }
  match goal with
  | |- context [generateBracket rng s2 ?t0] =>
      destruct (generateBracket rng s2 t0) as [[t1 s3]|] eqn:Hgen; [|done];
      apply generateBracket_pushed in Hgen
        as (order & refs & Hperm & Horder & Hs & Ht & Hm & Hc)
  end.
  simpl in *. intros [= <- <-].
  destruct Hs as (Htour3 & Hdb3 & Hhist3 & Hplayers3 & Hstats3 & Hmono3).
  destruct Ht as (Hid1 & Hname & Hty & Hst & Hpl & Hcur & Htot & Hwin & Hstart
                  & Hend).
  simpl in *.
  split; [lia|]. split; [congruence|]. split; [congruence|].
  split; [congruence|]. split; [congruence|].
  split; [intros r p Hr; rewrite Hplayers3, Hplayers2; by apply Hmono|].
  split; [intros r m Hr; apply Hmono3; by rewrite Hmatch2, Hmatch|].
  split; [congruence|]. split; [done|]. split; [done|]. split; [done|].
  split; [done|]. split; [congruence|]. split; [done|].
  split; [done|]. split; [done|].
  exists order. rewrite Hpl. split; [done|]. split; [done|].
  rewrite Hm. eapply Forall2_impl; [exact Hc|].
  intros ref spec [Hnew Hobj]. split; [|done]. by rewrite <- Hmatch, <- Hmatch2.
Qed.

Lemma updatePlayer_history (s : TournamentSystem) (ref : option nat)
    (won drew : bool) :
  matchHistory (updatePlayer s ref won drew) = matchHistory s.
Proof.
  unfold updatePlayer. destruct (ref ≫= _) as [player|]; [|done].
  destruct (statsObjs s !! p_stats player); done.
Qed.

Lemma updatePlayerStats_history (s : TournamentSystem) (m : Match) :
  matchHistory (updatePlayerStats s m) = matchHistory s.
Proof.
  unfold updatePlayerStats.
  destruct (m_result m); by rewrite ?updatePlayer_history.
Qed.

Lemma setElo_history (s : TournamentSystem) (ref : option nat) (v : Elo) :
  matchHistory (setElo s ref v) = matchHistory s.
Proof.
  unfold setElo. destruct ref as [r|]; [|done].
  destruct (playerObjs s !! r); done.
Qed.

Lemma updateELORatings_history (s : TournamentSystem) (m : Match) :
  matchHistory (updateELORatings s m) = matchHistory s.
Proof.
  unfold updateELORatings.
  destruct (m_result m); try done;
    destruct (m_player1 m ≫= _); try done;
    destruct (m_player2 m ≫= _); try done;
    by rewrite !setElo_history.
Qed.

Lemma recorded_history (s : TournamentSystem) (ref : nat) (m : Match)
    (result : MatchResult) (now : nat) :
  matchHistory (recorded s ref m result now) = matchHistory s.
Proof.
  unfold recorded. by rewrite updateELORatings_history, updatePlayerStats_history.
Qed.

(** The statistics objects: which ones change, and how. *)
Lemma updatePlayer_statsObjs (s : TournamentSystem) (ref : option nat)
    (won drew : bool) :
  statsObjs (updatePlayer s ref won drew) = statsObjs s
  ∨ ∃ q player st,
      ref = Some q ∧ playerObjs s !! q = Some player
      ∧ statsObjs s !! p_stats player = Some st
      ∧ statsObjs (updatePlayer s ref won drew)
        = <[p_stats player := bump st won drew]> (statsObjs s).
Proof.
  unfold updatePlayer. destruct ref as [q|]; [|by left]. simpl.
  destruct (playerObjs s !! q) as [player|] eqn:Hq; [|by left].
  destruct (statsObjs s !! p_stats player) as [st|] eqn:Hst; [|by left].
  right. exists q, player, st. by split_and!.
Qed.

Lemma statsInv_bump (st : Stats) (won drew : bool) :
  statsInv st → statsInv (bump st won drew).
Proof.
  unfold statsInv, bump. intros (? & ? & ? & ?).
  destruct won, drew; simpl; lia.
Qed.

Lemma updatePlayer_statsInv (s : TournamentSystem) (ref : option nat)
    (won drew : bool) :
  (∀ r st, statsObjs s !! r = Some st → statsInv st) →
  ∀ r st, statsObjs (updatePlayer s ref won drew) !! r = Some st → statsInv st.
Proof.
  intros Hall r st.
  destruct (updatePlayer_statsObjs s ref won drew)
    as [->|(q & player & st0 & _ & _ & Hst0 & ->)]; [apply Hall|].
  intros Hr. apply lookup_insert_Some in Hr as [[_ <-]|[_ Hr]].
  - apply statsInv_bump. by eapply Hall.
  - by eapply Hall.
Qed.

Lemma updatePlayerStats_statsInv (s : TournamentSystem) (m : Match) :
  (∀ r st, statsObjs s !! r = Some st → statsInv st) →
  ∀ r st, statsObjs (updatePlayerStats s m) !! r = Some st → statsInv st.
Proof.
  intros Hall. unfold updatePlayerStats.
  destruct (m_result m); try done; by do 2 apply updatePlayer_statsInv.
Qed.

Lemma recorded_statsInv (s : TournamentSystem) (ref : nat) (m : Match)
    (result : MatchResult) (now : nat) :
  (∀ r st, statsObjs s !! r = Some st → statsInv st) →
  ∀ r st, statsObjs (recorded s ref m result now) !! r = Some st → statsInv st.
Proof.
  intros Hall. unfold recorded.
  match goal with
  | |- context [updateELORatings ?s1 ?m1] =>
      destruct (updateELORatings_frame s1 m1) as (_ & _ & -> & _)
  end.
  by apply updatePlayerStats_statsInv.
Qed.

Lemma pairWinners_pushed (rng : Random) (winners : list (option nat)) :
  ∀ s t, ∃ refs,
    pushed s t (pairWinners rng s t winners).2 (pairWinners rng s t winners).1
           refs (winnerSpecs winners (t_currentRound t)).
Proof.
  induction winners as [winners IH] using (induction_ltof1 _ length).
  unfold ltof in IH. intros s t.
  destruct winners as [|winner1 [|winner2 rest]];
    try (exists []; apply pushed_nil).
  change (pairWinners rng s t (winner1 :: winner2 :: rest)) with
    (let '(_, t, s) :=
       pushMatch rng s t winner1 winner2 (t_currentRound t) in
     pairWinners rng s t rest).
  pose proof (pushMatch_pushed rng s t winner1 winner2 (t_currentRound t))
    as Hp.
  destruct (pushMatch rng s t winner1 winner2 (t_currentRound t))
    as [[ref t1] s1]. simpl in Hp.
  destruct (IH rest ltac:(simpl; lia) s1 t1) as (refs & Hrest).
  assert (t_currentRound t1 = t_currentRound t) as Hcur.
  { by destruct Hp as (_ & (_ & _ & _ & _ & _ & ? & _) & _). }
  rewrite Hcur in Hrest.
  exists ([ref] ++ refs).
  apply (pushed_app _ _ _ _ _ _ [ref] refs [_] _ Hp Hrest).
Qed.

Lemma winnerSpecs_round (winners : list (option nat)) (roundNumber : Z) :
  Forall (λ spec : MatchSpec, spec.2 = roundNumber)
         (winnerSpecs winners roundNumber).
Proof.
  induction winners as [winners IH] using (induction_ltof1 _ length).
  unfold ltof in IH.
  destruct winners as [|winner1 [|winner2 rest]]; try constructor; [done|].
  apply IH. simpl. lia.
Qed.

Lemma advanceTournament_effects (rng : Random) (s : TournamentSystem)
    (t : Tournament) :
  ∃ refs specs,
    sameButMatches s (advanceTournament rng s t).2
    ∧ sameSetup t (advanceTournament rng s t).1
    ∧ t_matches (advanceTournament rng s t).1 = t_matches t ++ refs
    ∧ Forall2 (created s (advanceTournament rng s t).2) refs specs
    ∧ Forall (λ spec : MatchSpec,
                spec.2 = t_currentRound (advanceTournament rng s t).1) specs
    ∧ (t_type t ≠ SingleElimination → advanceTournament rng s t = (t, s)).
Proof.
  assert (∃ refs specs,
            sameButMatches s s ∧ sameSetup t t ∧ t_matches t = t_matches t ++ refs
            ∧ Forall2 (created s s) refs specs
            ∧ Forall (λ spec : MatchSpec, spec.2 = t_currentRound t) specs)
    as (refs0 & specs0 & H1 & H2 & H3 & H4 & H5).
  { exists [], []. split; [apply sameButMatches_refl|].
    split; [unfold sameSetup; by split_and!|].
    split; [by rewrite app_nil_r|]. split; constructor. }
  unfold advanceTournament.
  destruct (t_type t) eqn:Hty;
    try (exists refs0, specs0; by split_and!).
  unfold advanceSingleElimination.
  repeat case_bool_decide;
    try (exists refs0, specs0; split_and!; try done; by intros []).
  match goal with
  | |- context [pairWinners rng s ?t1 ?ws] =>
      destruct (pairWinners_pushed rng ws s t1) as (refs & Hs & Ht & Hm & Hc);
      exists refs, (winnerSpecs ws (t_currentRound t1))
  end.
  destruct Ht as (?&?&?&?&?&Hcur&?&?&?&?). simpl in *.
  split; [done|]. split; [unfold sameSetup; by split_and!|].
  split; [done|]. split; [done|]. split; [|by intros []].
  rewrite Hcur. apply winnerSpecs_round.
Qed.

Lemma reportMatchResult_effects (rng : Random) (s s' : TournamentSystem)
    (tournamentId matchId : string) (result : MatchResult) (now : nat) :
  reportMatchResult rng s tournamentId matchId result now = Ok s' →
  ∃ t ref m t',
    tournaments s !! tournamentId = Some t
    ∧ (ref, m) ∈ matchesOf s t ∧ m_id m = matchId
    ∧ matchObjs s !! ref = Some m
    ∧ tournaments s' = <[tournamentId := t']> (tournaments s)
    ∧ playerDatabase s' = playerDatabase s
    ∧ matchHistory s' = matchHistory s
    ∧ playerObjs s' = playerObjs (recorded s ref m result now)
    ∧ statsObjs s' = statsObjs (recorded s ref m result now)
    ∧ (∀ r x, matchObjs (recorded s ref m result now) !! r = Some x →
              matchObjs s' !! r = Some x)
    ∧ ((isTournamentComplete (recorded s ref m result now) t = true
        ∧ t' = completeTournament (recorded s ref m result now) t now)
       ∨ (isTournamentComplete (recorded s ref m result now) t = false
          ∧ t' = (advanceTournament rng (recorded s ref m result now) t).1
          ∧ matchObjs s'
            = matchObjs
                (advanceTournament rng (recorded s ref m result now) t).2)).
Proof.
  intros Hrun.
  destruct (tournaments s !! tournamentId) as [t|] eqn:Hlook;
    [|unfold reportMatchResult in Hrun; by rewrite Hlook in Hrun].
  destruct (List.find (λ rm : nat * Match, bool_decide (m_id rm.2 = matchId))
              (matchesOf s t)) as [[ref m]|] eqn:Hfind;
    [|unfold reportMatchResult in Hrun; by rewrite Hlook, Hfind in Hrun].
  rewrite (reportMatchResult_eq _ _ _ _ _ _ _ _ _ Hlook Hfind) in Hrun.
  apply find_elem in Hfind as [Hin Hid]. apply bool_decide_eq_true in Hid.
  pose proof (matchesOf_lookup s t _ _ Hin) as Hobj.
  destruct (recorded_frame s ref m result now) as (Htour & Hdb & _ & _).
  pose proof (recorded_history s ref m result now) as Hhist.
  set (s2 := recorded s ref m result now) in *.
  simpl in Hrun.
  destruct (isTournamentComplete s2 t) eqn:Hcomplete.
  - injection Hrun as <-. exists t, ref, m, (completeTournament s2 t now).
    simpl. split_and!; try done; [by rewrite Htour | auto].
  - destruct (advanceTournament_effects rng s2 t)
      as (refs & specs & Hs & _).
    destruct (advanceTournament rng s2 t) as [t' s3] eqn:Hadv. simpl in Hs.
    injection Hrun as <-.
    destruct Hs as (Htour3 & Hdb3 & Hhist3 & Hpl3 & Hst3 & Hmono3).
    exists t, ref, m, t'. simpl.
    split_and!; try done; try congruence. right. fold s2. by rewrite Hadv.
Qed.

Lemma addHumanPlayer_eq (rng : Random) (s : TournamentSystem) (name : string) :
  addHumanPlayer rng s name =
  let statsRef := fresh (dom (statsObjs s)) in
  let ref := fresh (dom (playerObjs s)) in
  let player :=
    {| p_id := randomId rng (randomCalls s); p_name := name;
       p_type := HumanPlayer; p_difficulty := None; p_stats := statsRef;
       p_elo := Rating 1200 |} in
  (ref,
   mkSystem (tournaments s)
            (<[randomId rng (randomCalls s) := ref]> (playerDatabase s))
            (matchHistory s) (<[ref := player]> (playerObjs s))
            (<[statsRef := mkStats 0 0 0 0]> (statsObjs s)) (matchObjs s)
            (S (randomCalls s))).
Proof. reflexivity. Qed.

(** ** The winner and the life cycle *)

Lemma completeTournament_fields (s : TournamentSystem) (t : Tournament)
    (now : nat) :
  t_endTime (completeTournament s t now) = Some now
  ∧ t_status (completeTournament s t now) = Completed
  ∧ t_type (completeTournament s t now) = t_type t
  ∧ t_startTime (completeTournament s t now) = t_startTime t
  ∧ (t_type t ≠ SingleElimination →
     t_winner (completeTournament s t now) = t_winner t).
Proof.
  rewrite completeTournament_eq. cbv zeta.
  destruct (t_type t) eqn:Hty; try (by split_and!).
  destruct (List.find _ _) as [[ref m]|]; by split_and!.
Qed.

Lemma completeTournament_lifecycle (s : TournamentSystem) (t : Tournament)
    (now : nat) :
  matchInv s → winnerInv t → lifecycleInv t →
  isTournamentComplete s t = true →
  lifecycleInv (completeTournament s t now).
Proof.
  intros Hm Hw (Hwin & _ & _ & Hstart) Hcomplete.
  destruct (completeTournament_winnerInv s t now Hm Hw Hcomplete)
    as ((Hw1 & Hw2) & _ & _).
  destruct (completeTournament_fields s t now)
    as (Hend & Hst & Hty & Hstart' & Hkeep).
  unfold lifecycleInv. rewrite Hend, Hst, Hty, Hstart'.
  split_and!; try done; auto.
  - split.
    + intros Hsome. split; [|done]. rewrite <- Hty. by apply Hw1.
    + intros [Hse _]. apply Hw2; [by rewrite Hty | done].
Qed.

Lemma sameSetup_lifecycle (t t' : Tournament) :
  sameSetup t t' → lifecycleInv t → lifecycleInv t'.
Proof.
  intros (_ & _ & Hty & Hst & _ & _ & Hwin & Hstart & Hend).
  unfold lifecycleInv. by rewrite Hty, Hst, Hwin, Hstart, Hend.
Qed.

Lemma reachable_lifecycle (rng : Random) (s : TournamentSystem) :
  reachable rng s → ∀ id t, tournaments s !! id = Some t → lifecycleInv t.
Proof.
  induction 1 as [|s name Hreach IH|s name type playerIds t s' Hreach IH Hrun
                  |s tournamentId now t s' Hreach IH Hrun
                  |s tournamentId matchId result now s' Hreach IH Hrun];
    intros id0 t0 Hlook.
  - by vm_compute in Hlook.
  - rewrite addHumanPlayer_eq in Hlook. by eapply IH.
  - apply createTournament_effects in Hrun
      as (_ & _ & _ & _ & Htour & _ & _ & _ & _ & _ & Hst & _ & _ & Hwin
          & Hstart & Hend & _).
    rewrite Htour in Hlook.
    apply lookup_insert_Some in Hlook as [[_ <-]|[_ Hlook]]; [|by eapply IH].
    unfold lifecycleInv. rewrite Hst, Hwin, Hend.
    split_and!; try done; try (by intros [? ?]).
    split; [by intros [? ?] | by intros [_ [? ?]]].
  - unfold startTournament in Hrun.
    destruct (tournaments s !! tournamentId) as [t1|] eqn:Hold; [|done].
    injection Hrun as <- <-. simpl in Hlook.
    apply lookup_insert_Some in Hlook as [[_ <-]|[_ Hlook]]; [|by eapply IH].
    destruct (IH _ _ Hold) as (Hwin & _ & _ & _).
    unfold lifecycleInv. simpl. split_and!; try done; auto.
  - pose proof (reachable_inv rng s Hreach) as [Hm Hw].
    apply reportMatchResult_effects in Hrun
      as (t & ref & m & t' & Hold & _ & _ & Hobj & Htour & _ & _ & _ & _ & _
          & Hcase).
    rewrite Htour in Hlook.
    apply lookup_insert_Some in Hlook as [[_ <-]|[_ Hlook]]; [|by eapply IH].
    destruct Hcase as [[Hcomplete ->]|[_ [-> _]]].
    + apply completeTournament_lifecycle; try done.
      * by apply recorded_matchInv.
      * by eapply Hw.
      * by eapply IH.
    + destruct (advanceTournament_effects rng (recorded s ref m result now) t)
        as (refs & specs & _ & Hsame & _).
      eapply sameSetup_lifecycle; [exact Hsame|]. by eapply IH.
Qed.

(** C4 as stated fails in both directions.  A round robin whose only match
    has been reported is Completed and has no winner; a completed single
    elimination that is started again is InProgress and keeps its winner. *)
Lemma winner_iff_completed_fails :
  (reachable sampleRandom leagueReported
   ∧ ∃ t, tournaments leagueReported !! "t4k2m9a" = Some t
          ∧ t_type t = RoundRobin
          ∧ t_status t = Completed ∧ t_winner t = None)
  ∧ (reachable sampleRandom duelRestarted
     ∧ ∃ t, tournaments duelRestarted !! "t4k2m9a" = Some t
            ∧ t_type t = SingleElimination
            ∧ t_status t = InProgress ∧ is_Some (t_winner t)).
Proof.
  split; (split; [apply leagueReported_reachable || apply duelRestarted_reachable|]).
  - eexists. split; [vm_compute; reflexivity|]. by split_and!.
  - eexists. split; [vm_compute; reflexivity|]. by split_and!.
Qed.

(** C4, as the code has it.  In every reachable system the winner of a
    tournament is set exactly when the tournament is a single
    elimination that has been completed, which its end time records.  A
    Completed tournament has its end time set, and a tournament that has
    one is Completed or, once [startTournament] has been called on it
    again, InProgress; it is never back in Setup. *)
Theorem winner_of_reachable_tournament (rng : Random) (s : TournamentSystem)
    (id : string) (t : Tournament) :
  reachable rng s → tournaments s !! id = Some t →
  (is_Some (t_winner t) ↔
   t_type t = SingleElimination ∧ is_Some (t_endTime t))
  ∧ (t_status t = Completed → is_Some (t_endTime t))
  ∧ (is_Some (t_endTime t) →
     t_status t = Completed ∨ t_status t = InProgress)
  ∧ (t_status t = InProgress → is_Some (t_startTime t)).
Proof. intros Hreach Hlook. exact (reachable_lifecycle rng s Hreach id t Hlook). Qed.

Lemma winner_of_reachable_tournament_witness :
  (is_Some (t_winner duelTournament)
   ∧ is_Some (t_endTime duelTournament)
   ∧ (t_status duelTournament = Completed
      ∨ t_status duelTournament = InProgress))
  ∧ (t_type duelRestartedTournament = SingleElimination
     ∧ is_Some (t_endTime duelRestartedTournament)
     ∧ is_Some (t_startTime duelRestartedTournament)).
Proof.
  split.
  - destruct (winner_of_reachable_tournament sampleRandom duelReported
                "t4k2m9a" duelTournament) as (Hwin & Hdone & Hend & _).
    + apply duelReported_reachable.
    + vm_compute. reflexivity.
    + split_and!.
      * apply Hwin. split; [reflexivity | by eexists].
      * apply Hdone. reflexivity.
      * apply Hend. by eexists.
  - destruct (winner_of_reachable_tournament sampleRandom duelRestarted
                "t4k2m9a" duelRestartedTournament) as (Hwin & _ & _ & Hstart).
    + apply duelRestarted_reachable.
    + vm_compute. reflexivity.
    + destruct Hwin as [Hwin _].
      destruct Hwin as [Htype Hend]; [by eexists|].
      split_and!; [exact Htype | exact Hend | apply Hstart; reflexivity].
Defined.

(** C5 fails on the statistics.  The copy made by [createTournament] shares
    the [stats] object of the registry entry: after one reported match the
    registry entry of "ai_easy" is the same player object, with the same
    rating, and its statistics have changed from 0/0/0/0 to one win in one
    game. *)
Lemma registry_stats_follow_tournament :
  ∃ ref player,
    playerDatabase Tournament.new !! "ai_easy" = Some ref
    ∧ playerObjs Tournament.new !! ref = Some player
    ∧ statsObjs Tournament.new !! p_stats player = Some (mkStats 0 0 0 0)
    ∧ playerDatabase leagueReported !! "ai_easy" = Some ref
    ∧ playerObjs leagueReported !! ref = Some player
    ∧ p_elo player = Rating 1200
    ∧ statsObjs leagueReported !! p_stats player = Some (mkStats 1 0 0 1).
Proof.
  eexists _, _. split; [vm_compute; reflexivity|].
  split; [vm_compute; reflexivity|].
  split; [vm_compute; reflexivity|].
  split; [vm_compute; reflexivity|].
  split; [vm_compute; reflexivity|].
  split; [reflexivity|]. vm_compute. reflexivity.
Qed.

(** ** Reporting a match a second time *)






Lemma gamesPlayed_bump (st : Stats) (won drew : bool) :
  gamesPlayed (bump st won drew) = gamesPlayed st + 1.
Proof. unfold bump. by destruct won, drew. Qed.






Lemma clonePlayers_registered (playerIds : list string)
    (players : list TournamentPlayer) :
  ∀ s,
    Forall2 (registered s) playerIds players →
    ∃ refs s1,
      clonePlayers s playerIds = inr (refs, s1)
      ∧ Forall2 (λ ref player, playerObjs s1 !! ref = Some player) refs players
      ∧ (∀ r p, playerObjs s !! r = Some p → playerObjs s1 !! r = Some p)
      ∧ tournaments s1 = tournaments s ∧ matchObjs s1 = matchObjs s
      ∧ statsObjs s1 = statsObjs s ∧ randomCalls s1 = randomCalls s.
Proof.
  revert players.
  induction playerIds as [|id rest IH]; intros players s Hreg.
  - apply Forall2_nil_inv_l in Hreg as ->. exists [], s. by split_and!.
  - apply Forall2_cons_inv_l in Hreg as (player & players' & Hid & Hrest & ->).
    destruct Hid as (reg & Hdb & Hobj).
    simpl. rewrite Hdb. simpl. rewrite Hobj.
    set (s0 := setPlayerObjs s _).
    destruct (IH players' s0) as (refs & s1 & Hrun & Hall & Hkeep & ? & ? & ? & ?).
    { eapply Forall2_impl; [exact Hrest|].
      intros id' p' (reg' & Hdb' & Hobj'). exists reg'. split; [done|].
      subst s0. simpl. by apply alloc_old. }
    rewrite Hrun. eexists _, s1. split; [done|]. split_and!; try done.
    + constructor; [|done]. apply Hkeep. subst s0. simpl. apply alloc_new.
    + intros r p Hr. apply Hkeep. subst s0. simpl. by apply alloc_old.
Qed.

Lemma omap_cons {A B : Type} (f : A → option B) (x : A) (l : list A) :
  omap f (x :: l)
  = match f x with Some y => y :: omap f l | None => omap f l end.
Proof. reflexivity. Qed.

Lemma omap_length_le {A B : Type} (f : A → option B) (l : list A) :
  (length (omap f l) ≤ length l)%nat.
Proof.
  induction l as [|x l IH]; [done|].
  rewrite omap_cons. destruct (f x); simpl; lia.
Qed.

Lemma omap_all_some {A B : Type} (f : A → option B) (l : list A) :
  length (omap f l) = length l → Forall (λ x, is_Some (f x)) l.
Proof.
  induction l as [|x l IH]; [constructor|].
  rewrite omap_cons. destruct (f x) as [y|] eqn:E; simpl.
  - intros [= Hlen]. constructor; [by eexists | by apply IH].
  - intros Hlen. pose proof (omap_length_le f l). lia.
Qed.

(** Pushing a match on a tournament whose matches all exist. *)
Lemma matchesOf_pushMatch (rng : Random) (s : TournamentSystem)
    (t : Tournament) (player1 player2 : option nat) (roundNumber : Z) :
  length (matchesOf s t) = length (t_matches t) →
  matchesOf (pushMatch rng s t player1 player2 roundNumber).2
            (pushMatch rng s t player1 player2 roundNumber).1.2
  = matchesOf s t
    ++ [((pushMatch rng s t player1 player2 roundNumber).1.1,
         pendingMatch (randomId rng (randomCalls s)) player1 player2
           roundNumber)].
Proof.
  intros Hlen. rewrite pushMatch_eq. unfold matchesOf in *. simpl.
  rewrite omap_app. simpl. rewrite lookup_insert_eq. simpl. f_equal.
  apply omap_all_some in Hlen.
  induction Hlen as [|r refs [m Hr] _ IH]; [done|].
  rewrite !omap_cons.
  destruct (matchObjs s !! r) as [m0|] eqn:E; [|by simpl in Hr].
  rewrite (alloc_old _ _ _ _ E). simpl. by rewrite IH.
Qed.

Lemma matchesOf_recorded (s : TournamentSystem) (t : Tournament) (ref : nat)
    (m : Match) (result : MatchResult) (now : nat) :
  matchObjs s !! ref = Some m →
  matchesOf (recorded s ref m result now) t
  = (λ rm : nat * Match,
       if decide (rm.1 = ref)
       then (ref, mkMatch (m_id m) (m_player1 m) (m_player2 m) result
                    (m_roundNumber m) (m_startTime m) (Some now) (m_moves m))
       else rm)
    <$> matchesOf s t.
Proof.
  intros Hm. unfold matchesOf.
  destruct (recorded_frame s ref m result now) as (_ & _ & _ & ->).
  induction (t_matches t) as [|r refs IH]; [done|].
  rewrite !omap_cons, IH.
  destruct (decide (r = ref)) as [->|Hne].
  - rewrite lookup_insert_eq, Hm. simpl. by rewrite decide_True.
  - rewrite lookup_insert_ne by done.
    destruct (matchObjs s !! r); simpl; [|done]. by rewrite decide_False.
Qed.

Lemma createTournament_four (rng : Random) (s : TournamentSystem)
    (name i1 i2 i3 i4 : string) (p1 p2 p3 p4 : TournamentPlayer) :
  registered s i1 p1 → registered s i2 p2 →
  registered s i3 p3 → registered s i4 p4 →
  ∃ c1 c2 c3 c4 a b s1,
    let k := randomCalls s in
    let ma := pendingMatch (randomId rng (S k)) (Some c1) (Some c2) 1 in
    let mb := pendingMatch (randomId rng (S (S k))) (Some c3) (Some c4) 1 in
    let t :=
      {| t_id := randomId rng k; t_name := name;
         t_type := SingleElimination; t_status := Setup;
         t_players := [c1; c2; c3; c4]; t_matches := [a; b];
         t_bracket := mkBracket [[a; b]; []] None None;
         t_currentRound := 0; t_totalRounds := 2; t_winner := None;
         t_startTime := None; t_endTime := None |} in
    createTournament rng s name SingleElimination [i1; i2; i3; i4] = Ok (t, s1)
    ∧ tournaments s1 !! randomId rng k = Some t
    ∧ matchesOf s1 t = [(a, ma); (b, mb)]
    ∧ a ≠ b
    ∧ randomCalls s1 = S (S (S k))
    ∧ playerObjs s1 !! c1 = Some p1 ∧ playerObjs s1 !! c2 = Some p2
    ∧ playerObjs s1 !! c3 = Some p3 ∧ playerObjs s1 !! c4 = Some p4.
Proof.
  intros H1 H2 H3 H4.
  destruct (clonePlayers_registered [i1; i2; i3; i4] [p1; p2; p3; p4] s)
    as (refs & sc & Hrun & Hall & _ & Htour & Hmatch & _ & Hcalls).
  { by repeat constructor. }
  apply Forall2_cons_inv_r in Hall as (c1 & refs1 & Hc1 & Hall & ->).
  apply Forall2_cons_inv_r in Hall as (c2 & refs2 & Hc2 & Hall & ->).
  apply Forall2_cons_inv_r in Hall as (c3 & refs3 & Hc3 & Hall & ->).
  apply Forall2_cons_inv_r in Hall as (c4 & refs4 & Hc4 & Hall & ->).
  apply Forall2_nil_inv_r in Hall as ->.
  unfold createTournament. rewrite bool_decide_false by (simpl; lia).
  rewrite Hrun.
  exists c1, c2, c3, c4.
  eexists _, _, _. cbv zeta.
  split; [rewrite <- Hcalls; reflexivity|].
  assert (∀ (M : gmap nat Match) (x : Match),
            fresh (dom M) ≠ fresh (dom (<[fresh (dom M) := x]> M))) as Hab.
  { intros M x. apply (alloc_fresh _ _ x). apply lookup_insert_eq. }
  split_and!.
  - simpl. rewrite Hcalls. apply lookup_insert_eq.
  - unfold matchesOf. simpl. rewrite Hmatch, Hcalls.
    rewrite lookup_insert_ne by (symmetry; by apply Hab).
    rewrite !lookup_insert_eq. reflexivity.
  - simpl. rewrite Hmatch. by apply Hab.
  - simpl. by rewrite Hcalls.
  - exact Hc1.
  - exact Hc2.
  - exact Hc3.
  - exact Hc4.
Qed.

Lemma startTournament_eq (s : TournamentSystem) (id : string) (now : nat)
    (t : Tournament) :
  tournaments s !! id = Some t →
  startTournament s id now
  = Ok (setCurrentRound (setStartTime (setStatus t InProgress) (Some now)) 1,
        setTournaments s
          (<[id := setCurrentRound
                     (setStartTime (setStatus t InProgress) (Some now)) 1]>
             (tournaments s))).
Proof. intros H. unfold startTournament. by rewrite H. Qed.

Section FourPlayers.
Variables (rng : Random) (s : TournamentSystem).
Variables (name i1 i2 i3 i4 : string) (p1 p2 p3 p4 : TournamentPlayer).
Variables (now1 now2 now3 now4 : nat).
Hypothesis Hreg1 : registered s i1 p1.
Hypothesis Hreg2 : registered s i2 p2.
Hypothesis Hreg3 : registered s i3 p3.
Hypothesis Hreg4 : registered s i4 p4.
Hypothesis Hid12 :
  randomId rng (S (randomCalls s)) ≠ randomId rng (S (S (randomCalls s))).
Hypothesis Hid13 :
  randomId rng (S (randomCalls s)) ≠ randomId rng (S (S (S (randomCalls s)))).
Hypothesis Hid23 :
  randomId rng (S (S (randomCalls s)))
  ≠ randomId rng (S (S (S (randomCalls s)))).

Lemma four_players_run (final : MatchResult) :
final = Player1 ∨ final = Player2 →
fourPlayerRun rng s name i1 i2 i3 i4 p1 p2 p3 p4 now1 now2 now3 now4 final.
Proof.
unfold fourPlayerRun.
intros Hfinal.
destruct (createTournament_four rng s name i1 i2 i3 i4 p1 p2 p3 p4)
  as (c1 & c2 & c3 & c4 & a & b & s1 & Hcreate & Ht1 & Hms1 & Hab & Hcalls1
      & Hp1 & Hp2 & Hp3 & Hp4); try done.
cbv zeta in *.
set (k := randomCalls s) in *.
set (ida := randomId rng (S k)) in *.
set (idb := randomId rng (S (S k))) in *.
set (idc := randomId rng (S (S (S k)))) in *.
set (tid := randomId rng k) in *.
set (ma := pendingMatch ida (Some c1) (Some c2) 1) in *.
set (mb := pendingMatch idb (Some c3) (Some c4) 1) in *.
match type of Hcreate with
| _ = Ok (?t0, _) => set (t := t0) in *
end.
exists t, s1, a, b, ma, mb, c1, c2, c3, c4.
split; [exact Hcreate|]. split; [reflexivity|]. split; [exact Hms1|].
split; [reflexivity|]. split; [reflexivity|]. split; [reflexivity|].
split; [reflexivity|].
split; [exact Hp1|]. split; [exact Hp2|].
split; [exact Hp3|]. split; [exact Hp4|].
split; [reflexivity|]. split; [reflexivity|].
split; [reflexivity|]. split; [reflexivity|].
clear Hp1 Hp2 Hp3 Hp4.
(* start *)
rewrite (startTournament_eq s1 (t_id t) now1 t Ht1).
set (t2 := setCurrentRound _ 1).
set (s2 := setTournaments s1 _).
exists t2, s2. split; [reflexivity|].
assert (tournaments s2 !! tid = Some t2) as Ht2
  by (subst s2; simpl; apply lookup_insert_eq).
assert (matchesOf s2 t2 = [(a, ma); (b, mb)]) as Hms2 by exact Hms1.
assert (randomCalls s2 = S (S (S k))) as Hcalls2 by exact Hcalls1.
clearbody s2. clear Hcreate Ht1 Hms1 Hcalls1.
change (t_id t) with tid. change (m_id ma) with ida.
change (m_id mb) with idb.
(* first report *)
assert (List.find (λ rm : nat * Match, bool_decide (m_id rm.2 = ida))
          (matchesOf s2 t2) = Some (a, ma)) as Hfind2.
{ rewrite Hms2. simpl. by rewrite bool_decide_true. }
rewrite (reportMatchResult_eq _ _ _ _ _ _ _ _ _ Ht2 Hfind2).
assert (matchObjs s2 !! a = Some ma) as Ha2.
{ apply (matchesOf_lookup s2 t2). rewrite Hms2. by left. }
pose proof (matchesOf_recorded s2 t2 a ma Player1 now2 Ha2) as Hms3.
rewrite Hms2 in Hms3. simpl in Hms3.
rewrite decide_True in Hms3 by done.
rewrite decide_False in Hms3 by done.
destruct (recorded_frame s2 a ma Player1 now2) as (Htour3 & _ & Hcalls3 & _).
set (ma' := mkMatch (m_id ma) (m_player1 ma) (m_player2 ma) Player1
              (m_roundNumber ma) (m_startTime ma) (Some now2) (m_moves ma))
  in *.
remember (recorded s2 a ma Player1 now2) as sr eqn:Hsr. clear Hsr.
cbv zeta.
assert (isTournamentComplete sr t2 = false) as ->.
{ unfold isTournamentComplete. rewrite Hms3. reflexivity. }
assert (advanceTournament rng sr t2 = (t2, sr)) as ->.
{ unfold advanceTournament, advanceSingleElimination. simpl.
  rewrite Hms3. reflexivity. }
cbv zeta.
set (s3 := setTournaments sr _).
assert (tournaments s3 !! tid = Some t2) as Ht3
  by (subst s3; simpl; apply lookup_insert_eq).
assert (matchesOf s3 t2 = [(a, ma'); (b, mb)]) as Hms3' by exact Hms3.
assert (randomCalls s3 = S (S (S k))) as Hcalls3'
  by (subst s3; simpl; congruence).
exists s3. clearbody s3.
clear Hms3 Htour3 Hcalls3 Ht2 Hms2 Hcalls2 Hfind2 Ha2 sr s2.
(* second report *)
assert (List.find (λ rm : nat * Match, bool_decide (m_id rm.2 = idb))
          (matchesOf s3 t2) = Some (b, mb)) as Hfind3.
{ rewrite Hms3'. simpl. rewrite bool_decide_false by done.
  by rewrite bool_decide_true. }
rewrite (reportMatchResult_eq _ _ _ _ _ _ _ _ _ Ht3 Hfind3).
assert (matchObjs s3 !! b = Some mb) as Hb3.
{ apply (matchesOf_lookup s3 t2). rewrite Hms3'. right. by left. }
pose proof (matchesOf_recorded s3 t2 b mb Player1 now3 Hb3) as Hms4.
rewrite Hms3' in Hms4. simpl in Hms4.
rewrite decide_False in Hms4 by done.
rewrite decide_True in Hms4 by done.
destruct (recorded_frame s3 b mb Player1 now3) as (Htour4 & _ & Hcalls4 & _).
set (mb' := mkMatch (m_id mb) (m_player1 mb) (m_player2 mb) Player1
              (m_roundNumber mb) (m_startTime mb) (Some now3) (m_moves mb))
  in *.
remember (recorded s3 b mb Player1 now3) as sr eqn:Hsr. clear Hsr.
cbv zeta.
assert (isTournamentComplete sr t2 = false) as ->.
{ unfold isTournamentComplete. rewrite Hms4. reflexivity. }
set (t3 := setCurrentRound t2 (t_currentRound t2 + 1)).
assert (advanceTournament rng sr t2
        = ((pushMatch rng sr t3 (Some c1) (Some c3) 2).1.2,
           (pushMatch rng sr t3 (Some c1) (Some c3) 2).2)) as ->.
{ unfold advanceTournament, advanceSingleElimination. simpl.
  rewrite Hms4. reflexivity. }
pose proof (matchesOf_pushMatch rng sr t3 (Some c1) (Some c3) 2) as Hms5.
rewrite Hcalls4, Hcalls3' in Hms5. fold idc in Hms5.
change (matchesOf sr t3) with (matchesOf sr t2) in Hms5.
rewrite Hms4 in Hms5. specialize (Hms5 eq_refl).
assert (matchObjs sr !! a = Some ma' ∧ matchObjs sr !! b = Some mb')
  as [Ha4 Hb4].
{ split; apply (matchesOf_lookup sr t2); rewrite Hms4;
    [by left | right; by left]. }
assert ((pushMatch rng sr t3 (Some c1) (Some c3) 2).1.1 ≠ a
        ∧ (pushMatch rng sr t3 (Some c1) (Some c3) 2).1.1 ≠ b) as [Hca Hcb].
{ rewrite pushMatch_eq. simpl.
  split; apply not_eq_sym; eapply alloc_fresh; eassumption. }
assert (tournaments (pushMatch rng sr t3 (Some c1) (Some c3) 2).2
        = tournaments sr) as Htour5 by (by rewrite pushMatch_eq).
assert (t_totalRounds (pushMatch rng sr t3 (Some c1) (Some c3) 2).1.2 = 2
        ∧ t_type (pushMatch rng sr t3 (Some c1) (Some c3) 2).1.2
          = SingleElimination) as [Htot5 Hty5]
  by (by rewrite pushMatch_eq).
destruct (pushMatch rng sr t3 (Some c1) (Some c3) 2) as [[c t4] s4'].
simpl in Hms5, Hca, Hcb, Htour5, Htot5, Hty5. cbv zeta. simpl.
set (mc := pendingMatch idc (Some c1) (Some c3) 2) in *.
set (s4 := setTournaments s4' _).
assert (tournaments s4 !! tid = Some t4) as Ht4
  by (subst s4; simpl; apply lookup_insert_eq).
assert (matchesOf s4 t4 = [(a, ma'); (b, mb'); (c, mc)]) as Hms4'
  by exact Hms5.
exists s4. clearbody s4. split; [reflexivity|]. split; [reflexivity|].
exists t4, c, mc. split; [exact Ht4|].
split; [rewrite Hms4'; reflexivity|].
split; [reflexivity|]. split; [reflexivity|]. split; [reflexivity|].
clear Hms5 Htour5 Hms4 Htour4 Hcalls4 Ht3 Hms3' Hcalls3' Hfind3 Hb3 Ha4 Hb4.
(* final report *)
change (m_id mc) with idc.
assert (List.find (λ rm : nat * Match, bool_decide (m_id rm.2 = idc))
          (matchesOf s4 t4) = Some (c, mc)) as Hfind4.
{ rewrite Hms4'. simpl. rewrite !bool_decide_false by done.
  by rewrite bool_decide_true. }
rewrite (reportMatchResult_eq _ _ _ _ _ _ _ _ _ Ht4 Hfind4).
assert (matchObjs s4 !! c = Some mc) as Hc4.
{ apply (matchesOf_lookup s4 t4). rewrite Hms4'. right. right. by left. }
pose proof (matchesOf_recorded s4 t4 c mc final now4 Hc4) as Hms6.
rewrite Hms4' in Hms6. simpl in Hms6.
rewrite !decide_False in Hms6 by (simpl; congruence).
rewrite decide_True in Hms6 by done.
set (mc' := mkMatch (m_id mc) (m_player1 mc) (m_player2 mc) final
              (m_roundNumber mc) (m_startTime mc) (Some now4) (m_moves mc))
  in *.
remember (recorded s4 c mc final now4) as sr2 eqn:Hsr2. clear Hsr2.
cbv zeta.
assert (isTournamentComplete sr2 t4 = true) as ->.
{ unfold isTournamentComplete. rewrite Hms6, Htot5.
  by destruct Hfinal as [-> | ->]. }
cbv zeta. eexists _, _. split; [reflexivity|]. simpl.
split; [apply lookup_insert_eq|].
rewrite completeTournament_eq. rewrite Hty5, Hms6, Htot5.
destruct Hfinal as [-> | ->]; by split.
Qed.

End FourPlayers.

(** C7, as the code has it.  A single elimination created with four
    registered players has two rounds in total and two first-round matches,
    pairing the copies of the players in order.  Once the tournament has
    been started, reporting Player1 in both first-round matches creates
    exactly one second-round match, between the first players of the two
    first-round matches; reporting that match as won by either side marks
    the tournament Completed with that side as winner.  The three match
    identifiers drawn are assumed to differ. *)
Theorem single_elimination_four_players (rng : Random) (s : TournamentSystem)
    (name i1 i2 i3 i4 : string) (p1 p2 p3 p4 : TournamentPlayer)
    (now1 now2 now3 now4 : nat) (final : MatchResult) :
  registered s i1 p1 → registered s i2 p2 →
  registered s i3 p3 → registered s i4 p4 →
  randomId rng (S (randomCalls s)) ≠ randomId rng (S (S (randomCalls s))) →
  randomId rng (S (randomCalls s))
  ≠ randomId rng (S (S (S (randomCalls s)))) →
  randomId rng (S (S (randomCalls s)))
  ≠ randomId rng (S (S (S (randomCalls s)))) →
  final = Player1 ∨ final = Player2 →
  fourPlayerRun rng s name i1 i2 i3 i4 p1 p2 p3 p4 now1 now2 now3 now4 final.
Proof. intros. by apply four_players_run. Qed.

Lemma single_elimination_four_players_witness :
  fourPlayerRun sampleRandom Tournament.new "cup"
    "ai_easy" "ai_medium" "ai_hard" "ai_expert"
    (registryPlayer 0 AI.Easy) (registryPlayer 1 AI.Medium)
    (registryPlayer 2 AI.Hard) (registryPlayer 3 AI.Expert)
    1 2 3 4 Player1.
Proof.
  apply (single_elimination_four_players sampleRandom Tournament.new "cup"
           "ai_easy" "ai_medium" "ai_hard" "ai_expert").
  - exists 0%nat. split; vm_compute; reflexivity.
  - exists 1%nat. split; vm_compute; reflexivity.
  - exists 2%nat. split; vm_compute; reflexivity.
  - exists 3%nat. split; vm_compute; reflexivity.
  - vm_compute. discriminate.
  - vm_compute. discriminate.
  - vm_compute. discriminate.
  - left. reflexivity.
Defined.

(** C7 as stated fails when the tournament is not started.  After
    [createTournament] the current round is 0, so the two reports find no
    completed match of the current round and create no second-round match:
    the tournament stays in Setup with its two first-round matches. *)
Lemma no_second_round_before_start :
  (∃ t, createTournament sampleRandom Tournament.new "cup" SingleElimination
          ["ai_easy"; "ai_medium"; "ai_hard"; "ai_expert"]
        = Ok (t, cupCreated)
        ∧ t_totalRounds t = 2
        ∧ (λ rm : nat * Match, m_id rm.2) <$> matchesOf cupCreated t
          = ["m7q1x0c"; "m2b8r5d"])
  ∧ reportMatchResult sampleRandom cupCreated "t4k2m9a" "m7q1x0c" Player1 1
    = Ok cupReportedOnce
  ∧ reportMatchResult sampleRandom cupReportedOnce "t4k2m9a" "m2b8r5d"
      Player1 2 = Ok cupReportedTwice
  ∧ ∃ t, tournaments cupReportedTwice !! "t4k2m9a" = Some t
         ∧ t_status t = Setup ∧ t_currentRound t = 0
         ∧ (λ rm : nat * Match, m_result rm.2) <$> matchesOf cupReportedTwice t
           = [Player1; Player1]
         ∧ List.filter (λ rm : nat * Match, inRound 2 rm.2)
             (matchesOf cupReportedTwice t) = [].
Proof.
  split.
  { eexists. split; [vm_compute; reflexivity|]. split; vm_compute; reflexivity. }
  split; [vm_compute; reflexivity|].
  split; [vm_compute; reflexivity|].
  eexists. split; [vm_compute; reflexivity|].
  split; [reflexivity|]. split; [reflexivity|].
  split; vm_compute; reflexivity.
Qed.

(** * Further properties of the decision engine *)

(** *** Search *)

(** X1.  What a search with a narrowed window returns.  On every 3x3 board
    and for every window with [alpha < beta], [minimaxAlphaBeta] returns a
    score that is the minimax score when it lies strictly inside the
    window, an upper bound of the minimax score when it is at or below
    [alpha], and a lower bound of it when it is at or above [beta]. *)
Theorem alphabeta_window (ai : AdvancedAIPlayer) (board : BoardState)
    (depth : Z) (alpha beta : num) (isMaximizing : bool) :
  wf_board board → lt_num alpha beta →
  ∃ v w,
    minimax searchFuel ai board depth isMaximizing = Some v
    ∧ minimaxAlphaBeta searchFuel ai board depth alpha beta isMaximizing
      = Some w
    ∧ (lt_num alpha w → lt_num w beta → w = v)
    ∧ (le_num w alpha → le_num v w)
    ∧ (le_num beta w → le_num w v).
Proof.
  intros Hwf Hlt.
  pose proof (countEmpty_le board Hwf) as Hle.
  destruct (search_agrees searchFuel ai board depth isMaximizing Hwf)
    with (alpha := alpha) (beta := beta) as (v & w & Hv & Hw & Hlo & Hhi & Hin);
    [unfold searchFuel; lia | done |].
  exists v, w. split; [done|]. split; [done|].
  split; [|done].
  intros H1 H2. destruct (Hin H1 H2). by apply le_num_antisym.
Qed.

Lemma alphabeta_window_witness :
  ∃ v w,
    minimax searchFuel (AI.new X Expert) sampleBoard 0 true = Some v
    ∧ minimaxAlphaBeta searchFuel (AI.new X Expert) sampleBoard 0
        (Fin 0) (Fin 5) true = Some w
    ∧ (lt_num (Fin 0) w → lt_num w (Fin 5) → w = v)
    ∧ (le_num w (Fin 0) → le_num v w)
    ∧ (le_num (Fin 5) w → le_num w v).
Proof.
  apply (alphabeta_window (AI.new X Expert) sampleBoard 0 (Fin 0) (Fin 5) true).
  - apply wf_board_grid.
  - unfold lt_num. simpl. lia.
Defined.

(** X2.  Scores are finite.  At depth [d], on a 3x3 board with at most
    [10 - d] empty cells, both searches return the same integer, between
    [d - 10] and [10 - d]: neither sentinel of the loops is ever
    returned. *)
Theorem minimax_score_range (ai : AdvancedAIPlayer) (board : BoardState)
    (depth : Z) (isMaximizing : bool) :
  wf_board board → 0 ≤ depth → depth + Z.of_nat (countEmpty board) ≤ 10 →
  ∃ z, minimax searchFuel ai board depth isMaximizing = Some (Fin z)
       ∧ minimaxAlphaBeta searchFuel ai board depth NegInf PosInf isMaximizing
         = Some (Fin z)
       ∧ depth - 10 ≤ z ≤ 10 - depth.
Proof.
  intros Hwf Hd Hc.
  pose proof (countEmpty_le board Hwf) as Hle.
  destruct (minimax_bounds searchFuel ai board depth isMaximizing)
    as (v & Hv & z & -> & Hz); [done | unfold searchFuel; lia | done | done |].
  destruct (minimax_alphabeta_same_score_aux ai board depth isMaximizing Hwf)
    as (v' & Hv' & Hab).
  exists z. split; [done|]. split; [congruence | done].
Qed.

Lemma minimax_score_range_witness :
  ∃ z, minimax searchFuel (AI.new X Hard) sampleBoard 2 true = Some (Fin z)
       ∧ minimaxAlphaBeta searchFuel (AI.new X Hard) sampleBoard 2
           NegInf PosInf true = Some (Fin z)
       ∧ 2 - 10 ≤ z ≤ 10 - 2.
Proof.
  apply (minimax_score_range (AI.new X Hard) sampleBoard 2 true).
  - apply wf_board_grid.
  - lia.
  - vm_compute. discriminate.
Defined.

(** *** The engine's fields and the search *)

Lemma for_of_ext {A S : Type} (xs : list A) (f g : S → A → option (ctl S)) :
  (∀ s x, x ∈ xs → f s x = g s x) → ∀ s, for_of xs f s = for_of xs g s.
Proof.
  induction xs as [|x xs IH]; intros Hfg s; simpl; [done|].
  rewrite Hfg by (by left).
  destruct (g s x) as [[s'|s']|]; [|done|done].
  apply IH. intros s0 y Hy. apply Hfg. by right.
Qed.

(** The searches read the engine's [player] and [opponent] only. *)
Lemma minimax_same_players (fuel : nat) (ai ai2 : AdvancedAIPlayer) :
  player ai2 = player ai → opponent ai2 = opponent ai →
  ∀ board depth isMaximizing,
    minimax fuel ai2 board depth isMaximizing
    = minimax fuel ai board depth isMaximizing.
Proof.
  intros Hp Ho. induction fuel as [|fuel IH]; intros board depth isMaximizing;
    [done|].
  rewrite !minimax_unfold, Hp, Ho.
  repeat case_decide; try done.
  destruct (isBoardFull board); [done|].
  destruct isMaximizing; apply for_of_ext; intros s x _;
    unfold plain_max, plain_min; by rewrite IH.
Qed.

Lemma minimaxAlphaBeta_same_players (fuel : nat) (ai ai2 : AdvancedAIPlayer) :
  player ai2 = player ai → opponent ai2 = opponent ai →
  ∀ board depth alpha beta isMaximizing,
    minimaxAlphaBeta fuel ai2 board depth alpha beta isMaximizing
    = minimaxAlphaBeta fuel ai board depth alpha beta isMaximizing.
Proof.
  intros Hp Ho.
  induction fuel as [|fuel IH]; intros board depth alpha beta isMaximizing;
    [done|].
  rewrite !minimaxAlphaBeta_unfold, Hp, Ho.
  repeat case_decide; try done.
  destruct (isBoardFull board); [done|].
  destruct isMaximizing; f_equal; apply for_of_ext; intros [s1 s2] x _;
    unfold pruned_max, pruned_min; by rewrite IH.
Qed.

Section SameMemory.
Variables (fuel : nat) (rnd : nat → nat) (board : BoardState).
Variable f : AdvancedAIPlayer → AdvancedAIPlayer.
Hypothesis f_difficulty : ∀ ai, difficulty (f ai) = difficulty ai.
Hypothesis f_player : ∀ ai, player (f ai) = player ai.
Hypothesis f_opponent : ∀ ai, opponent (f ai) = opponent ai.
Hypothesis f_memory : ∀ ai, patternMemory (f ai) = patternMemory ai.
Hypothesis f_update :
  ∀ ai b move, updatePatternMemory (f ai) b move
               = f (updatePatternMemory ai b move).

Lemma getBestMove_same_memory (ai : AdvancedAIPlayer) (move : AIMove)
    (ai' : AdvancedAIPlayer) :
  getBestMove fuel rnd ai board = Ok (move, ai') →
  getBestMove fuel rnd (f ai) board = Ok (move, f ai').
Proof.
  unfold getBestMove. case_bool_decide; [done|].
  rewrite f_difficulty.
  destruct (difficulty ai).
  - by intros [= <- <-].
  - unfold getMediumMove. rewrite f_player, f_opponent. by intros [= <- <-].
  - unfold getHardMove. rewrite f_player.
    rewrite (selectBest_ext
               (λ m, minimax fuel (f ai) (makeMove board m (player ai)) 0 false)
               (λ m, minimax fuel ai (makeMove board m (player ai)) 0 false))
      by (intros; by apply minimax_same_players).
    destruct (selectBest _ _) as [[bm bs]|]; [|done]. simpl.
    by intros [= <- <-].
  - unfold getExpertMove. rewrite f_player.
    rewrite (selectBest_ext
               (λ m, minimaxAlphaBeta fuel (f ai)
                       (makeMove board m (player ai)) 0 NegInf PosInf false)
               (λ m, minimaxAlphaBeta fuel ai (makeMove board m (player ai)) 0
                       NegInf PosInf false))
      by (intros; by apply minimaxAlphaBeta_same_players).
    destruct (selectBest _ _) as [[bm bs]|]; [|done]. simpl.
    rewrite f_update. by intros [= <- <-].
  - unfold getImpossibleMove.
    assert (getPatternMove (f ai) board = getPatternMove ai board) as ->.
    { unfold getPatternMove. by rewrite f_memory. }
    destruct (getPatternMove ai board); [by intros [= <- <-]|].
    rewrite f_player.
    rewrite (selectBest_ext
               (λ m, score ← minimaxAlphaBeta fuel (f ai)
                               (makeMove board m (player ai)) 0
                               NegInf PosInf false;
                     Some (nadd score (getPositionalScore m)))
               (λ m, score ← minimaxAlphaBeta fuel ai
                               (makeMove board m (player ai)) 0
                               NegInf PosInf false;
                     Some (nadd score (getPositionalScore m)))).
    2:{ intros x _. simpl.
        by rewrite (minimaxAlphaBeta_same_players fuel ai (f ai)). }
    destruct (selectBest _ _) as [[bm bs]|]; [|done]. simpl.
    rewrite f_update. by intros [= <- <-].
Qed.

End SameMemory.

(** X3.  The list of recorded moves is never consulted: recording a move or
    resetting the engine before [getBestMove] gives the same move, and the
    same engine up to that list. *)
Theorem move_history_not_consulted (fuel : nat) (rnd : nat → nat)
    (ai : AdvancedAIPlayer) (board : BoardState) (pos : Position)
    (move : AIMove) (ai' : AdvancedAIPlayer) :
  getBestMove fuel rnd ai board = Ok (move, ai') →
  getBestMove fuel rnd (recordMove ai pos) board = Ok (move, recordMove ai' pos)
  ∧ getBestMove fuel rnd (reset ai) board = Ok (move, reset ai')
  ∧ patternMemory (reset ai') = patternMemory ai'.
Proof.
  intros Hrun. split; [|split; [|done]].
  - by apply (getBestMove_same_memory fuel rnd board (λ a, recordMove a pos)).
  - by apply (getBestMove_same_memory fuel rnd board reset).
Qed.

Lemma move_history_not_consulted_witness :
  getBestMove 0 firstIndex (recordMove reinforcedEngine (mkPosition 1 1))
    sampleBoard
  = Ok ({| position := Some (mkPosition 0 0); score := Fin 6;
           confidence := 9 # 10; strategy := "Pattern Recognition" |},
        recordMove reinforcedEngine (mkPosition 1 1))
  ∧ getBestMove 0 firstIndex (reset reinforcedEngine) sampleBoard
    = Ok ({| position := Some (mkPosition 0 0); score := Fin 6;
             confidence := 9 # 10; strategy := "Pattern Recognition" |},
          reset reinforcedEngine)
  ∧ patternMemory (reset reinforcedEngine) = patternMemory reinforcedEngine.
Proof.
  apply (move_history_not_consulted 0 firstIndex reinforcedEngine sampleBoard
           (mkPosition 1 1)).
  vm_compute. reflexivity.
Defined.

(** *** The selection loop: the first move with the best score *)

Section FirstBest.
Variable scoreOf : Position → option num.

Lemma select_first_best (xs : list Position) :
  (∀ x, x ∈ xs → ∃ z, scoreOf x = Some (Fin z)) →
  ∀ bm bs, ∃ bm' bs',
    for_of xs (select_body scoreOf) (bm, bs) = Some (bm', bs')
    ∧ ((bm' = bm ∧ bs' = bs
        ∧ ∀ x z, x ∈ xs → scoreOf x = Some (Fin z) → le_num (Fin z) bs)
       ∨ ∃ before x after z,
           xs = before ++ x :: after ∧ bm' = Some x ∧ bs' = Fin z
           ∧ scoreOf x = Some (Fin z) ∧ lt_num bs (Fin z)
           ∧ (∀ y z', y ∈ before → scoreOf y = Some (Fin z') → z' < z)
           ∧ (∀ y z', y ∈ after → scoreOf y = Some (Fin z') → z' ≤ z)).
Proof.
  induction xs as [|x xs IH]; intros Hxs bm bs; simpl.
  { exists bm, bs. split; [done|]. left. split_and!; try done.
    intros x z Hx. by apply elem_of_nil in Hx. }
  destruct (Hxs x) as (zx & Hzx); [by left|].
  assert (∀ y, y ∈ xs → ∃ z, scoreOf y = Some (Fin z)) as Hxs'.
  { intros y Hy. apply Hxs. by right. }
  unfold select_body at 1. rewrite Hzx. simpl.
  destruct (ngt (Fin zx) bs) eqn:Hgt.
  - assert (lt_num bs (Fin zx)) as Hlt.
    { unfold ngt in Hgt. apply negb_true_iff in Hgt.
      intros Hle. apply nle_true in Hle. congruence. }
    destruct (IH Hxs' (Some x) (Fin zx)) as (bm' & bs' & Hrun & Hcase).
    exists bm', bs'. split; [done|]. right.
    destruct Hcase as [(-> & -> & Hall)
                      |(before & y & after & z & -> & -> & -> & Hy & Hlt' & Hb & Ha)].
    + exists [], x, xs, zx. split_and!; try done.
      intros y z' Hy. by apply elem_of_nil in Hy.
    + exists (x :: before), y, after, z. split_and!; try done.
      * destruct bs; unfold lt_num, le_num in *; simpl in *; try tauto; lia.
      * intros y0 z' Hy0 Hz'. apply elem_of_cons in Hy0 as [->|Hy0].
        -- rewrite Hzx in Hz'. injection Hz' as <-.
           unfold lt_num, le_num in Hlt'. simpl in Hlt'. lia.
        -- by apply (Hb y0).
  - assert (le_num (Fin zx) bs) as Hle.
    { unfold ngt in Hgt. apply negb_false_iff in Hgt. by apply nle_true. }
    destruct (IH Hxs' bm bs) as (bm' & bs' & Hrun & Hcase).
    exists bm', bs'. split; [done|].
    destruct Hcase as [(-> & -> & Hall)
                      |(before & y & after & z & -> & -> & -> & Hy & Hlt' & Hb & Ha)].
    + left. split_and!; try done.
      intros y z Hy Hz. apply elem_of_cons in Hy as [->|Hy].
      * rewrite Hzx in Hz. by injection Hz as <-.
      * by apply (Hall y).
    + right. exists (x :: before), y, after, z. split_and!; try done.
      intros y0 z' Hy0 Hz'. apply elem_of_cons in Hy0 as [->|Hy0].
      * rewrite Hzx in Hz'. injection Hz' as <-.
        destruct bs; unfold lt_num, le_num in *; simpl in *; try tauto; lia.
      * by apply (Hb y0).
Qed.

Lemma selectBest_first_best (xs : list Position) :
  xs ≠ [] → (∀ x, x ∈ xs → ∃ z, scoreOf x = Some (Fin z)) →
  ∃ before x after z,
    xs = before ++ x :: after
    ∧ selectBest scoreOf xs = Some (Some x, Fin z)
    ∧ scoreOf x = Some (Fin z)
    ∧ (∀ y z', y ∈ before → scoreOf y = Some (Fin z') → z' < z)
    ∧ (∀ y z', y ∈ after → scoreOf y = Some (Fin z') → z' ≤ z).
Proof.
  intros Hne Hxs. rewrite selectBest_unfold.
  destruct (select_first_best xs Hxs (xs !! 0%nat) NegInf)
    as (bm' & bs' & Hrun & Hcase).
  destruct Hcase as [(-> & -> & Hall)
                    |(before & y & after & z & Hsplit & -> & -> & Hy & _ & Hb & Ha)].
  - destruct xs as [|x xs]; [done|].
    destruct (Hxs x) as (zx & Hzx); [by left|].
    by destruct (Hall x zx (list_elem_of_here _ _) Hzx).
  - exists before, y, after, z. by rewrite Hrun.
Qed.

End FirstBest.

Lemma hardScore_fin (ai : AdvancedAIPlayer) (board : BoardState) :
  wf_board board →
  ∀ x, x ∈ getAvailableMoves board → ∃ z, hardScore ai board x = Some (Fin z).
Proof.
  intros Hwf x Hx.
  destruct (hardScore_some ai board x Hwf Hx) as (z & Hz & _). by exists z.
Qed.

(** X4.  The Hard tier returns the first legal move, in row-major order, among
    those whose minimax score is the greatest. *)
Theorem hard_returns_first_best (rnd : nat → nat) (ai : AdvancedAIPlayer)
    (board : BoardState) :
  wf_board board → difficulty ai = Hard → getAvailableMoves board ≠ [] →
  ∃ before pos after z,
    getAvailableMoves board = before ++ pos :: after
    ∧ getBestMove searchFuel rnd ai board
      = Ok ({| position := Some pos; score := Fin z; confidence := 8 # 10;
               strategy := "Minimax" |}, ai)
    ∧ hardScore ai board pos = Some (Fin z)
    ∧ (∀ m z', m ∈ before → hardScore ai board m = Some (Fin z') → z' < z)
    ∧ (∀ m z', m ∈ after → hardScore ai board m = Some (Fin z') → z' ≤ z).
Proof.
  intros Hwf Hd Hne.
  destruct (selectBest_first_best (hardScore ai board)
              (getAvailableMoves board) Hne (hardScore_fin ai board Hwf))
    as (before & pos & after & z & Hsplit & Hsel & Hz & Hb & Ha).
  exists before, pos, after, z. split; [done|].
  rewrite getBestMove_dispatch, Hd by done.
  rewrite (getHardMove_select _ _ _ _ Hsel). done.
Qed.

Lemma hard_returns_first_best_witness :
  ∃ before pos after z,
    getAvailableMoves sampleBoard = before ++ pos :: after
    ∧ getBestMove searchFuel firstIndex (AI.new X Hard) sampleBoard
      = Ok ({| position := Some pos; score := Fin z; confidence := 8 # 10;
               strategy := "Minimax" |}, AI.new X Hard)
    ∧ hardScore (AI.new X Hard) sampleBoard pos = Some (Fin z)
    ∧ (∀ m z', m ∈ before →
         hardScore (AI.new X Hard) sampleBoard m = Some (Fin z') → z' < z)
    ∧ (∀ m z', m ∈ after →
         hardScore (AI.new X Hard) sampleBoard m = Some (Fin z') → z' ≤ z).
Proof.
  apply (hard_returns_first_best firstIndex (AI.new X Hard) sampleBoard).
  - apply wf_board_grid.
  - reflexivity.
  - vm_compute. discriminate.
Defined.

(** X5.  Pruning changes neither the move nor the score: on the same board the
    Expert tier returns the position and the score of the Hard tier. *)
Theorem expert_plays_like_hard (rnd : nat → nat) (ai : AdvancedAIPlayer)
    (board : BoardState) :
  wf_board board → getAvailableMoves board ≠ [] →
  ∃ pos z,
    getBestMove searchFuel rnd (setDifficulty ai Hard) board
    = Ok ({| position := Some pos; score := Fin z; confidence := 8 # 10;
             strategy := "Minimax" |}, setDifficulty ai Hard)
    ∧ getBestMove searchFuel rnd (setDifficulty ai Expert) board
      = Ok ({| position := Some pos; score := Fin z; confidence := 95 # 100;
               strategy := "Alpha-Beta Pruning" |},
            updatePatternMemory (setDifficulty ai Expert) board (Some pos)).
Proof.
  intros Hwf Hne.
  destruct (selectBest_first_best (hardScore (setDifficulty ai Hard) board)
              (getAvailableMoves board) Hne
              (hardScore_fin (setDifficulty ai Hard) board Hwf))
    as (before & pos & after & z & _ & Hsel & _).
  exists pos, z. split.
  - rewrite getBestMove_dispatch by done.
    change (difficulty (setDifficulty ai Hard)) with Hard.
    by rewrite (getHardMove_select _ _ _ _ Hsel).
  - rewrite getBestMove_dispatch by done.
    change (difficulty (setDifficulty ai Expert)) with Expert.
    erewrite getExpertMove_select; [done|].
    rewrite <- Hsel. apply selectBest_ext. intros x _.
    rewrite expertScore_hardScore by done.
    unfold hardScore. by apply minimax_same_players.
Qed.

Lemma expert_plays_like_hard_witness :
  ∃ pos z,
    getBestMove searchFuel firstIndex (setDifficulty (AI.new O Easy) Hard)
      sampleBoard
    = Ok ({| position := Some pos; score := Fin z; confidence := 8 # 10;
             strategy := "Minimax" |}, setDifficulty (AI.new O Easy) Hard)
    ∧ getBestMove searchFuel firstIndex (setDifficulty (AI.new O Easy) Expert)
        sampleBoard
      = Ok ({| position := Some pos; score := Fin z; confidence := 95 # 100;
               strategy := "Alpha-Beta Pruning" |},
            updatePatternMemory (setDifficulty (AI.new O Easy) Expert)
              sampleBoard (Some pos)).
Proof.
  apply (expert_plays_like_hard firstIndex (AI.new O Easy) sampleBoard).
  - apply wf_board_grid.
  - vm_compute. discriminate.
Defined.

(** *** Immediate threats *)

Lemma plain_min_le {A : Type} (mm : A → option num) (xs : list A) :
  (∀ x, x ∈ xs → is_Some (mm x)) →
  ∀ best, ∃ v,
    for_of xs (plain_min mm) best = Some v
    ∧ le_num v best
    ∧ ∀ x s, x ∈ xs → mm x = Some s → le_num v s.
Proof.
  induction xs as [|x xs IH]; intros Hxs best; simpl.
  { exists best. split; [done|]. split; [apply le_num_refl|].
    intros x s Hx. by apply elem_of_nil in Hx. }
  destruct (Hxs x) as (vx & Hvx); [by left|].
  unfold plain_min at 1. rewrite Hvx. simpl.
  destruct (IH (λ y Hy, Hxs y (list_elem_of_further _ _ _ Hy))
               (nmin vx best)) as (v & Hv & Hle & Hall).
  exists v. split; [done|].
  split; [eapply le_num_trans; [exact Hle | apply nmin_le_r]|].
  intros y s Hy Hs. apply elem_of_cons in Hy as [->|Hy].
  - rewrite Hvx in Hs. injection Hs as <-.
    eapply le_num_trans; [exact Hle | apply nmin_le_l].
  - by apply (Hall y).
Qed.

Section Threats.
Variables (ai : AdvancedAIPlayer) (board : BoardState) (move : Position).
Hypothesis Hwf : wf_board board.
Hypothesis Hai : wf_ai ai.
Hypothesis Hopp : checkWin board (opponent ai) = false.
Hypothesis Hin : move ∈ getAvailableMoves board.

#[local] Abbreviation tb := (makeMove board move (player ai)).

Lemma trial_board_facts :
  wf_board tb ∧ S (countEmpty tb) = countEmpty board
  ∧ (countEmpty board ≤ 9)%nat ∧ checkWin tb (opponent ai) = false
  ∧ player ai ≠ opponent ai.
Proof.
  pose proof (wf_ai_neq ai Hai) as Hneq.
  split_and!; try done.
  - by apply makeMove_wf.
  - by apply countEmpty_makeMove.
  - by apply countEmpty_le.
  - destruct (checkWin tb (opponent ai)) eqn:E; [|done].
    apply checkWin_makeMove_other in E; [congruence | done].
Qed.

Lemma reply_board_facts (reply : Position) :
  winning ai board move = false → reply ∈ getAvailableMoves tb →
  wf_board (makeMove tb reply (opponent ai))
  ∧ S (countEmpty (makeMove tb reply (opponent ai))) = countEmpty tb
  ∧ checkWin (makeMove tb reply (opponent ai)) (player ai) = false.
Proof.
  intros Hwin Hr. destruct trial_board_facts as (Hwf1 & _ & _ & _ & Hneq).
  split_and!.
  - by apply makeMove_wf.
  - by apply countEmpty_makeMove.
  - destruct (checkWin _ (player ai)) eqn:E; [|done].
    apply checkWin_makeMove_other in E; [|done].
    unfold winning in Hwin. congruence.
Qed.

Lemma losing_move_score (reply : Position) :
  winning ai board move = false → reply ∈ getAvailableMoves tb →
  loses ai board move reply = true →
  hardScore ai board move = Some (Fin (-9)).
Proof.
  intros Hwin Hr Hloses.
  destruct trial_board_facts as (Hwf1 & Hc1 & Hle & Hopp1 & Hneq).
  unfold hardScore. unfold winning in Hwin. unfold loses in Hloses.
  change searchFuel with (S 9). rewrite minimax_unfold.
  rewrite decide_False
    by (intros Hw; apply getWinner_Some in Hw; congruence).
  rewrite decide_False
    by (intros Hw; apply getWinner_Some in Hw; congruence).
  destruct (isBoardFull tb) eqn:Hfull.
  { apply full_no_moves in Hfull; [|done]. rewrite Hfull in Hr.
    by apply elem_of_nil in Hr. }
  set (child := λ y, minimax 9 ai (makeMove tb y (opponent ai)) (0 + 1) true).
  assert (∀ y, y ∈ getAvailableMoves tb →
            ∃ v, child y = Some v ∧ bounded (-9) 9 v) as Hchildren.
  { intros y Hy. unfold child.
    pose proof (makeMove_wf tb y (opponent ai) Hwf1) as Hwf2.
    pose proof (countEmpty_makeMove tb y (opponent ai) Hwf1 Hy) as Hc2.
    destruct (minimax_bounds 9 ai (makeMove tb y (opponent ai)) (0 + 1) true)
      as (v & Hv & Hb); [done | lia | lia | lia |].
    exists v. split; [done|]. eapply bounded_weaken; [| |exact Hb]; lia. }
  assert (child reply = Some (Fin (-9))) as Hreply.
  { unfold child. change 9%nat with (S 8). rewrite minimax_unfold.
    destruct (reply_board_facts reply) as (_ & _ & Hp2); [done | done |].
    assert (getWinner (makeMove tb reply (opponent ai)) = Some (opponent ai))
      as ->.
    { apply getWinner_of_win; [done|].
      destruct (opponent ai) eqn:Ho; [by left | right].
      destruct (player ai) eqn:Hp; [done | congruence]. }
    rewrite decide_False by congruence. by rewrite decide_True. }
  destruct (plain_min_le child (getAvailableMoves tb)) with (best := PosInf)
    as (v & Hv & _ & Hall).
  { intros y Hy. destruct (Hchildren y Hy) as (w & -> & _). by eexists. }
  destruct (plain_min_bounded child (-9) 9 (getAvailableMoves tb) Hchildren
              PosInf) as (v' & Hv' & Hcase); [by left|].
  fold child. rewrite Hv. f_equal.
  assert (v' = v) as -> by congruence.
  destruct Hcase as [(z & -> & Hz)|[Hnil _]].
  - pose proof (Hall reply (Fin (-9)) Hr Hreply) as Hle9. simpl in Hle9.
    f_equal. lia.
  - rewrite Hnil in Hr. by apply elem_of_nil in Hr.
Qed.

Lemma safe_move_score :
  (∀ reply, reply ∈ getAvailableMoves tb → loses ai board move reply = false) →
  ∃ z, hardScore ai board move = Some (Fin z) ∧ -8 ≤ z.
Proof.
  intros Hsafe.
  destruct trial_board_facts as (Hwf1 & Hc1 & Hle & Hopp1 & Hneq).
  destruct (winning ai board move) eqn:Hwin.
  { destruct (first_ply_value ai board move Hwf Hai Hopp Hin) as (z & Hz & Hv).
    rewrite Hwin in Hv. exists z. split; [done | lia]. }
  unfold hardScore.
  change searchFuel with (S 9). rewrite minimax_unfold.
  unfold winning in Hwin.
  rewrite decide_False
    by (intros Hw; apply getWinner_Some in Hw; congruence).
  rewrite decide_False
    by (intros Hw; apply getWinner_Some in Hw; congruence).
  destruct (isBoardFull tb) eqn:Hfull; [exists 0; split; [done | lia]|].
  pose proof (not_full_moves tb Hwf1 Hfull) as Hne.
  destruct (plain_min_bounded
              (λ y, minimax 9 ai (makeMove tb y (opponent ai)) (0 + 1) true)
              (-8) 9 (getAvailableMoves tb)) with (best := PosInf)
    as (v & Hv & [(z & -> & Hz)|[? _]]); [| by left | | done].
  2:{ exists z. split; [done | lia]. }
  intros y Hy.
  set (tb2 := makeMove tb y (opponent ai)).
  destruct (reply_board_facts y) as (Hwf2 & Hc2 & Hp2); [done | done |].
  fold tb2 in Hwf2, Hc2, Hp2.
  pose proof (Hsafe y Hy) as Ho2. unfold loses in Ho2. fold tb2 in Ho2.
  change 9%nat with (S 8). rewrite minimax_unfold.
  rewrite decide_False
    by (intros Hw; apply getWinner_Some in Hw; congruence).
  rewrite decide_False
    by (intros Hw; apply getWinner_Some in Hw; congruence).
  destruct (isBoardFull tb2) eqn:Hfull2;
    [eexists; split; [done|]; eexists; split; [done | lia]|].
  pose proof (not_full_moves tb2 Hwf2 Hfull2) as Hne2.
  destruct (plain_max_bounded
              (λ w, minimax 8 ai (makeMove tb2 w (player ai)) (0 + 1 + 1) false)
              (-8) 9 (getAvailableMoves tb2)) with (best := NegInf)
    as (v & Hv & [Hb|[? _]]); [| by left | | done].
  2:{ by exists v. }
  intros w Hw.
  pose proof (makeMove_wf tb2 w (player ai) Hwf2) as Hwf3.
  pose proof (countEmpty_makeMove tb2 w (player ai) Hwf2 Hw) as Hc3.
  destruct (minimax_bounds 8 ai (makeMove tb2 w (player ai)) (0 + 1 + 1) false)
    as (v & Hv & Hb); [done | lia | lia | lia |].
  exists v. split; [done|]. eapply bounded_weaken; [| |exact Hb]; lia.
Qed.

End Threats.

(** X6.  The Hard and Expert tiers do not walk into an immediate loss when they
    can avoid it: if some legal move leaves the opponent without an
    immediately winning reply, then the selected move wins at once or
    leaves the opponent without one as well. *)
Theorem search_avoids_immediate_loss (rnd : nat → nat) (ai : AdvancedAIPlayer)
    (board : BoardState) (safe : Position) :
  wf_board board → wf_ai ai →
  checkWin board (opponent ai) = false →
  difficulty ai = Hard ∨ difficulty ai = Expert →
  safe ∈ getAvailableMoves board →
  (∀ reply, reply ∈ getAvailableMoves (makeMove board safe (player ai)) →
            loses ai board safe reply = false) →
  ∃ move ai' pos,
    getBestMove searchFuel rnd ai board = Ok (move, ai')
    ∧ position move = Some pos
    ∧ pos ∈ getAvailableMoves board
    ∧ (winning ai board pos = true
       ∨ ∀ reply, reply ∈ getAvailableMoves (makeMove board pos (player ai)) →
                  loses ai board pos reply = false).
Proof.
  intros Hwf Hai Hopp Htier Hsafe Hreplies.
  assert (getAvailableMoves board ≠ []) as Hne.
  { intros E. rewrite E in Hsafe. by apply elem_of_nil in Hsafe. }
  destruct (selectBest_max (hardScore ai board) (getAvailableMoves board) Hne
              (hardScore_fin ai board Hwf))
    as (bm & z & Hsel & Hbm & Hz & Hmax).
  assert (winning ai board bm = true
          ∨ ∀ reply, reply ∈ getAvailableMoves (makeMove board bm (player ai)) →
                     loses ai board bm reply = false) as Hgood.
  { destruct (winning ai board bm) eqn:Hwin; [by left | right].
    intros reply Hr. destruct (loses ai board bm reply) eqn:Hl; [|done].
    pose proof (losing_move_score ai board bm Hwf Hai Hopp Hbm reply Hwin Hr Hl)
      as H9.
    destruct (safe_move_score ai board safe Hwf Hai Hopp Hsafe Hreplies)
      as (zs & Hzs & Hge).
    pose proof (Hmax safe zs Hsafe Hzs).
    rewrite Hz in H9. injection H9 as ->. lia. }
  rewrite getBestMove_dispatch by done.
  destruct Htier as [Hd|Hd]; rewrite Hd.
  - rewrite (getHardMove_select _ _ _ _ Hsel). by eexists _, _, bm.
  - erewrite getExpertMove_select.
    + by eexists _, _, bm.
    + rewrite <- Hsel. apply selectBest_ext. intros x _.
      by apply expertScore_hardScore.
Qed.

Lemma search_avoids_immediate_loss_witness :
  ∃ move ai' pos,
    getBestMove searchFuel firstIndex (AI.new O Expert) threatBoard
    = Ok (move, ai')
    ∧ position move = Some pos
    ∧ pos ∈ getAvailableMoves threatBoard
    ∧ (winning (AI.new O Expert) threatBoard pos = true
       ∨ ∀ reply,
           reply ∈ getAvailableMoves (makeMove threatBoard pos O) →
           loses (AI.new O Expert) threatBoard pos reply = false).
Proof.
  apply (search_avoids_immediate_loss firstIndex (AI.new O Expert) threatBoard
           (mkPosition 0 2)).
  - apply wf_board_grid.
  - reflexivity.
  - reflexivity.
  - right. reflexivity.
  - apply elem_of_getAvailableMoves. simpl.
    split; [lia | split; [lia | reflexivity]].
  - apply Forall_forall. apply (bool_decide_unpack _). vm_compute. reflexivity.
Defined.

(** *** The Easy and Medium tiers *)

Lemma find_is_Some {A : Type} (f : A → bool) (l : list A) (x : A) :
  x ∈ l → f x = true → ∃ y, List.find f l = Some y.
Proof.
  intros Hx Hf. destruct (List.find f l) as [y|] eqn:E; [by exists y|].
  apply list_elem_of_In in Hx.
  pose proof (List.find_none f l E x Hx). congruence.
Qed.

Lemma find_is_None {A : Type} (f : A → bool) (l : list A) :
  (∀ x, x ∈ l → f x = false) → List.find f l = None.
Proof.
  intros Hall. destruct (List.find f l) as [y|] eqn:E; [|done].
  apply find_elem in E as [Hy Hf]. rewrite (Hall y Hy) in Hf. done.
Qed.

Lemma moves_of_elem (board : BoardState) (move : Position) :
  move ∈ getAvailableMoves board → getAvailableMoves board ≠ [].
Proof. intros Hin E. rewrite E in Hin. by apply elem_of_nil in Hin. Qed.

(** X7.  The Medium tier completes a line when it can. *)
Theorem medium_takes_win (fuel : nat) (rnd : nat → nat) (ai : AdvancedAIPlayer)
    (board : BoardState) (w : Position) :
  difficulty ai = Medium →
  w ∈ getAvailableMoves board → winning ai board w = true →
  ∃ pos,
    getBestMove fuel rnd ai board
    = Ok ({| position := Some pos; score := Fin 100; confidence := 1;
             strategy := "Winning move" |}, ai)
    ∧ pos ∈ getAvailableMoves board
    ∧ winning ai board pos = true.
Proof.
  intros Hd Hw Hwin.
  rewrite getBestMove_dispatch, Hd by (by eapply moves_of_elem).
  unfold getMediumMove.
  destruct (find_is_Some (λ move, checkWin (makeMove board move (player ai))
                                           (player ai))
              (getAvailableMoves board) w Hw Hwin) as (pos & Hfind).
  unfold findWinningMove at 1. rewrite Hfind.
  apply find_elem in Hfind as [Hpos Hp]. by exists pos.
Qed.

Lemma medium_takes_win_witness :
  ∃ pos,
    getBestMove 0 firstIndex (AI.new X Medium) sampleBoard
    = Ok ({| position := Some pos; score := Fin 100; confidence := 1;
             strategy := "Winning move" |}, AI.new X Medium)
    ∧ pos ∈ getAvailableMoves sampleBoard
    ∧ winning (AI.new X Medium) sampleBoard pos = true.
Proof.
  apply (medium_takes_win 0 firstIndex (AI.new X Medium) sampleBoard
           (mkPosition 1 2)).
  - reflexivity.
  - apply elem_of_getAvailableMoves. simpl.
    split; [lia | split; [lia | reflexivity]].
  - reflexivity.
Defined.

(** X8.  When it cannot complete a line itself, the Medium tier occupies a cell
    on which the opponent would complete one. *)
Theorem medium_blocks (fuel : nat) (rnd : nat → nat) (ai : AdvancedAIPlayer)
    (board : BoardState) (b : Position) :
  difficulty ai = Medium →
  (∀ m, m ∈ getAvailableMoves board → winning ai board m = false) →
  b ∈ getAvailableMoves board →
  checkWin (makeMove board b (opponent ai)) (opponent ai) = true →
  ∃ pos,
    getBestMove fuel rnd ai board
    = Ok ({| position := Some pos; score := Fin 50; confidence := 9 # 10;
             strategy := "Blocking move" |}, ai)
    ∧ pos ∈ getAvailableMoves board
    ∧ checkWin (makeMove board pos (opponent ai)) (opponent ai) = true.
Proof.
  intros Hd Hnowin Hb Hthreat.
  rewrite getBestMove_dispatch, Hd by (by eapply moves_of_elem).
  unfold getMediumMove.
  unfold findWinningMove at 1.
  rewrite (find_is_None (λ move, checkWin (makeMove board move (player ai))
                                          (player ai)) _ Hnowin).
  destruct (find_is_Some (λ move, checkWin (makeMove board move (opponent ai))
                                           (opponent ai))
              (getAvailableMoves board) b Hb Hthreat) as (pos & Hfind).
  unfold findWinningMove at 1. rewrite Hfind.
  apply find_elem in Hfind as [Hpos Hp]. by exists pos.
Qed.

Lemma medium_blocks_witness :
  ∃ pos,
    getBestMove 0 firstIndex (AI.new O Medium) threatBoard
    = Ok ({| position := Some pos; score := Fin 50; confidence := 9 # 10;
             strategy := "Blocking move" |}, AI.new O Medium)
    ∧ pos ∈ getAvailableMoves threatBoard
    ∧ checkWin (makeMove threatBoard pos X) X = true.
Proof.
  apply (medium_blocks 0 firstIndex (AI.new O Medium) threatBoard
           (mkPosition 0 2)).
  - reflexivity.
  - apply Forall_forall. apply (bool_decide_unpack _). vm_compute. reflexivity.
  - apply elem_of_getAvailableMoves. simpl.
    split; [lia | split; [lia | reflexivity]].
  - reflexivity.
Defined.

Lemma lookup_random {A : Type} (rnd : nat → nat) (l : list A) :
  (∀ n, (0 < n)%nat → (rnd n < n)%nat) → l ≠ [] →
  ∃ x, l !! rnd (length l) = Some x ∧ x ∈ l.
Proof.
  intros Hrnd Hne.
  destruct (lookup_lt_is_Some_2 l (rnd (length l))) as [x Hx].
  { apply Hrnd. destruct l; [done | simpl; lia]. }
  exists x. split; [done|]. by eapply list_elem_of_lookup_2.
Qed.

(** X9.  With no line to complete and none to block, the Medium tier takes the
    centre when it is free, and otherwise a free corner when there is one. *)
Theorem medium_center_then_corner (fuel : nat) (rnd : nat → nat)
    (ai : AdvancedAIPlayer) (board : BoardState) :
  difficulty ai = Medium →
  (∀ n, (0 < n)%nat → (rnd n < n)%nat) →
  getAvailableMoves board ≠ [] →
  (∀ m, m ∈ getAvailableMoves board → winning ai board m = false) →
  (∀ m, m ∈ getAvailableMoves board →
        checkWin (makeMove board m (opponent ai)) (opponent ai) = false) →
  ∃ move,
    getBestMove fuel rnd ai board = Ok (move, ai)
    ∧ (isNull board 1 1 = true →
       position move = Some (mkPosition 1 1) ∧ score move = Fin 10)
    ∧ (isNull board 1 1 = false →
       ∀ c, c ∈ cornerCells → isNull board (row c) (col c) = true →
       ∃ pos, position move = Some pos ∧ score move = Fin 5
              ∧ pos ∈ cornerCells
              ∧ isNull board (row pos) (col pos) = true).
Proof.
  intros Hd Hrnd Hne Hnowin Hnoblock.
  rewrite getBestMove_dispatch, Hd by done.
  eexists. split; [done|].
  unfold getMediumMove. unfold findWinningMove.
  rewrite (find_is_None (λ move, checkWin (makeMove board move (player ai))
                                          (player ai)) _ Hnowin).
  rewrite (find_is_None (λ move, checkWin (makeMove board move (opponent ai))
                                          (opponent ai)) _ Hnoblock).
  destruct (isNull board 1 1) eqn:Hcenter; (split; [done|]); [done|].
  intros _ c Hc Hnull.
  fold cornerCells.
  set (corners := filter _ cornerCells).
  assert (c ∈ corners) as Hin by (by apply list_elem_of_filter).
  assert (corners ≠ []) as Hcne.
  { intros E. rewrite E in Hin. by apply elem_of_nil in Hin. }
  rewrite bool_decide_eq_true_2 by (destruct corners; [done | simpl; lia]).
  destruct (lookup_random rnd corners Hrnd Hcne) as (pos & Hpos & Hel).
  exists pos. simpl. split; [done|]. split; [done|].
  by apply list_elem_of_filter in Hel as [? ?].
Qed.

Lemma medium_center_then_corner_witness :
  ∃ move,
    getBestMove 0 firstIndex (AI.new O Medium) quietBoard
    = Ok (move, AI.new O Medium)
    ∧ (isNull quietBoard 1 1 = true →
       position move = Some (mkPosition 1 1) ∧ score move = Fin 10)
    ∧ (isNull quietBoard 1 1 = false →
       ∀ c, c ∈ cornerCells → isNull quietBoard (row c) (col c) = true →
       ∃ pos, position move = Some pos ∧ score move = Fin 5
              ∧ pos ∈ cornerCells
              ∧ isNull quietBoard (row pos) (col pos) = true).
Proof.
  apply (medium_center_then_corner 0 firstIndex (AI.new O Medium) quietBoard).
  - reflexivity.
  - intros n Hn. unfold firstIndex. lia.
  - vm_compute. discriminate.
  - apply Forall_forall. apply (bool_decide_unpack _). vm_compute. reflexivity.
  - apply Forall_forall. apply (bool_decide_unpack _). vm_compute. reflexivity.
Defined.

(** X10.  The Easy tier returns the centre or a corner whenever one of them is
    free. *)
Theorem easy_prefers_center_and_corners (fuel : nat) (rnd : nat → nat)
    (ai : AdvancedAIPlayer) (board : BoardState) (c : Position) :
  difficulty ai = Easy →
  (∀ n, (0 < n)%nat → (rnd n < n)%nat) →
  c ∈ getAvailableMoves board → isCenterOrCorner c = true →
  ∃ pos,
    getBestMove fuel rnd ai board
    = Ok ({| position := Some pos; score := Fin 0; confidence := 3 # 10;
             strategy := "Random with preference" |}, ai)
    ∧ pos ∈ getAvailableMoves board
    ∧ isCenterOrCorner pos = true.
Proof.
  intros Hd Hrnd Hc Hcc.
  rewrite getBestMove_dispatch, Hd by (by eapply moves_of_elem).
  unfold getRandomMove.
  set (preferred := filter _ (getAvailableMoves board)).
  assert (c ∈ preferred) as Hin by (by apply list_elem_of_filter).
  assert (preferred ≠ []) as Hne.
  { intros E. rewrite E in Hin. by apply elem_of_nil in Hin. }
  rewrite bool_decide_eq_true_2 by (destruct preferred; [done | simpl; lia]).
  destruct (lookup_random rnd preferred Hrnd Hne) as (pos & Hpos & Hel).
  exists pos. rewrite Hpos. split; [done|].
  by apply list_elem_of_filter in Hel as [? ?].
Qed.

Lemma easy_prefers_center_and_corners_witness :
  ∃ pos,
    getBestMove 0 firstIndex (AI.new O Easy) sampleBoard
    = Ok ({| position := Some pos; score := Fin 0; confidence := 3 # 10;
             strategy := "Random with preference" |}, AI.new O Easy)
    ∧ pos ∈ getAvailableMoves sampleBoard
    ∧ isCenterOrCorner pos = true.
Proof.
  apply (easy_prefers_center_and_corners 0 firstIndex (AI.new O Easy)
           sampleBoard (mkPosition 1 1)).
  - reflexivity.
  - intros n Hn. unfold firstIndex. lia.
  - apply elem_of_getAvailableMoves. simpl.
    split; [lia | split; [lia | reflexivity]].
  - reflexivity.
Defined.

(** *** What a call of [getBestMove] changes *)

Lemma updatePatternMemory_frame (ai : AdvancedAIPlayer) (board : BoardState)
    (move : option Position) :
  let ai' := updatePatternMemory ai board move in
  difficulty ai' = difficulty ai ∧ player ai' = player ai
  ∧ opponent ai' = opponent ai ∧ moveHistory ai' = moveHistory ai
  ∧ (∀ key, key ≠ boardToPattern board →
            patternMemory ai' !! key = patternMemory ai !! key)
  ∧ patternMemory ai' !! boardToPattern board
    = Some (default 0 (patternMemory ai !! boardToPattern board) + 1).
Proof.
  simpl. split_and!; try done.
  - intros key Hkey. by rewrite lookup_insert_ne.
  - by rewrite lookup_insert_eq.
Qed.

(** X11.  A call of [getBestMove] changes nothing of the engine but the count
    stored for the board's pattern, which a search by the Expert or the
    Impossible tier increments by one; the Easy, Medium and Hard tiers, and
    the Impossible tier when it replays a pattern, change nothing. *)
Theorem getBestMove_changes_one_count (fuel : nat) (rnd : nat → nat)
    (ai : AdvancedAIPlayer) (board : BoardState) (move : AIMove)
    (ai' : AdvancedAIPlayer) :
  getBestMove fuel rnd ai board = Ok (move, ai') →
  difficulty ai' = difficulty ai ∧ player ai' = player ai
  ∧ opponent ai' = opponent ai ∧ moveHistory ai' = moveHistory ai
  ∧ (∀ key, key ≠ boardToPattern board →
            patternMemory ai' !! key = patternMemory ai !! key)
  ∧ (ai' = ai
     ∨ patternMemory ai' !! boardToPattern board
       = Some (default 0 (patternMemory ai !! boardToPattern board) + 1))
  ∧ (difficulty ai = Easy ∨ difficulty ai = Medium ∨ difficulty ai = Hard
     ∨ strategy move = "Pattern Recognition" → ai' = ai)
  ∧ (difficulty ai = Expert →
     patternMemory ai' !! boardToPattern board
     = Some (default 0 (patternMemory ai !! boardToPattern board) + 1)).
Proof.
  unfold getBestMove. case_bool_decide; [done|].
  destruct (difficulty ai) eqn:Hd.
  - intros [= <- <-]. split_and!; auto. intros; congruence.
  - intros [= <- <-]. split_and!; auto. intros; congruence.
  - destruct (getHardMove _ _ _ _); [|done].
    intros [= <- <-]. split_and!; auto. intros; congruence.
  - unfold getExpertMove.
    destruct (selectBest _ _) as [[bm bs]|]; [|done]. simpl.
    intros [= <- <-].
    destruct (updatePatternMemory_frame ai board bm)
      as (H1 & H2 & H3 & H4 & H5 & H6).
    split_and!; auto; try congruence.
    intros [?|[?|[?|?]]]; try congruence. done.
  - unfold getImpossibleMove.
    destruct (getPatternMove ai board) as [pm|] eqn:Hpm.
    { intros [= <- <-]. split_and!; auto. intros; congruence. }
    destruct (selectBest _ _) as [[bm bs]|]; [|done]. simpl.
    intros [= <- <-].
    destruct (updatePatternMemory_frame ai board bm)
      as (H1 & H2 & H3 & H4 & H5 & H6).
    split_and!; auto; try congruence.
    intros [?|[?|[?|?]]]; try congruence. done.
Qed.

Lemma getBestMove_changes_one_count_witness :
  let ai := AI.new X Expert in
  let ai' := updatePatternMemory ai sampleBoard (Some (mkPosition 1 2)) in
  difficulty ai' = difficulty ai ∧ player ai' = player ai
  ∧ opponent ai' = opponent ai ∧ moveHistory ai' = moveHistory ai
  ∧ (∀ key, key ≠ boardToPattern sampleBoard →
            patternMemory ai' !! key = patternMemory ai !! key)
  ∧ (ai' = ai
     ∨ patternMemory ai' !! boardToPattern sampleBoard
       = Some (default 0 (patternMemory ai !! boardToPattern sampleBoard) + 1))
  ∧ (difficulty ai = Easy ∨ difficulty ai = Medium ∨ difficulty ai = Hard
     ∨ strategy {| position := Some (mkPosition 1 2); score := Fin 10;
                   confidence := 95 # 100;
                   strategy := "Alpha-Beta Pruning" |}
       = "Pattern Recognition" → ai' = ai)
  ∧ (difficulty ai = Expert →
     patternMemory ai' !! boardToPattern sampleBoard
     = Some (default 0 (patternMemory ai !! boardToPattern sampleBoard) + 1)).
Proof.
  apply (getBestMove_changes_one_count searchFuel firstIndex (AI.new X Expert)
           sampleBoard).
  vm_compute. reflexivity.
Defined.

Lemma if_cons_filter {A : Type} (P : A → Prop) `{!∀ x, Decision (P x)}
    (b : bool) (x : A) (l rest : list A) :
  (b = true ↔ P x) → rest = filter P l →
  (if b then [x] else []) ++ rest = filter P (x :: l).
Proof.
  intros Hb ->. rewrite filter_cons.
  destruct b; case_decide as HP; try done.
  - destruct HP. by apply Hb.
  - apply Hb in HP. discriminate.
Qed.

Lemma getAvailableMoves_filter (board : BoardState) :
  getAvailableMoves board
  = filter (λ pos, isNull board (row pos) (col pos) = true) allCells.
Proof.
  unfold getAvailableMoves, allCells. cbn [mbind list_bind].
  rewrite !app_nil_r, <- !app_assoc.
  do 8 (apply if_cons_filter; [done|]).
  rewrite <- (app_nil_r (if isNull board 2 2 then _ else _)).
  by apply if_cons_filter.
Qed.

Lemma allCells_NoDup : NoDup allCells.
Proof. apply (bool_decide_unpack _). vm_compute. reflexivity. Qed.

(** X12.  [getAvailableMoves] lists the empty cells of the 3x3 grid, each once. *)
Theorem available_moves_are_the_empty_cells (board : BoardState) :
  NoDup (getAvailableMoves board)
  ∧ ∀ move, move ∈ getAvailableMoves board ↔
            (row move < 3)%nat ∧ (col move < 3)%nat
            ∧ cellAt board (row move) (col move) = Some None.
Proof.
  split.
  - rewrite getAvailableMoves_filter. apply NoDup_filter, allCells_NoDup.
  - intros move. rewrite elem_of_getAvailableMoves.
    unfold isNull. by rewrite bool_decide_eq_true.
Qed.

Lemma cellAt_makeMove (board : BoardState) (move : Position) (p : Player)
    (r c : nat) :
  cellAt board (row move) (col move) = Some None →
  cellAt (makeMove board move p) r c
  = if decide (r = row move ∧ c = col move) then Some (Some p)
    else cellAt board r c.
Proof.
  unfold cellAt, makeMove. intros Hnull.
  rewrite list_lookup_alter.
  destruct (board !! row move) as [cells|] eqn:Hrow; [|done].
  simpl in Hnull.
  destruct (decide (row move = r)) as [<-|Hr].
  - rewrite Hrow. simpl. rewrite list_lookup_insert.
    assert (col move < length cells)%nat as Hlen.
    { apply lookup_lt_is_Some. by eexists. }
    destruct (decide (col move = c)) as [<-|Hc].
    + rewrite decide_True by done. by rewrite decide_True.
    + rewrite decide_False by tauto. rewrite decide_False; [done|].
      intros [_ ->]. done.
  - rewrite decide_False; [done|]. intros [-> _]. done.
Qed.

(** X13.  After a move on an empty cell the legal moves are the same ones, in
    the same order, without the cell just taken. *)
Theorem moves_after_move (board : BoardState) (move : Position) (p : Player) :
  move ∈ getAvailableMoves board →
  getAvailableMoves (makeMove board move p)
  = filter (λ other, other ≠ move) (getAvailableMoves board).
Proof.
  intros Hin.
  apply elem_of_getAvailableMoves in Hin as (_ & _ & Hnull).
  apply bool_decide_eq_true in Hnull.
  rewrite !getAvailableMoves_filter, list_filter_filter.
  apply list_filter_iff. intros [r c]. simpl.
  unfold isNull. rewrite !bool_decide_eq_true.
  rewrite (cellAt_makeMove board move p r c Hnull).
  destruct move as [mr mc]. simpl in *.
  case_decide as Hd.
  - destruct Hd as [-> ->]. split; [done | intros [? _]; done].
  - split; [|tauto]. intros Hc. split; [|done].
    intros [= -> ->]. tauto.
Qed.

Lemma moves_after_move_witness :
  getAvailableMoves (makeMove sampleBoard (mkPosition 1 1) X)
  = filter (λ other, other ≠ mkPosition 1 1) (getAvailableMoves sampleBoard).
Proof.
  apply (moves_after_move sampleBoard (mkPosition 1 1) X).
  apply elem_of_getAvailableMoves. simpl.
  split; [lia | split; [lia | reflexivity]].
Defined.

(** X14.  On a 3x3 board, [isBoardFull] holds exactly when there is no legal
    move. *)
Theorem full_board_has_no_moves (board : BoardState) :
  wf_board board →
  (isBoardFull board = true ↔ getAvailableMoves board = []).
Proof.
  intros Hwf. split; [by apply full_no_moves|].
  intros Hnil. destruct (isBoardFull board) eqn:Hfull; [done|].
  by destruct (not_full_moves board Hwf Hfull).
Qed.

Lemma full_board_has_no_moves_witness :
  isBoardFull sampleBoard = true ↔ getAvailableMoves sampleBoard = [].
Proof. apply (full_board_has_no_moves sampleBoard), wf_board_grid. Defined.

(** X15.  A move completes lines for the player who makes it only: it gives the
    other player no line, and on an empty cell it takes no line away. *)
Theorem move_changes_own_lines_only (board : BoardState) (move : Position)
    (p q : Player) :
  move ∈ getAvailableMoves board →
  (p ≠ q → checkWin (makeMove board move p) q = checkWin board q)
  ∧ (checkWin board p = true → checkWin (makeMove board move p) p = true)
  ∧ (getWinner board = None →
     getWinner (makeMove board move p) = None
     ∨ getWinner (makeMove board move p) = Some p).
Proof.
  intros Hin.
  assert (∀ q', p ≠ q' → checkWin (makeMove board move p) q' = checkWin board q')
    as Hother.
  { intros q' Hneq.
    destruct (checkWin board q') eqn:Hb.
    - by apply checkWin_makeMove_keep.
    - destruct (checkWin (makeMove board move p) q') eqn:Ha; [|done].
      apply checkWin_makeMove_other in Ha; [congruence | done]. }
  split; [apply Hother|]. split; [by apply checkWin_makeMove_keep|].
  unfold getWinner. intros Hnone.
  destruct (checkWin board X) eqn:HX; [done|].
  destruct (checkWin board O) eqn:HO; [done|].
  destruct p.
  - rewrite (Hother O) by done. rewrite HO.
    destruct (checkWin (makeMove board move X) X); auto.
  - rewrite (Hother X) by done. rewrite HX.
    destruct (checkWin (makeMove board move O) O); auto.
Qed.

Lemma move_changes_own_lines_only_witness :
  (X ≠ O → checkWin (makeMove sampleBoard (mkPosition 1 2) X) O
           = checkWin sampleBoard O)
  ∧ (checkWin sampleBoard X = true →
     checkWin (makeMove sampleBoard (mkPosition 1 2) X) X = true)
  ∧ (getWinner sampleBoard = None →
     getWinner (makeMove sampleBoard (mkPosition 1 2) X) = None
     ∨ getWinner (makeMove sampleBoard (mkPosition 1 2) X) = Some X).
Proof.
  apply (move_changes_own_lines_only sampleBoard (mkPosition 1 2) X O).
  apply elem_of_getAvailableMoves. simpl.
  split; [lia | split; [lia | reflexivity]].
Defined.

(** *** The pattern of a board *)

Lemma pattern_cons (cell : Cell) (cells : list Cell) :
  String.concat "" (cellToString <$> cell :: cells)
  = cellToString cell +:+ String.concat "" (cellToString <$> cells).
Proof. destruct cells as [|c cells]; by destruct cell as [[]|]. Qed.

Lemma pattern_inj (cells1 cells2 : list Cell) :
  length cells1 = length cells2 →
  String.concat "" (cellToString <$> cells1)
  = String.concat "" (cellToString <$> cells2) →
  cells1 = cells2.
Proof.
  revert cells2. induction cells1 as [|c1 cells1 IH];
    intros [|c2 cells2] Hlen; try done.
  rewrite !pattern_cons. intros Heq.
  assert (c1 = c2 ∧ String.concat "" (cellToString <$> cells1)
                    = String.concat "" (cellToString <$> cells2)) as [-> Hrest].
  { destruct c1 as [[]|], c2 as [[]|]; simpl in Heq; by simplify_eq. }
  f_equal. apply IH; [|done]. simpl in Hlen. lia.
Qed.

Lemma pattern_length (cells : list Cell) :
  String.length (String.concat "" (cellToString <$> cells)) = length cells.
Proof.
  induction cells as [|cell cells IH]; [done|].
  rewrite pattern_cons. simpl length. rewrite <- IH.
  by destruct cell as [[]|].
Qed.

(** X16.  The pattern under which a board is remembered determines the board:
    two 3x3 boards with the same pattern are equal, and a pattern has nine
    characters. *)
Theorem boardToPattern_injective (board1 board2 : BoardState) :
  wf_board board1 → wf_board board2 →
  String.length (boardToPattern board1) = 9%nat
  ∧ (boardToPattern board1 = boardToPattern board2 → board1 = board2).
Proof.
  intros Hwf1 Hwf2. grid board1 Hwf1. grid board2 Hwf2.
  split; [unfold boardToPattern; by rewrite pattern_length|].
  unfold boardToPattern. intros Heq.
  apply pattern_inj in Heq; [|done]. simpl in Heq. by simplify_eq.
Qed.

Lemma boardToPattern_injective_witness :
  String.length (boardToPattern sampleBoard) = 9%nat
  ∧ (boardToPattern sampleBoard = boardToPattern quietBoard →
     sampleBoard = quietBoard).
Proof.
  apply (boardToPattern_injective sampleBoard quietBoard); apply wf_board_grid.
Defined.

(** * Further properties of the tournament system *)

Lemma created_matchesOf (s s' : TournamentSystem) (t : Tournament)
    (pairs : list (nat * nat)) :
  Forall2 (created s s') (t_matches t) (firstRound <$> pairs) →
  Forall2 (λ rm pair, pendingBetween rm.2 pair) (matchesOf s' t) pairs
  ∧ length (t_matches t) = length pairs.
Proof.
  unfold matchesOf. generalize (t_matches t). intros refs. revert pairs.
  induction refs as [|ref refs IH]; intros [|pair pairs] Hall.
  { split; [constructor | done]. }
  { by inversion Hall. }
  { by inversion Hall. }
  rewrite fmap_cons in Hall.
  apply Forall2_cons in Hall as [[_ [id Hid]] Hall].
  destruct (IH pairs Hall) as [IH1 IH2].
  rewrite omap_cons, Hid. simpl. split; [|by rewrite IH2].
  constructor; [|done]. unfold pendingBetween. by simpl.
Qed.

Lemma allPairs_length {A : Type} (l : list A) :
  (2 * length (allPairs l) = length l * (length l - 1))%nat.
Proof.
  induction l as [|x l IH]; [done|].
  simpl allPairs. rewrite length_app, length_fmap. simpl length. nia.
Qed.

Lemma consecutivePairs_length {A : Type} (l : list A) :
  length (consecutivePairs l) = (length l / 2)%nat.
Proof.
  induction l as [l IH] using (induction_ltof1 _ length). unfold ltof in IH.
  destruct l as [|x [|y rest]]; [done | done |].
  simpl consecutivePairs. simpl length. rewrite IH by (simpl; lia).
  change (S (S (length rest))) with (1 * 2 + length rest)%nat.
  rewrite Nat.add_comm, Nat.div_add by done. lia.
Qed.

(** X17.  A round robin pairs every participant with every later one, once: as
    many pending first-round matches as there are pairs of participants,
    in the order of the two nested loops. *)
Theorem round_robin_pairs_everyone (rng : Random) (s s' : TournamentSystem)
    (name : string) (playerIds : list string) (t : Tournament) :
  createTournament rng s name RoundRobin playerIds = Ok (t, s') →
  length (t_players t) = length playerIds
  ∧ Forall2 (λ rm pair, pendingBetween rm.2 pair) (matchesOf s' t)
            (allPairs (t_players t))
  ∧ (2 * length (t_matches t)
     = length playerIds * (length playerIds - 1))%nat
  ∧ t_totalRounds t = 1.
Proof.
  intros Hrun.
  apply createTournament_effects in Hrun
    as (_ & _ & _ & _ & _ & _ & _ & Hlen & _ & _ & _ & _ & Htot & _ & _ & _
        & order & _ & Horder & Hc).
  rewrite Horder in Hc by done.
  apply created_matchesOf in Hc as [Hpairs Hcount].
  split; [done|]. split; [done|]. split; [|done].
  rewrite Hcount, allPairs_length. by rewrite Hlen.
Qed.

Lemma round_robin_pairs_everyone_witness :
  let t := (trioOf RoundRobin).1 in
  let s' := (trioOf RoundRobin).2 in
  length (t_players t) = length trioIds
  ∧ Forall2 (λ rm pair, pendingBetween rm.2 pair) (matchesOf s' t)
            (allPairs (t_players t))
  ∧ (2 * length (t_matches t) = length trioIds * (length trioIds - 1))%nat
  ∧ t_totalRounds t = 1.
Proof.
  apply (round_robin_pairs_everyone sampleRandom Tournament.new _ "trio").
  vm_compute. reflexivity.
Defined.

(** X18.  An elimination bracket, single or double, pairs the participants in
    the order given, the first with the second and so on; a participant
    left over is in no match, and no match of a later round is created. *)
Theorem elimination_pairs_in_order (rng : Random) (s s' : TournamentSystem)
    (name : string) (type : Format) (playerIds : list string)
    (t : Tournament) :
  type = SingleElimination ∨ type = DoubleElimination →
  createTournament rng s name type playerIds = Ok (t, s') →
  length (t_players t) = length playerIds
  ∧ Forall2 (λ rm pair, pendingBetween rm.2 pair) (matchesOf s' t)
            (consecutivePairs (t_players t))
  ∧ length (t_matches t) = (length playerIds / 2)%nat.
Proof.
  intros Hty Hrun.
  apply createTournament_effects in Hrun
    as (_ & _ & _ & _ & _ & _ & _ & Hlen & _ & _ & _ & _ & _ & _ & _ & _
        & order & _ & Horder & Hc).
  rewrite Horder in Hc by (destruct Hty; by subst).
  assert (Forall2 (created s s') (t_matches t)
            (firstRound <$> consecutivePairs (t_players t))) as Hc'.
  { destruct Hty; by subst. }
  apply created_matchesOf in Hc' as [Hpairs Hcount].
  split; [done|]. split; [done|].
  by rewrite Hcount, consecutivePairs_length, Hlen.
Qed.

Lemma elimination_pairs_in_order_witness :
  let t := (trioOf SingleElimination).1 in
  let s' := (trioOf SingleElimination).2 in
  length (t_players t) = length trioIds
  ∧ Forall2 (λ rm pair, pendingBetween rm.2 pair) (matchesOf s' t)
            (consecutivePairs (t_players t))
  ∧ length (t_matches t) = (length trioIds / 2)%nat.
Proof.
  apply (elimination_pairs_in_order sampleRandom Tournament.new _ "trio"
           SingleElimination).
  - by left.
  - vm_compute. reflexivity.
Defined.

(** X19.  The first Swiss round pairs the participants consecutively after a
    shuffle: the matches are the consecutive pairs of a permutation of the
    participants, all pending and in round 1, so that no participant is in
    two of them. *)
Theorem swiss_pairs_a_shuffle (rng : Random) (s s' : TournamentSystem)
    (name : string) (playerIds : list string) (t : Tournament) :
  createTournament rng s name Swiss playerIds = Ok (t, s') →
  length (t_players t) = length playerIds
  ∧ length (t_matches t) = (length playerIds / 2)%nat
  ∧ ∃ order,
      order ≡ₚ t_players t
      ∧ Forall2 (λ rm pair, pendingBetween rm.2 pair) (matchesOf s' t)
                (consecutivePairs order).
Proof.
  intros Hrun.
  apply createTournament_effects in Hrun
    as (_ & _ & _ & _ & _ & _ & _ & Hlen & _ & _ & _ & _ & _ & _ & _ & _
        & order & Hperm & _ & Hc).
  apply created_matchesOf in Hc as [Hpairs Hcount].
  split; [done|]. split.
  - rewrite Hcount, consecutivePairs_length, <- Hlen.
    by rewrite (Permutation_length Hperm).
  - by exists order.
Qed.

Lemma swiss_pairs_a_shuffle_witness :
  let t := (trioOf Swiss).1 in
  let s' := (trioOf Swiss).2 in
  length (t_players t) = length trioIds
  ∧ length (t_matches t) = (length trioIds / 2)%nat
  ∧ ∃ order,
      order ≡ₚ t_players t
      ∧ Forall2 (λ rm pair, pendingBetween rm.2 pair) (matchesOf s' t)
                (consecutivePairs order).
Proof.
  apply (swiss_pairs_a_shuffle sampleRandom Tournament.new _ "trio").
  vm_compute. reflexivity.
Defined.

Lemma initializeAIPlayer_eq (s : TournamentSystem) (index : nat)
    (difficulty : AI.Difficulty) :
  initializeAIPlayer s (index, difficulty) =
  let statsRef := fresh (dom (statsObjs s)) in
  let ref := fresh (dom (playerObjs s)) in
  let player :=
    {| p_id := "ai_" +:+ difficultyLower difficulty;
       p_name := "AI " +:+ difficultyName difficulty;
       p_type := AIPlayer; p_difficulty := Some difficulty;
       p_stats := statsRef;
       p_elo := Rating (1200 + Z.of_nat index * 200) |} in
  mkSystem (tournaments s) (<[p_id player := ref]> (playerDatabase s))
           (matchHistory s) (<[ref := player]> (playerObjs s))
           (<[statsRef := mkStats 0 0 0 0]> (statsObjs s)) (matchObjs s)
           (randomCalls s).
Proof. reflexivity. Qed.

(** Registering a new player with fresh objects keeps the invariants. *)
Lemma register_core (s : TournamentSystem) (id : string)
    (player : TournamentPlayer) (calls : nat) :
  p_stats player = fresh (dom (statsObjs s)) →
  coreInv s →
  coreInv
    (mkSystem (tournaments s)
              (<[id := fresh (dom (playerObjs s))]> (playerDatabase s))
              (matchHistory s)
              (<[fresh (dom (playerObjs s)) := player]> (playerObjs s))
              (<[fresh (dom (statsObjs s)) := mkStats 0 0 0 0]> (statsObjs s))
              (matchObjs s) calls).
Proof.
  intros Hp (Hstats & Hreg & Hhist).
  split; [|split; [|done]].
  - simpl. intros r st Hr.
    apply lookup_insert_Some in Hr as [[_ <-]|[_ Hr]]; [|by eapply Hstats].
    unfold statsInv. simpl. lia.
  - intros id0 ref. simpl. intros Hid.
    apply lookup_insert_Some in Hid as [[_ <-]|[_ Hid]].
    + exists player, (mkStats 0 0 0 0). rewrite lookup_insert_eq.
      split; [done|]. rewrite Hp. by rewrite lookup_insert_eq.
    + destruct (Hreg id0 ref Hid) as (player0 & st & Hp0 & Hst).
      exists player0, st. split; by apply alloc_old.
Qed.

Lemma initializeAIPlayers_core (entries : list (nat * AI.Difficulty)) :
  ∀ s, coreInv s → coreInv (foldl initializeAIPlayer s entries).
Proof.
  induction entries as [|[index difficulty] entries IH]; intros s Hs; [done|].
  apply (IH (initializeAIPlayer s (index, difficulty))).
  rewrite initializeAIPlayer_eq. by apply register_core.
Qed.

Lemma new_core : coreInv Tournament.new.
Proof.
  apply initializeAIPlayers_core.
  split; [|split; [|done]].
  - intros r st Hr. simpl in Hr. by rewrite lookup_empty in Hr.
  - intros id ref Hid. simpl in Hid. by rewrite lookup_empty in Hid.
Qed.

Lemma addHumanPlayer_core (rng : Random) (s : TournamentSystem)
    (name : string) :
  coreInv s → coreInv (addHumanPlayer rng s name).2.
Proof.
  intros Hs. rewrite addHumanPlayer_eq. by apply register_core.
Qed.

Lemma createTournament_core (rng : Random) (s s' : TournamentSystem)
    (name : string) (type : Format) (playerIds : list string)
    (t : Tournament) :
  coreInv s → createTournament rng s name type playerIds = Ok (t, s') →
  coreInv s'.
Proof.
  intros (Hstats & Hreg & Hhist) Hrun.
  apply createTournament_effects in Hrun
    as (_ & Hdb & Hh & Hst & _ & Hmono & _).
  split; [|split].
  - rewrite Hst. apply Hstats.
  - intros id ref. rewrite Hdb. intros Hid.
    destruct (Hreg id ref Hid) as (player & st & Hp & Hs).
    exists player, st. rewrite Hst. auto.
  - congruence.
Qed.

Lemma startTournament_core (s s' : TournamentSystem) (tournamentId : string)
    (now : nat) (t : Tournament) :
  coreInv s → startTournament s tournamentId now = Ok (t, s') → coreInv s'.
Proof.
  unfold startTournament.
  destruct (tournaments s !! tournamentId); [|done].
  by intros H [= <- <-].
Qed.

(** What recording a result does to the player objects: at most the
    rating changes. *)
Lemma setElo_players (s : TournamentSystem) (ref : option nat) (v : Elo)
    (r : nat) :
  playerObjs (setElo s ref v) !! r
  = if decide (ref = Some r) then (λ player, withElo player v) <$> playerObjs s !! r
    else playerObjs s !! r.
Proof.
  unfold setElo. destruct ref as [q|]; [|by rewrite decide_False].
  destruct (playerObjs s !! q) as [player|] eqn:Hq.
  - simpl. destruct (decide (Some q = Some r)) as [[= ->]|Hne].
    + by rewrite lookup_insert_eq, Hq.
    + rewrite lookup_insert_ne; [done | congruence].
  - destruct (decide (Some q = Some r)) as [[= ->]|Hne]; [|done].
    by rewrite Hq.
Qed.

Lemma setElo_samePlayer (s : TournamentSystem) (ref : option nat) (v : Elo)
    (r : nat) (player : TournamentPlayer) :
  playerObjs s !! r = Some player →
  ∃ player', playerObjs (setElo s ref v) !! r = Some player'
             ∧ samePlayer player player'.
Proof.
  intros Hr. rewrite setElo_players, Hr.
  case_decide; eexists; (split; [done|]); unfold samePlayer, withElo;
    by split_and!.
Qed.

Lemma samePlayer_trans (p1 p2 p3 : TournamentPlayer) :
  samePlayer p1 p2 → samePlayer p2 p3 → samePlayer p1 p3.
Proof.
  unfold samePlayer. intros (?&?&?&?&?) (?&?&?&?&?). split_and!; congruence.
Qed.

Lemma samePlayer_refl (player : TournamentPlayer) : samePlayer player player.
Proof. unfold samePlayer. by split_and!. Qed.

Lemma updateELORatings_samePlayer (s : TournamentSystem) (m : Match) (r : nat)
    (player : TournamentPlayer) :
  playerObjs s !! r = Some player →
  ∃ player', playerObjs (updateELORatings s m) !! r = Some player'
             ∧ samePlayer player player'.
Proof.
  intros Hr. unfold updateELORatings.
  assert (∃ player', playerObjs s !! r = Some player'
                     ∧ samePlayer player player') as Hsame.
  { exists player. split; [done | apply samePlayer_refl]. }
  destruct (m_result m); try done;
    destruct (m_player1 m ≫= _); try done;
    destruct (m_player2 m ≫= _); try done;
    match goal with
    | |- context [setElo (setElo ?s0 ?r1 ?v1) ?r2 ?v2] =>
        destruct (setElo_samePlayer s0 r1 v1 r player Hr) as (p1 & Hp1 & Hs1);
        destruct (setElo_samePlayer (setElo s0 r1 v1) r2 v2 r p1 Hp1)
          as (p2 & Hp2 & Hs2);
        exists p2; split; [done | by eapply samePlayer_trans]
    end.
Qed.

Lemma recorded_samePlayer (s : TournamentSystem) (ref : nat) (m : Match)
    (result : MatchResult) (now : nat) (r : nat) (player : TournamentPlayer) :
  playerObjs s !! r = Some player →
  ∃ player', playerObjs (recorded s ref m result now) !! r = Some player'
             ∧ samePlayer player player'.
Proof.
  intros Hr. unfold recorded. apply updateELORatings_samePlayer.
  match goal with
  | |- context [updatePlayerStats ?s1 ?m1] =>
      destruct (updatePlayerStats_frame s1 m1) as (_ & _ & -> & _)
  end.
  done.
Qed.

Lemma updatePlayer_stats_is_Some (s : TournamentSystem) (ref : option nat)
    (won drew : bool) (r : nat) :
  is_Some (statsObjs s !! r) →
  is_Some (statsObjs (updatePlayer s ref won drew) !! r).
Proof.
  intros Hr.
  destruct (updatePlayer_statsObjs s ref won drew)
    as [->|(q & player & st0 & _ & _ & Hst0 & ->)]; [done|].
  apply lookup_insert_is_Some. destruct (decide (p_stats player = r)); auto.
Qed.

Lemma recorded_stats_is_Some (s : TournamentSystem) (ref : nat) (m : Match)
    (result : MatchResult) (now : nat) (r : nat) :
  is_Some (statsObjs s !! r) →
  is_Some (statsObjs (recorded s ref m result now) !! r).
Proof.
  intros Hr. unfold recorded.
  match goal with
  | |- context [updateELORatings ?s1 ?m1] =>
      destruct (updateELORatings_frame s1 m1) as (_ & _ & -> & _)
  end.
  unfold updatePlayerStats. simpl m_result.
  destruct result; try done; by do 2 apply updatePlayer_stats_is_Some.
Qed.

Lemma reportMatchResult_core (rng : Random) (s s' : TournamentSystem)
    (tournamentId matchId : string) (result : MatchResult) (now : nat) :
  coreInv s →
  reportMatchResult rng s tournamentId matchId result now = Ok s' →
  coreInv s'.
Proof.
  intros (Hstats & Hreg & Hhist) Hrun.
  apply reportMatchResult_effects in Hrun
    as (t & ref & m & t' & _ & _ & _ & _ & _ & Hdb & Hh & Hpl & Hst & _).
  split; [|split].
  - rewrite Hst. by apply recorded_statsInv.
  - intros id r. rewrite Hdb. intros Hid.
    destruct (Hreg id r Hid) as (player & st & Hp & Hs).
    destruct (recorded_samePlayer s ref m result now r player Hp)
      as (player' & Hp' & (_ & _ & _ & _ & Hsame)).
    destruct (recorded_stats_is_Some s ref m result now (p_stats player))
      as [st' Hst']; [by eexists|].
    exists player', st'. rewrite Hpl, Hst, Hsame. done.
  - congruence.
Qed.

Lemma reachable_core (rng : Random) (s : TournamentSystem) :
  reachable rng s → coreInv s.
Proof.
  induction 1.
  - apply new_core.
  - by apply addHumanPlayer_core.
  - by eapply createTournament_core.
  - by eapply startTournament_core.
  - by eapply reportMatchResult_core.
Qed.

(** X20.  [shuffleArray] returns a permutation of the array it is given,
    whatever the random numbers are, and draws one random number for every
    element but the first. *)
Theorem shuffleArray_permutation {A : Type} (rng : Random)
    (s : TournamentSystem) (array : list A) :
  (shuffleArray rng s array).1 ≡ₚ array
  ∧ length (shuffleArray rng s array).1 = length array
  ∧ randomCalls (shuffleArray rng s array).2
    = (randomCalls s + (length array - 1))%nat.
Proof.
  unfold shuffleArray.
  destruct (shuffleFrom_Permutation rng (length array - 1) s array)
    as (Hperm & Hcalls & _).
  split_and!; [done | by rewrite Hperm | done].
Qed.

(** X21.  The statistics of every registered player add up: in every system
    that the operations can produce, a registered identifier resolves to a
    player whose numbers of wins, losses and draws are not negative and
    sum to the number of games played. *)
Theorem registered_stats_add_up (rng : Random) (s : TournamentSystem)
    (id : string) (ref : nat) :
  reachable rng s → playerDatabase s !! id = Some ref →
  ∃ player st,
    playerObjs s !! ref = Some player
    ∧ statsObjs s !! p_stats player = Some st
    ∧ 0 ≤ wins st ∧ 0 ≤ losses st ∧ 0 ≤ draws st
    ∧ gamesPlayed st = wins st + losses st + draws st.
Proof.
  intros Hreach Hid.
  destruct (reachable_core rng s Hreach) as (Hstats & Hreg & _).
  destruct (Hreg id ref Hid) as (player & st & Hp & Hst).
  exists player, st. split; [done|]. split; [done|].
  exact (Hstats _ _ Hst).
Qed.

Lemma registered_stats_add_up_witness :
  ∃ player st,
    playerObjs leagueReported !! 0%nat = Some player
    ∧ statsObjs leagueReported !! p_stats player = Some st
    ∧ 0 ≤ wins st ∧ 0 ≤ losses st ∧ 0 ≤ draws st
    ∧ gamesPlayed st = wins st + losses st + draws st.
Proof.
  apply (registered_stats_add_up sampleRandom leagueReported "ai_easy" 0).
  - apply leagueReported_reachable.
  - vm_compute. reflexivity.
Defined.

Lemma clonePlayers_outcome (playerIds : list string) :
  ∀ s, registryInv s →
    match firstUnknown s playerIds with
    | Some id => clonePlayers s playerIds = inl id
    | None => ∃ refs s', clonePlayers s playerIds = inr (refs, s')
    end.
Proof.
  induction playerIds as [|id rest IH]; intros s Hreg.
  - simpl. by eexists _, _.
  - unfold firstUnknown. simpl. case_bool_decide as Hid.
    + by rewrite Hid.
    + destruct (playerDatabase s !! id) as [ref|] eqn:Hl; [|done]. simpl.
      destruct (Hreg id ref Hl) as (player & st & Hp & Hst). rewrite Hp.
      unfold clonePlayer, allocPlayer.
      set (s1 := setPlayerObjs s _).
      assert (registryInv s1) as Hreg1.
      { intros id0 ref0 Hid0. destruct (Hreg id0 ref0 Hid0)
          as (player0 & st0 & Hp0 & Hst0).
        exists player0, st0. split; [|done]. by apply alloc_old. }
      specialize (IH s1 Hreg1). unfold firstUnknown in IH.
      change (playerDatabase s1) with (playerDatabase s) in IH.
      destruct (List.find _ rest) as [missing|].
      * by rewrite IH.
      * destruct IH as (refs & s' & ->). by eexists _, _.
Qed.

(** X22.  The three outcomes of [createTournament].  With fewer than two
    identifiers it throws "Tournament requires at least 2 players"; with
    two or more of which one is not registered it throws
    "Player <id> not found" for the first such identifier; otherwise it
    returns a tournament in Setup that the system then holds under the
    tournament's identifier. *)
Theorem createTournament_outcome (rng : Random) (s : TournamentSystem)
    (name : string) (type : Format) (playerIds : list string) :
  reachable rng s →
  ((length playerIds < 2)%nat →
   createTournament rng s name type playerIds
   = Throw "Tournament requires at least 2 players")
  ∧ (∀ id, (2 ≤ length playerIds)%nat →
           firstUnknown s playerIds = Some id →
           createTournament rng s name type playerIds
           = Throw ("Player " +:+ id +:+ " not found"))
  ∧ ((2 ≤ length playerIds)%nat → firstUnknown s playerIds = None →
     ∃ t s', createTournament rng s name type playerIds = Ok (t, s')
             ∧ tournaments s' !! t_id t = Some t
             ∧ t_status t = Setup).
Proof.
  intros Hreach.
  destruct (reachable_core rng s Hreach) as (_ & Hreg & _).
  pose proof (clonePlayers_outcome playerIds s Hreg) as Hclone.
  split_and!.
  - intros Hlen. unfold createTournament. by rewrite bool_decide_true.
  - intros id Hlen Hfirst. unfold createTournament.
    rewrite bool_decide_false by lia. by rewrite Hfirst in Hclone; rewrite Hclone.
  - intros Hlen Hfirst. rewrite Hfirst in Hclone.
    destruct Hclone as (refs & s1 & Hclone).
    destruct (createTournament rng s name type playerIds) as [[t s']| |] eqn:Hrun.
    + exists t, s'. split; [done|].
      apply createTournament_effects in Hrun
        as (_ & _ & _ & _ & Htour & _ & _ & _ & _ & _ & Hst & _).
      split; [|done]. by rewrite Htour, lookup_insert_eq.
    + unfold createTournament in Hrun.
      rewrite bool_decide_false in Hrun by lia. rewrite Hclone in Hrun.
      destruct (generateId rng s1) as [id s2].
      by destruct (generateBracket rng s2 _) as [[t s3]|].
    + by destruct (createTournament_returns rng s name type playerIds).
Qed.

Lemma createTournament_outcome_witness :
  createTournament sampleRandom Tournament.new "cup" Swiss ["ai_easy"]
  = Throw "Tournament requires at least 2 players"
  ∧ createTournament sampleRandom Tournament.new "cup" Swiss
      ["ai_easy"; "nobody"; "ai_hard"; "no one"]
    = Throw "Player nobody not found"
  ∧ ∃ t s', createTournament sampleRandom Tournament.new "cup" Swiss
              ["ai_easy"; "ai_hard"] = Ok (t, s')
            ∧ tournaments s' !! t_id t = Some t
            ∧ t_status t = Setup.
Proof.
  split_and!.
  - apply (createTournament_outcome sampleRandom Tournament.new "cup" Swiss
             ["ai_easy"]); [apply reachable_new | simpl; lia].
  - destruct (createTournament_outcome sampleRandom Tournament.new "cup" Swiss
                ["ai_easy"; "nobody"; "ai_hard"; "no one"] (reachable_new _))
      as (_ & Hthrow & _).
    apply (Hthrow "nobody"); [simpl; lia | vm_compute; reflexivity].
  - apply (createTournament_outcome sampleRandom Tournament.new "cup" Swiss
             ["ai_easy"; "ai_hard"]);
      [apply reachable_new | simpl; lia | vm_compute; reflexivity].
Defined.

Lemma matchesOf_elem (s : TournamentSystem) (t : Tournament) (ref : nat)
    (m : Match) :
  (ref, m) ∈ matchesOf s t ↔ ref ∈ t_matches t ∧ matchObjs s !! ref = Some m.
Proof.
  unfold matchesOf. rewrite list_elem_of_omap. split.
  - intros (r & Hr & Hm).
    destruct (matchObjs s !! r) as [m0|] eqn:E; simplify_eq/=. done.
  - intros [Hr Hm]. exists ref. split; [done|]. by rewrite Hm.
Qed.

Lemma firstRoundInv_objects (s s' : TournamentSystem) (t : Tournament) :
  (∀ r m, matchObjs s !! r = Some m →
          ∃ m', matchObjs s' !! r = Some m'
                ∧ m_roundNumber m' = m_roundNumber m) →
  firstRoundInv s t → firstRoundInv s' t.
Proof.
  intros Hkeep (Hm & Hrounds & Hdone). split_and!; try done.
  intros ref Hin. destruct (Hm ref Hin) as (m & Hobj & Hone).
  destruct (Hkeep ref m Hobj) as (m' & Hobj' & Hround).
  exists m'. split; [done | congruence].
Qed.

Lemma recorded_rounds (s : TournamentSystem) (ref : nat) (m : Match)
    (result : MatchResult) (now : nat) :
  matchObjs s !! ref = Some m →
  ∀ r x, matchObjs s !! r = Some x →
         ∃ x', matchObjs (recorded s ref m result now) !! r = Some x'
               ∧ m_roundNumber x' = m_roundNumber x.
Proof.
  intros Hobj r x Hx.
  destruct (recorded_frame s ref m result now) as (_ & _ & _ & ->).
  destruct (decide (r = ref)) as [->|Hne].
  - rewrite lookup_insert_eq. eexists. split; [done|]. simpl. congruence.
  - rewrite lookup_insert_ne by done. by exists x.
Qed.

Lemma isTournamentComplete_final (s : TournamentSystem) (t : Tournament) :
  isTournamentComplete s t = true →
  ∃ ref m, (ref, m) ∈ matchesOf s t ∧ m_roundNumber m = t_totalRounds t.
Proof.
  unfold isTournamentComplete.
  destruct (List.filter _ (matchesOf s t)) as [|[ref m] rest] eqn:Hfilter;
    [done|].
  intros _. exists ref, m.
  assert ((ref, m) ∈ List.filter
            (λ rm : nat * Match, inRound (t_totalRounds t) rm.2)
            (matchesOf s t)) as Hin.
  { rewrite Hfilter. apply list_elem_of_here. }
  apply list_elem_of_In, filter_In in Hin as [Hin Hround].
  split; [by apply list_elem_of_In|].
  unfold inRound in Hround. simpl in Hround. by apply bool_decide_eq_true in Hround.
Qed.

Lemma reachable_firstRound (rng : Random) (s : TournamentSystem) :
  reachable rng s →
  ∀ id t, tournaments s !! id = Some t → t_type t ≠ SingleElimination →
          firstRoundInv s t.
Proof.
  induction 1 as [|s name Hreach IH|s name type playerIds t s' Hreach IH Hrun
                  |s tournamentId now t s' Hreach IH Hrun
                  |s tournamentId matchId result now s' Hreach IH Hrun];
    intros id0 t0 Hlook Hty.
  - by vm_compute in Hlook.
  - rewrite addHumanPlayer_eq in Hlook. simpl in Hlook.
    apply (firstRoundInv_objects s); [|by eapply IH].
    intros r m Hm. exists m. by rewrite addHumanPlayer_eq.
  - apply createTournament_effects in Hrun
      as (Hlen & _ & _ & _ & Htour & _ & Hobjs & Hplayers & _ & Htype & Hst
          & _ & Hrounds & _ & _ & _ & order & _ & _ & Hcreated).
    rewrite Htour in Hlook.
    apply lookup_insert_Some in Hlook as [[_ <-]|[_ Hlook]].
    + split_and!.
      * intros ref Hin.
        apply list_elem_of_lookup in Hin as [i Hi].
        destruct (Forall2_lookup_l _ _ _ _ _ Hcreated Hi)
          as (spec & Hspec & _ & idm & Hobj).
        exists (pendingMatch idm spec.1.1 spec.1.2 spec.2).
        split; [done|].
        apply list_lookup_fmap_Some in Hspec as (pair & -> & _). done.
      * by rewrite Hrounds, Htype, Hplayers.
      * by rewrite Hst.
    + apply (firstRoundInv_objects s); [|by eapply IH].
      intros r m Hm. exists m. split; [by apply Hobjs | done].
  - unfold startTournament in Hrun.
    destruct (tournaments s !! tournamentId) as [t1|] eqn:Hold; [|done].
    injection Hrun as <- <-. simpl in Hlook.
    apply lookup_insert_Some in Hlook as [[_ <-]|[_ Hlook]]; [|by eapply IH].
    destruct (IH _ _ Hold Hty) as (Hm & Hrounds & _).
    split_and!; try done.
  - apply reportMatchResult_effects in Hrun
      as (t & ref & m & t' & Hold & _ & _ & Hobj & Htour & _ & _ & _ & _
          & Hkeep & Hcase).
    assert (∀ r x, matchObjs s !! r = Some x →
                   ∃ x', matchObjs s' !! r = Some x'
                         ∧ m_roundNumber x' = m_roundNumber x) as Hobjs.
    { intros r x Hx.
      destruct (recorded_rounds s ref m result now Hobj r x Hx)
        as (x' & Hx' & Hround).
      exists x'. split; [by apply Hkeep | done]. }
    rewrite Htour in Hlook.
    apply lookup_insert_Some in Hlook as [[_ <-]|[_ Hlook]];
      [|apply (firstRoundInv_objects s); [done | by eapply IH]].
    destruct Hcase as [[Hcomplete ->]|[_ [-> _]]].
    + destruct (completeTournament_fields (recorded s ref m result now) t now)
        as (_ & _ & Htype & _).
      rewrite Htype in Hty.
      apply (firstRoundInv_objects s) with (t := t) in Hobjs as Hinv;
        [|by eapply IH].
      assert (firstRoundInv (recorded s ref m result now) t) as Hrec.
      { apply (firstRoundInv_objects s); [|by eapply IH].
        by apply recorded_rounds. }
      destruct Hrec as (Hmr & _ & _).
      apply isTournamentComplete_final in Hcomplete
        as (ref0 & m0 & Hin & Hfinal).
      apply matchesOf_elem in Hin as [Hin Hm0].
      destruct (Hmr ref0 Hin) as (m1 & Hm1 & Hone).
      assert (t_totalRounds t = 1) as Htotal by congruence.
      rewrite completeTournament_eq. cbv zeta.
      destruct (t_type t); [done | | |];
        (destruct Hinv as (Hm & Hrounds & _); by split_and!).
    + destruct (advanceTournament_effects rng (recorded s ref m result now) t)
        as (_ & _ & _ & (_ & _ & Htype & _) & _ & _ & _ & Hsame).
      rewrite Htype in Hty. rewrite (Hsame Hty). simpl.
      apply (firstRoundInv_objects s); [done | by eapply IH].
Qed.

Lemma ceilLog2_one (n : nat) : ceilLog2 n = 1 → n = 2%nat.
Proof.
  unfold ceilLog2. intros H.
  destruct (decide (1 < Z.of_nat n)) as [Hlt|Hle].
  - pose proof (Z.log2_up_spec (Z.of_nat n) Hlt) as [_ Hup].
    rewrite H in Hup. change (2 ^ 1) with 2 in Hup. lia.
  - rewrite Z.log2_up_eqn0 in H by lia. done.
Qed.

(** X23.  Outside single elimination there is only a first round.  In every
    system that the operations can produce, every match of a double
    elimination, round robin or Swiss tournament is a first-round match.
    Such a tournament is Completed only when its total number of rounds is
    1: a round robin, or a Swiss tournament of exactly two players.  A
    double elimination is never Completed, and neither is a Swiss
    tournament of three or more players. *)
Theorem first_round_only_outside_single_elimination (rng : Random)
    (s : TournamentSystem) (id : string) (t : Tournament) :
  reachable rng s → tournaments s !! id = Some t →
  t_type t ≠ SingleElimination →
  (∀ ref, ref ∈ t_matches t →
          ∃ m, matchObjs s !! ref = Some m ∧ m_roundNumber m = 1)
  ∧ (t_status t = Completed →
     t_type t = RoundRobin
     ∨ (t_type t = Swiss ∧ length (t_players t) = 2%nat)).
Proof.
  intros Hreach Hlook Hty.
  destruct (reachable_firstRound rng s Hreach id t Hlook Hty)
    as (Hm & Hrounds & Hdone).
  split; [done|]. intros Hst. specialize (Hdone Hst).
  rewrite Hdone in Hrounds. unfold calculateTotalRounds in Hrounds.
  destruct (t_type t); [done | lia | by left | right].
  split; [done|]. by apply ceilLog2_one.
Qed.

Lemma first_round_only_outside_single_elimination_witness :
  (∀ ref, ref ∈ t_matches leagueTournament →
          ∃ m, matchObjs leagueReported !! ref = Some m ∧ m_roundNumber m = 1)
  ∧ (t_type leagueTournament = RoundRobin
     ∨ (t_type leagueTournament = Swiss
        ∧ length (t_players leagueTournament) = 2%nat)).
Proof.
  destruct (first_round_only_outside_single_elimination sampleRandom
              leagueReported "t4k2m9a" leagueTournament) as [Hfirst Hdone].
  - apply leagueReported_reachable.
  - vm_compute. reflexivity.
  - discriminate.
  - split; [exact Hfirst | apply Hdone; reflexivity].
Defined.

Lemma updatePlayer_stats_other (s : TournamentSystem) (ref : option nat)
    (won drew : bool) (r : nat) :
  (∀ q player, ref = Some q → playerObjs s !! q = Some player →
               p_stats player ≠ r) →
  statsObjs (updatePlayer s ref won drew) !! r = statsObjs s !! r.
Proof.
  intros Hother. unfold updatePlayer.
  destruct ref as [q|]; simpl; [|done].
  destruct (playerObjs s !! q) as [player|] eqn:Hp; [|done].
  destruct (statsObjs s !! p_stats player) as [st|]; [|done].
  simpl. rewrite lookup_insert_ne; [done|]. by apply (Hother q).
Qed.

Lemma updatePlayerStats_stats_other (s : TournamentSystem) (m : Match)
    (r : nat) :
  (∀ q player, m_player1 m = Some q ∨ m_player2 m = Some q →
               playerObjs s !! q = Some player → p_stats player ≠ r) →
  statsObjs (updatePlayerStats s m) !! r = statsObjs s !! r.
Proof.
  intros Hother.
  assert (∀ w1 d1 w2 d2,
    statsObjs (updatePlayer (updatePlayer s (m_player1 m) w1 d1)
                 (m_player2 m) w2 d2) !! r = statsObjs s !! r) as Hboth.
  { intros w1 d1 w2 d2.
    destruct (updatePlayer_frame s (m_player1 m) w1 d1) as (_ & _ & Hobjs & _).
    rewrite updatePlayer_stats_other.
    - apply updatePlayer_stats_other. intros q player Hq. apply Hother. by left.
    - intros q player Hq. rewrite Hobjs. apply Hother. by right. }
  unfold updatePlayerStats. destruct (m_result m); try apply Hboth. done.
Qed.

Lemma setElo_other (s : TournamentSystem) (ref : option nat) (v : Elo)
    (r : nat) :
  ref ≠ Some r → playerObjs (setElo s ref v) !! r = playerObjs s !! r.
Proof.
  intros Hne. unfold setElo. destruct ref as [q|]; [|done].
  destruct (playerObjs s !! q); [|done]. simpl.
  rewrite lookup_insert_ne; [done | congruence].
Qed.

Lemma updateELORatings_other (s : TournamentSystem) (m : Match) (r : nat) :
  m_player1 m ≠ Some r → m_player2 m ≠ Some r →
  playerObjs (updateELORatings s m) !! r = playerObjs s !! r.
Proof.
  intros H1 H2. unfold updateELORatings.
  assert (∀ v1 v2,
    playerObjs (setElo (setElo s (m_player1 m) v1) (m_player2 m) v2) !! r
    = playerObjs s !! r) as Hboth.
  { intros v1 v2. by rewrite !setElo_other. }
  destruct (m_result m); try done;
    destruct (m_player1 m ≫= _); try done;
    destruct (m_player2 m ≫= _); try done; apply Hboth.
Qed.

Lemma recorded_others (s : TournamentSystem) (ref : nat) (m : Match)
    (result : MatchResult) (now : nat) :
  (∀ r, m_player1 m ≠ Some r → m_player2 m ≠ Some r →
        playerObjs (recorded s ref m result now) !! r = playerObjs s !! r)
  ∧ (∀ r, (∀ q player, m_player1 m = Some q ∨ m_player2 m = Some q →
                       playerObjs s !! q = Some player → p_stats player ≠ r) →
          statsObjs (recorded s ref m result now) !! r = statsObjs s !! r).
Proof.
  unfold recorded.
  set (m' := mkMatch (m_id m) (m_player1 m) (m_player2 m) result
               (m_roundNumber m) (m_startTime m) (Some now) (m_moves m)).
  set (s1 := setMatchObjs s (<[ref := m']> (matchObjs s))).
  split.
  - intros r H1 H2. rewrite updateELORatings_other by done.
    by destruct (updatePlayerStats_frame s1 m') as (_ & _ & -> & _).
  - intros r Hother.
    destruct (updateELORatings_frame (updatePlayerStats s1 m') m')
      as (_ & _ & -> & _).
    by rewrite updatePlayerStats_stats_other.
Qed.

(** X24.  What a report touches.  A call of [reportMatchResult] that returns
    has found the tournament and a match with the given identifier among
    the tournament's matches.  It leaves the registry as it was, and every
    other tournament, every other match object, every player object that
    is not one of the two players of the match, and every statistics
    object that is not the one of these two players; of the two players
    it changes the rating at most. *)
Theorem report_touches_its_match_only (rng : Random) (s s' : TournamentSystem)
    (tournamentId matchId : string) (result : MatchResult) (now : nat) :
  reportMatchResult rng s tournamentId matchId result now = Ok s' →
  ∃ t ref m,
    tournaments s !! tournamentId = Some t
    ∧ ref ∈ t_matches t ∧ matchObjs s !! ref = Some m ∧ m_id m = matchId
    ∧ playerDatabase s' = playerDatabase s
    ∧ matchHistory s' = matchHistory s
    ∧ (∀ id, id ≠ tournamentId → tournaments s' !! id = tournaments s !! id)
    ∧ (∀ r x, r ≠ ref → matchObjs s !! r = Some x → matchObjs s' !! r = Some x)
    ∧ (∀ r, m_player1 m ≠ Some r → m_player2 m ≠ Some r →
            playerObjs s' !! r = playerObjs s !! r)
    ∧ (∀ r player, playerObjs s !! r = Some player →
                   ∃ player', playerObjs s' !! r = Some player'
                              ∧ samePlayer player player')
    ∧ (∀ r, (∀ q player, m_player1 m = Some q ∨ m_player2 m = Some q →
                         playerObjs s !! q = Some player →
                         p_stats player ≠ r) →
            statsObjs s' !! r = statsObjs s !! r).
Proof.
  intros Hrun.
  apply reportMatchResult_effects in Hrun
    as (t & ref & m & t' & Hold & Hin & Hid & Hobj & Htour & Hdb & Hhist
        & Hplayers & Hstats & Hkeep & _).
  destruct (recorded_others s ref m result now) as [Hp Hs].
  destruct (recorded_frame s ref m result now) as (_ & _ & _ & Hmatch).
  exists t, ref, m. split_and!; try done.
  - by apply matchesOf_elem in Hin as [Hin _].
  - intros id Hne. by rewrite Htour, lookup_insert_ne.
  - intros r x Hne Hx. apply Hkeep. by rewrite Hmatch, lookup_insert_ne.
  - intros r H1 H2. rewrite Hplayers. by apply Hp.
  - intros r player Hr. rewrite Hplayers. by apply recorded_samePlayer.
  - intros r Hother. rewrite Hstats. by apply Hs.
Qed.

Lemma report_touches_its_match_only_witness :
  ∃ t ref m,
    tournaments leagueCreated !! "t4k2m9a" = Some t
    ∧ ref ∈ t_matches t ∧ matchObjs leagueCreated !! ref = Some m
    ∧ m_id m = "m7q1x0c"
    ∧ playerDatabase leagueReported = playerDatabase leagueCreated
    ∧ matchHistory leagueReported = matchHistory leagueCreated
    ∧ (∀ id, id ≠ "t4k2m9a" →
             tournaments leagueReported !! id = tournaments leagueCreated !! id)
    ∧ (∀ r x, r ≠ ref → matchObjs leagueCreated !! r = Some x →
              matchObjs leagueReported !! r = Some x)
    ∧ (∀ r, m_player1 m ≠ Some r → m_player2 m ≠ Some r →
            playerObjs leagueReported !! r = playerObjs leagueCreated !! r)
    ∧ (∀ r player, playerObjs leagueCreated !! r = Some player →
                   ∃ player', playerObjs leagueReported !! r = Some player'
                              ∧ samePlayer player player')
    ∧ (∀ r, (∀ q player, m_player1 m = Some q ∨ m_player2 m = Some q →
                         playerObjs leagueCreated !! q = Some player →
                         p_stats player ≠ r) →
            statsObjs leagueReported !! r = statsObjs leagueCreated !! r).
Proof.
  apply (report_touches_its_match_only sampleRandom leagueCreated
           leagueReported "t4k2m9a" "m7q1x0c" Player1 1).
  vm_compute. reflexivity.
Defined.

(** X25.  Right after its creation every match of a tournament is pending:
    [getNextMatches] returns all of them, in the order of the bracket, and
    still does so after [startTournament]. *)
Theorem next_matches_after_creation (rng : Random) (s s' s2 : TournamentSystem)
    (name : string) (type : Format) (playerIds : list string)
    (t t2 : Tournament) (now : nat) :
  createTournament rng s name type playerIds = Ok (t, s') →
  startTournament s' (t_id t) now = Ok (t2, s2) →
  getNextMatches s' (t_id t) = Ok (snd <$> matchesOf s' t)
  ∧ getNextMatches s2 (t_id t) = Ok (snd <$> matchesOf s' t)
  ∧ length (matchesOf s' t) = length (t_matches t)
  ∧ Forall (λ rm : nat * Match,
              m_result rm.2 = Pending ∧ m_roundNumber rm.2 = 1)
           (matchesOf s' t).
Proof.
  intros Hcreate Hstart.
  apply createTournament_effects in Hcreate
    as (_ & _ & _ & _ & Htour & _ & _ & _ & _ & _ & _ & _ & _ & _ & _ & _
        & order & _ & _ & Hcreated).
  apply created_matchesOf in Hcreated as [Hpending Hlen].
  assert (Forall (λ rm : nat * Match,
                    m_result rm.2 = Pending ∧ m_roundNumber rm.2 = 1)
                 (matchesOf s' t)) as Hall.
  { apply Forall_forall. intros rm Hin.
    apply list_elem_of_lookup in Hin as [i Hi].
    destruct (Forall2_lookup_l _ _ _ _ _ Hpending Hi)
      as (pair & _ & _ & _ & Hres & Hround).
    done. }
  assert (List.filter (λ rm : nat * Match, isPending rm.2) (matchesOf s' t)
          = matchesOf s' t) as Hfilter.
  { clear Hpending Hlen. induction (matchesOf s' t) as [|rm l IH]; [done|].
    apply Forall_cons in Hall as [[Hres _] Hall]. simpl.
    unfold isPending at 1. rewrite bool_decide_true by done.
    by rewrite IH. }
  assert (tournaments s' !! t_id t = Some t) as Hlook
    by (by rewrite Htour, lookup_insert_eq).
  unfold startTournament in Hstart. rewrite Hlook in Hstart.
  injection Hstart as <- <-.
  split_and!.
  - unfold getNextMatches. by rewrite Hlook, Hfilter.
  - unfold getNextMatches. simpl. rewrite lookup_insert_eq.
    change (matchesOf _ _) with (matchesOf s' t). by rewrite Hfilter.
  - rewrite <- (length_fmap firstRound) in Hlen.
    apply Forall2_length in Hpending. 
    rewrite length_fmap in Hlen. congruence.
  - done.
Qed.

Lemma next_matches_after_creation_witness :
  getNextMatches (trioOf Swiss).2 (t_id (trioOf Swiss).1)
  = Ok (snd <$> matchesOf (trioOf Swiss).2 (trioOf Swiss).1)
  ∧ getNextMatches
      (valueOr (noTournament, Tournament.new)
         (startTournament (trioOf Swiss).2 (t_id (trioOf Swiss).1) 1)).2
      (t_id (trioOf Swiss).1)
    = Ok (snd <$> matchesOf (trioOf Swiss).2 (trioOf Swiss).1)
  ∧ length (matchesOf (trioOf Swiss).2 (trioOf Swiss).1)
    = length (t_matches (trioOf Swiss).1)
  ∧ Forall (λ rm : nat * Match,
              m_result rm.2 = Pending ∧ m_roundNumber rm.2 = 1)
           (matchesOf (trioOf Swiss).2 (trioOf Swiss).1).
Proof.
  apply (next_matches_after_creation sampleRandom Tournament.new
           (trioOf Swiss).2
           (valueOr (noTournament, Tournament.new)
              (startTournament (trioOf Swiss).2 (t_id (trioOf Swiss).1) 1)).2
           "trio" Swiss trioIds (trioOf Swiss).1
           (valueOr (noTournament, Tournament.new)
              (startTournament (trioOf Swiss).2 (t_id (trioOf Swiss).1) 1)).1
           1).
  - vm_compute. reflexivity.
  - vm_compute. reflexivity.
Defined.

(** X26.  The history of matches is never written, so the analytics of a player
    never show a match.  In every system that the operations can produce,
    [getPlayerAnalytics] throws "Player not found" for an identifier that
    is not registered; for a registered one it returns the player object
    of the registry with no recent matches, no rating history and an
    average opponent rating of 0, however many matches have been
    reported.  The win rate is 0 for a player without games and otherwise
    the quotient of the wins by the games played, of which the first is
    between 0 and the second. *)
Theorem analytics_never_show_a_match (rng : Random) (s : TournamentSystem)
    (playerId : string) :
  reachable rng s →
  (playerDatabase s !! playerId = None →
   getPlayerAnalytics s playerId = Throw "Player not found")
  ∧ (∀ ref, playerDatabase s !! playerId = Some ref →
       ∃ player st,
         playerObjs s !! ref = Some player
         ∧ statsObjs s !! p_stats player = Some st
         ∧ getPlayerAnalytics s playerId
           = Ok (mkPlayerAnalytics ref
                   (if bool_decide (0 < gamesPlayed st)
                    then Quotient (wins st) (gamesPlayed st) else NoGames)
                   NoOpponents [] [])
         ∧ 0 ≤ wins st ≤ gamesPlayed st).
Proof.
  intros Hreach.
  destruct (reachable_core rng s Hreach) as (Hstats & Hreg & Hhist).
  split.
  - intros Hnone. unfold getPlayerAnalytics. by rewrite Hnone.
  - intros ref Hid.
    destruct (Hreg playerId ref Hid) as (player & st & Hp & Hst).
    exists player, st. split; [done|]. split; [done|].
    destruct (Hstats _ _ Hst) as (Hw & Hl & Hd & Hsum).
    split; [|lia].
    unfold getPlayerAnalytics. rewrite Hid. simpl. rewrite Hp. simpl.
    rewrite Hst. simpl. by rewrite Hhist.
Qed.

Lemma analytics_never_show_a_match_witness :
  getPlayerAnalytics leagueReported "nobody" = Throw "Player not found"
  ∧ ∃ player st,
      playerObjs leagueReported !! 0%nat = Some player
      ∧ statsObjs leagueReported !! p_stats player = Some st
      ∧ getPlayerAnalytics leagueReported "ai_easy"
        = Ok (mkPlayerAnalytics 0
                (if bool_decide (0 < gamesPlayed st)
                 then Quotient (wins st) (gamesPlayed st) else NoGames)
                NoOpponents [] [])
      ∧ 0 ≤ wins st ≤ gamesPlayed st.
Proof.
  split.
  - apply (analytics_never_show_a_match sampleRandom leagueReported "nobody");
      [apply leagueReported_reachable | vm_compute; reflexivity].
  - apply (analytics_never_show_a_match sampleRandom leagueReported "ai_easy");
      [apply leagueReported_reachable | vm_compute; reflexivity].
Defined.

